(** * The Live Audio Bridge: a model of [GeminiLiveService]

    A shallow embedding of [src/services/geminiLiveService.ts].  The class is
    a record of its private fields; each method and each connection callback
    is an action that maps a service state to a new state, the list of
    observable effects it performed (callbacks to the caller, Web Audio and
    SDK calls) and possibly a thrown value.

    Conventions.
    - Browser and SDK objects are opaque handles.  Objects the service itself
      creates ([new AudioContext], [createBufferSource], ...) are numbered by
      an allocation counter, so two creations never yield the same object.
    - Times ([nextStartTime], [currentTime], [duration]) are JavaScript
      numbers in the source; here they are integers of one fixed time unit,
      with exact [+] and [max].  Rounding of doubles is outside the model.
    - Strings are sequences of bytes (UTF-8); only concatenation and the
      test for emptiness are used on them.
    - What the environment decides (whether the microphone is granted, the
      output clock, the duration of a decoded buffer) is an explicit input of
      the action that observes it.
    - In [run] a handler runs to completion before the next event is
      handled; [runSteps] also lets the two asynchronous handlers be
      overtaken while they wait. *)

From Stdlib Require Import List String Ascii ZArith Bool Lia PeanoNat.
Import ListNotations.
Open Scope string_scope.
Open Scope list_scope.
Open Scope Z_scope.

Set Implicit Arguments.

(** ** Handles and data *)

Inductive Speaker := Victime | IA.

Definition Track := nat.
Definition Session := nat.
Definition SessionPromise := nat.
Definition AudioNode := nat.
Definition AudioBufferSourceNode := nat.

Record MediaStream := { streamId : nat; tracks : list Track }.

Record AudioContext := { contextId : nat; sampleRate : Z }.

Inductive Modality := AUDIO | TEXT | IMAGE.

(** The [config] object handed to [ai.live.connect].  The two transcription
    options are empty objects in the source; what matters is their presence. *)
Record LiveConfig := {
  responseModalities : list Modality;
  inputAudioTranscription : bool;
  outputAudioTranscription : bool;
  cfgSystemInstruction : string
}.

(** A value that was thrown or that a promise rejected with: an instance of
    [Error] carrying a message (a [DOMException] is one), or anything else. *)
Inductive Thrown :=
| ErrorObject (message : string)
| OtherValue.

Inductive Outcome (A : Type) :=
| Resolved (a : A)
| Rejected (e : Thrown).
Arguments Resolved {A} a.
Arguments Rejected {A} e.

(** Where [node.connect(...)] leads: another node, or a context's
    [destination]. *)
Inductive Target :=
| ToNode (node : AudioNode)
| ToDestination (ctx : AudioContext).

(** ** Observable effects, in program order *)

Inductive Effect :=
(* the [Callbacks] interface *)
| OnTranscriptUpdate (text : string) (isFinal : bool) (speaker : Speaker)
| OnTurnComplete (speaker : Speaker)
| OnError (error : string)
| OnClose
(* session setup *)
| GetUserMedia (audio : bool)
| NewAudioContext (ctx : AudioContext)
| LiveConnect (model : string) (config : LiveConfig) (promise : SessionPromise)
| SessionClose (session : Session)
(* capture graph *)
| CreateMediaStreamSource (ctx : AudioContext) (stream : MediaStream) (node : AudioNode)
| CreateScriptProcessor (ctx : AudioContext) (bufferSize inputs outputs : Z) (node : AudioNode)
| NodeConnect (node : AudioNode) (target : Target)
| NodeDisconnect (node : AudioNode)
| TrackStop (track : Track)
| ContextClose (ctx : AudioContext)
(* playback *)
| DecodeAudioData (data : string) (ctx : AudioContext) (rate channels : Z)
| CreateBufferSource (ctx : AudioContext) (source : AudioBufferSourceNode)
| SourceBuffer (source : AudioBufferSourceNode) (bufferDuration : Z)
| SourceOnEnded (source : AudioBufferSourceNode)
| SourceConnect (source : AudioBufferSourceNode) (target : Target)
| SourceStart (source : AudioBufferSourceNode) (when : Z)
| SourceStop (source : AudioBufferSourceNode).

(** ** The service state: the private fields of the class *)

Record Service := {
  session : option Session;
  sessionPromise : option SessionPromise;
  mediaStream : option MediaStream;
  inputAudioContext : option AudioContext;
  outputAudioContext : option AudioContext;
  scriptProcessor : option AudioNode;
  sourceNode : option AudioNode;
  outputSources : list AudioBufferSourceNode;
  nextStartTime : Z;
  currentInputTranscription : string;
  currentOutputTranscription : string;
  (* not a field of the class: the number of objects created so far *)
  allocated : nat
}.

(** The field initialisers of the class. *)
Definition newService : Service :=
  {| session := None; sessionPromise := None; mediaStream := None;
     inputAudioContext := None; outputAudioContext := None;
     scriptProcessor := None; sourceNode := None;
     outputSources := []; nextStartTime := 0;
     currentInputTranscription := EmptyString;
     currentOutputTranscription := EmptyString;
     allocated := 0 |}.

Definition set_session v s :=
  {| session := v; sessionPromise := sessionPromise s; mediaStream := mediaStream s;
     inputAudioContext := inputAudioContext s; outputAudioContext := outputAudioContext s;
     scriptProcessor := scriptProcessor s; sourceNode := sourceNode s;
     outputSources := outputSources s; nextStartTime := nextStartTime s;
     currentInputTranscription := currentInputTranscription s;
     currentOutputTranscription := currentOutputTranscription s;
     allocated := allocated s |}.

Definition set_sessionPromise v s :=
  {| session := session s; sessionPromise := v; mediaStream := mediaStream s;
     inputAudioContext := inputAudioContext s; outputAudioContext := outputAudioContext s;
     scriptProcessor := scriptProcessor s; sourceNode := sourceNode s;
     outputSources := outputSources s; nextStartTime := nextStartTime s;
     currentInputTranscription := currentInputTranscription s;
     currentOutputTranscription := currentOutputTranscription s;
     allocated := allocated s |}.

Definition set_mediaStream v s :=
  {| session := session s; sessionPromise := sessionPromise s; mediaStream := v;
     inputAudioContext := inputAudioContext s; outputAudioContext := outputAudioContext s;
     scriptProcessor := scriptProcessor s; sourceNode := sourceNode s;
     outputSources := outputSources s; nextStartTime := nextStartTime s;
     currentInputTranscription := currentInputTranscription s;
     currentOutputTranscription := currentOutputTranscription s;
     allocated := allocated s |}.

Definition set_inputAudioContext v s :=
  {| session := session s; sessionPromise := sessionPromise s; mediaStream := mediaStream s;
     inputAudioContext := v; outputAudioContext := outputAudioContext s;
     scriptProcessor := scriptProcessor s; sourceNode := sourceNode s;
     outputSources := outputSources s; nextStartTime := nextStartTime s;
     currentInputTranscription := currentInputTranscription s;
     currentOutputTranscription := currentOutputTranscription s;
     allocated := allocated s |}.

Definition set_outputAudioContext v s :=
  {| session := session s; sessionPromise := sessionPromise s; mediaStream := mediaStream s;
     inputAudioContext := inputAudioContext s; outputAudioContext := v;
     scriptProcessor := scriptProcessor s; sourceNode := sourceNode s;
     outputSources := outputSources s; nextStartTime := nextStartTime s;
     currentInputTranscription := currentInputTranscription s;
     currentOutputTranscription := currentOutputTranscription s;
     allocated := allocated s |}.

Definition set_scriptProcessor v s :=
  {| session := session s; sessionPromise := sessionPromise s; mediaStream := mediaStream s;
     inputAudioContext := inputAudioContext s; outputAudioContext := outputAudioContext s;
     scriptProcessor := v; sourceNode := sourceNode s;
     outputSources := outputSources s; nextStartTime := nextStartTime s;
     currentInputTranscription := currentInputTranscription s;
     currentOutputTranscription := currentOutputTranscription s;
     allocated := allocated s |}.

Definition set_sourceNode v s :=
  {| session := session s; sessionPromise := sessionPromise s; mediaStream := mediaStream s;
     inputAudioContext := inputAudioContext s; outputAudioContext := outputAudioContext s;
     scriptProcessor := scriptProcessor s; sourceNode := v;
     outputSources := outputSources s; nextStartTime := nextStartTime s;
     currentInputTranscription := currentInputTranscription s;
     currentOutputTranscription := currentOutputTranscription s;
     allocated := allocated s |}.

Definition set_outputSources v s :=
  {| session := session s; sessionPromise := sessionPromise s; mediaStream := mediaStream s;
     inputAudioContext := inputAudioContext s; outputAudioContext := outputAudioContext s;
     scriptProcessor := scriptProcessor s; sourceNode := sourceNode s;
     outputSources := v; nextStartTime := nextStartTime s;
     currentInputTranscription := currentInputTranscription s;
     currentOutputTranscription := currentOutputTranscription s;
     allocated := allocated s |}.

Definition set_nextStartTime v s :=
  {| session := session s; sessionPromise := sessionPromise s; mediaStream := mediaStream s;
     inputAudioContext := inputAudioContext s; outputAudioContext := outputAudioContext s;
     scriptProcessor := scriptProcessor s; sourceNode := sourceNode s;
     outputSources := outputSources s; nextStartTime := v;
     currentInputTranscription := currentInputTranscription s;
     currentOutputTranscription := currentOutputTranscription s;
     allocated := allocated s |}.

Definition set_currentInputTranscription v s :=
  {| session := session s; sessionPromise := sessionPromise s; mediaStream := mediaStream s;
     inputAudioContext := inputAudioContext s; outputAudioContext := outputAudioContext s;
     scriptProcessor := scriptProcessor s; sourceNode := sourceNode s;
     outputSources := outputSources s; nextStartTime := nextStartTime s;
     currentInputTranscription := v;
     currentOutputTranscription := currentOutputTranscription s;
     allocated := allocated s |}.

Definition set_currentOutputTranscription v s :=
  {| session := session s; sessionPromise := sessionPromise s; mediaStream := mediaStream s;
     inputAudioContext := inputAudioContext s; outputAudioContext := outputAudioContext s;
     scriptProcessor := scriptProcessor s; sourceNode := sourceNode s;
     outputSources := outputSources s; nextStartTime := nextStartTime s;
     currentInputTranscription := currentInputTranscription s;
     currentOutputTranscription := v;
     allocated := allocated s |}.

Definition set_allocated v s :=
  {| session := session s; sessionPromise := sessionPromise s; mediaStream := mediaStream s;
     inputAudioContext := inputAudioContext s; outputAudioContext := outputAudioContext s;
     scriptProcessor := scriptProcessor s; sourceNode := sourceNode s;
     outputSources := outputSources s; nextStartTime := nextStartTime s;
     currentInputTranscription := currentInputTranscription s;
     currentOutputTranscription := currentOutputTranscription s;
     allocated := v |}.

(** ** Actions: state, effect trace and exceptions *)

Record Result := {
  after : Service;
  effects : list Effect;
  thrown : option Thrown
}.

Definition Action := Service -> Result.

Definition skip : Action :=
  fun s => {| after := s; effects := []; thrown := None |}.

Definition emit (e : Effect) : Action :=
  fun s => {| after := s; effects := [e]; thrown := None |}.

Definition modify (f : Service -> Service) : Action :=
  fun s => {| after := f s; effects := []; thrown := None |}.

Definition read (k : Service -> Action) : Action :=
  fun s => k s s.

Definition throw (e : Thrown) : Action :=
  fun s => {| after := s; effects := []; thrown := Some e |}.

Definition andThen (a b : Action) : Action :=
  fun s =>
    match a s with
    | {| after := s1; effects := es1; thrown := None |} =>
        match b s1 with
        | {| after := s2; effects := es2; thrown := t |} =>
            {| after := s2; effects := es1 ++ es2; thrown := t |}
        end
    | r => r
    end.

Definition tryCatch (body : Action) (handler : Thrown -> Action) : Action :=
  fun s =>
    match body s with
    | {| after := s1; effects := es1; thrown := Some e |} =>
        match handler e s1 with
        | {| after := s2; effects := es2; thrown := t |} =>
            {| after := s2; effects := es1 ++ es2; thrown := t |}
        end
    | r => r
    end.

Declare Scope action_scope.
Delimit Scope action_scope with action.
Bind Scope action_scope with Action.
Notation "a ;; b" := (andThen a b) (at level 61, right associativity) : action_scope.
Open Scope action_scope.

(** [if (c) { ... }] *)
Definition when (c : bool) (a : Action) : Action :=
  if c then a else skip.

(** [x?.m()] and [if (x) { ... x ... }] for a nullable handle. *)
Definition whenSome {A} (o : option A) (k : A -> Action) : Action :=
  match o with
  | Some x => k x
  | None => skip
  end.

(** [xs.forEach(x => ...)] *)
Fixpoint forEach {A} (xs : list A) (k : A -> Action) : Action :=
  match xs with
  | [] => skip
  | x :: rest => k x ;; forEach rest k
  end.

(** [await p]: continue with the value, or throw the rejection. *)
Definition await {A} (p : Outcome A) (k : A -> Action) : Action :=
  match p with
  | Resolved a => k a
  | Rejected e => throw e
  end.

(** The creation of a new object: it gets the next unused identity. *)
Definition create (k : nat -> Action) : Action :=
  fun s => k (allocated s) (set_allocated (S (allocated s)) s).

(** JavaScript truthiness of a string: every string but the empty one. *)
Definition truthy (s : string) : bool :=
  match s with
  | EmptyString => false
  | String _ _ => true
  end.

(** ** [Set<AudioBufferSourceNode>]: insertion-ordered, without duplicates *)

Definition Set_has (x : AudioBufferSourceNode) (l : list AudioBufferSourceNode) : bool :=
  existsb (Nat.eqb x) l.

Definition Set_add (x : AudioBufferSourceNode) (l : list AudioBufferSourceNode) :=
  if Set_has x l then l else l ++ [x].

Definition Set_delete (x : AudioBufferSourceNode) (l : list AudioBufferSourceNode) :=
  filter (fun y => negb (Nat.eqb y x)) l.

(** ** Inbound messages *)

Record Transcription := { text : string }.
Record Blob := { data : option string }.
Record Part := { inlineData : option Blob }.
Record Content := { parts : list Part }.

Record ServerContent := {
  inputTranscription : option Transcription;
  outputTranscription : option Transcription;
  turnComplete : bool;
  interrupted : bool;
  modelTurn : option Content
}.

Record LiveServerMessage := { serverContent : option ServerContent }.

(** [message.serverContent?.f] for the four fields the handler tests. *)
Definition msgInputTranscription (m : LiveServerMessage) : option Transcription :=
  match serverContent m with Some sc => inputTranscription sc | None => None end.

Definition msgOutputTranscription (m : LiveServerMessage) : option Transcription :=
  match serverContent m with Some sc => outputTranscription sc | None => None end.

Definition msgTurnComplete (m : LiveServerMessage) : bool :=
  match serverContent m with Some sc => turnComplete sc | None => false end.

Definition msgInterrupted (m : LiveServerMessage) : bool :=
  match serverContent m with Some sc => interrupted sc | None => false end.

(** [message.serverContent?.modelTurn?.parts[0]?.inlineData?.data] *)
Definition base64Audio (m : LiveServerMessage) : option string :=
  match serverContent m with
  | None => None
  | Some sc =>
      match modelTurn sc with
      | None => None
      | Some turn =>
          match parts turn with
          | [] => None
          | part :: _ =>
              match inlineData part with
              | None => None
              | Some blob => data blob
              end
          end
      end
  end.

(** What the handler observes of the environment while it schedules a chunk:
    [outputAudioContext.currentTime] and the [duration] of the buffer that
    [decodeAudioData] resolves with.  The two decoding helpers live in
    [utils/audio]; decoding is taken to succeed. *)
Record AudioEnv := { currentTime : Z; duration : Z }.

(** ** [cleanup] *)

Definition cleanup : Action :=
  read (fun s => whenSome (scriptProcessor s) (fun node => emit (NodeDisconnect node))) ;;
  modify (set_scriptProcessor None) ;;
  read (fun s => whenSome (sourceNode s) (fun node => emit (NodeDisconnect node))) ;;
  modify (set_sourceNode None) ;;
  read (fun s => whenSome (mediaStream s) (fun stream =>
    forEach (tracks stream) (fun track => emit (TrackStop track)))) ;;
  modify (set_mediaStream None) ;;
  read (fun s => whenSome (inputAudioContext s) (fun ctx => emit (ContextClose ctx))) ;;
  modify (set_inputAudioContext None) ;;
  read (fun s => whenSome (outputAudioContext s) (fun ctx => emit (ContextClose ctx))) ;;
  modify (set_outputAudioContext None) ;;
  read (fun s => forEach (outputSources s) (fun source => emit (SourceStop source))) ;;
  modify (set_outputSources []) ;;
  modify (set_session None) ;;
  modify (set_sessionPromise None).

(** ** [stopSession] *)

Definition stopSession : Action :=
  read (fun s => whenSome (session s) (fun sess => emit (SessionClose sess))) ;;
  cleanup.

(** ** [handleServerMessage] *)

(** The loop of the interruption branch.  It walks the set while deleting the
    element it is visiting; a [Set] iterator then still visits every element
    that was present, once, in insertion order. *)
Fixpoint interruptLoop (pending : list AudioBufferSourceNode) : Action :=
  match pending with
  | [] => skip
  | source :: rest =>
      emit (SourceStop source) ;;
      modify (fun s => set_outputSources (Set_delete source (outputSources s)) s) ;;
      interruptLoop rest
  end.

(** The statements after [await decodeAudioData(...)].  They read
    [this.outputAudioContext] again; on [null] that is a [TypeError], an
    [Error] whose message is the engine's: the model writes the name of the
    error where the message goes, and what is proved of such a throw is that
    an [Error] is thrown, not its text.
    [SourceBuffer] is the assignment [source.buffer = audioBuffer], recorded
    with the duration of the buffer; [SourceOnEnded] is the registration of
    the ['ended'] listener. *)
Definition afterDecode (env : AudioEnv) : Action :=
  read (fun s =>
    match outputAudioContext s with
    | None => throw (ErrorObject "TypeError")
    | Some ctx =>
        create (fun source =>
          emit (CreateBufferSource ctx source) ;;
          emit (SourceBuffer source (duration env)) ;;
          emit (SourceConnect source (ToDestination ctx)) ;;
          emit (SourceOnEnded source) ;;
          read (fun s => emit (SourceStart source (nextStartTime s))) ;;
          modify (fun s => set_nextStartTime (nextStartTime s + duration env) s) ;;
          modify (fun s => set_outputSources (Set_add source (outputSources s)) s))
    end).

(** The five blocks of the handler, in source order. *)

Definition inputTranscriptionBlock (message : LiveServerMessage) : Action :=
  whenSome (msgInputTranscription message) (fun tr =>
    modify (fun s =>
      set_currentInputTranscription (currentInputTranscription s ++ text tr)%string s) ;;
    read (fun s => emit (OnTranscriptUpdate (currentInputTranscription s) false Victime))).

Definition outputTranscriptionBlock (message : LiveServerMessage) : Action :=
  whenSome (msgOutputTranscription message) (fun tr =>
    modify (fun s =>
      set_currentOutputTranscription (currentOutputTranscription s ++ text tr)%string s) ;;
    read (fun s => emit (OnTranscriptUpdate (currentOutputTranscription s) false IA))).

Definition turnCompleteBlock (message : LiveServerMessage) : Action :=
  when (msgTurnComplete message) (
    read (fun s => when (truthy (currentInputTranscription s)) (
      emit (OnTurnComplete Victime) ;;
      modify (set_currentInputTranscription EmptyString))) ;;
    read (fun s => when (truthy (currentOutputTranscription s)) (
      emit (OnTurnComplete IA) ;;
      modify (set_currentOutputTranscription EmptyString)))).

Definition interruptedBlock (message : LiveServerMessage) : Action :=
  when (msgInterrupted message) (
    read (fun s => interruptLoop (outputSources s)) ;;
    modify (set_nextStartTime 0)).

Definition audioBlock (message : LiveServerMessage) (env : AudioEnv) : Action :=
  whenSome (base64Audio message) (fun audio =>
    when (truthy audio) (
      read (fun s => whenSome (outputAudioContext s) (fun ctx =>
        modify (fun s => set_nextStartTime (Z.max (nextStartTime s) (currentTime env)) s) ;;
        emit (DecodeAudioData audio ctx 24000 1) ;;
        afterDecode env)))).

Definition handleServerMessage (message : LiveServerMessage) (env : AudioEnv) : Action :=
  inputTranscriptionBlock message ;;
  outputTranscriptionBlock message ;;
  turnCompleteBlock message ;;
  interruptedBlock message ;;
  audioBlock message env.

(** The ['ended'] listener of a scheduled source. *)
Definition onEnded (source : AudioBufferSourceNode) : Action :=
  modify (fun s => set_outputSources (Set_delete source (outputSources s)) s).

(** ** [startSession] and the connection callbacks *)

Definition quoted (pieces : list string) : string :=
  String.concat (String (ascii_of_nat 34) EmptyString) pieces.

Definition lines (ls : list string) : string :=
  String.concat (String (ascii_of_nat 10) EmptyString) ls.

Definition liveModel : string := "gemini-2.5-flash-native-audio-preview-09-2025".

Definition systemInstruction : string :=
  lines
    [ "Vous êtes une intelligence artificielle d'assistance aux victimes, conçue pour recueillir les dépositions dans les cas de violences conjugales. Votre rôle est d'agir comme un enquêteur professionnel, calme et empathique. Votre objectif principal est de constituer un rapport clair et précis pour les forces de l'ordre.";
      EmptyString;
      "Votre démarche doit être structurée :";
      "1.  **Introduction et Mise en Confiance :** Commencez par vous présenter et rassurer la victime. Expliquez que la conversation est confidentielle et a pour but de l'aider.";
      "2.  **Récit Libre :** Invitez la victime à raconter ce qui s'est passé avec ses propres mots.";
      "3.  **Questions de Précision :** Une fois le récit initial terminé, posez des questions méthodiques pour obtenir les détails essentiels :";
      quoted ["    *   **Identité :** "; "Pouvez-vous me donner le nom de la personne impliquée ?"; EmptyString];
      quoted ["    *   **Nature des faits :** "; "Pouvez-vous décrire précisément les actes de violence (physique, verbale, psychologique) ?"; EmptyString];
      quoted ["    *   **Date et Heure :** "; "Quand exactement cela s'est-il produit ? Le jour et l'heure si possible."; EmptyString];
      quoted ["    *   **Lieu :** "; "Où les faits ont-ils eu lieu ? Soyez aussi précise que possible."; EmptyString];
      quoted ["    *   **Témoins :** "; "Y avait-il d'autres personnes présentes ? Si oui, qui ?"; EmptyString];
      quoted ["    *   **Antécédents :** "; "Est-ce la première fois que cela arrive ?"; EmptyString];
      quoted ["    *   **Preuves :** "; "Existe-t-il des preuves (photos, messages, certificats médicaux) ?"; EmptyString];
      "4.  **Conclusion :** Remerciez la victime pour son courage et expliquez que sa déposition va être formalisée dans un rapport.";
      EmptyString;
      "Restez calme, ne portez aucun jugement, et guidez la conversation pour qu'elle soit la plus complète possible. Répondez exclusivement en français." ].

Definition liveConfig : LiveConfig :=
  {| responseModalities := [AUDIO];
     inputAudioTranscription := true;
     outputAudioTranscription := true;
     cfgSystemInstruction := systemInstruction |}.

(** What the environment decides during one call of [startSession]. *)
Record StartEnv := {
  userMedia : Outcome MediaStream;            (* getUserMedia({ audio: true }) *)
  inputContextError : option Thrown;          (* new AudioContext({ sampleRate: 16000 }) *)
  outputContextError : option Thrown;         (* new AudioContext({ sampleRate: 24000 }) *)
  connection : Outcome Session                (* the promise of ai.live.connect *)
}.

(** [new AudioContext({ sampleRate })] *)
Definition newAudioContext (rate : Z) (failure : option Thrown)
    (k : AudioContext -> Action) : Action :=
  match failure with
  | Some e => throw e
  | None =>
      create (fun id =>
        let ctx := {| contextId := id; sampleRate := rate |} in
        emit (NewAudioContext ctx) ;; k ctx)
  end.

Definition startErrorMessage (error : Thrown) : string :=
  match error with
  | ErrorObject message => ("Impossible de démarrer la session : " ++ message)%string
  | OtherValue => "Une erreur inconnue est survenue lors du démarrage de la session."
  end.

Definition startSession (env : StartEnv) : Action :=
  tryCatch
    (emit (GetUserMedia true) ;;
     await (userMedia env) (fun stream => modify (set_mediaStream (Some stream))) ;;
     newAudioContext 16000 (inputContextError env) (fun ctx =>
       modify (set_inputAudioContext (Some ctx))) ;;
     newAudioContext 24000 (outputContextError env) (fun ctx =>
       modify (set_outputAudioContext (Some ctx))) ;;
     create (fun promise =>
       emit (LiveConnect liveModel liveConfig promise) ;;
       modify (set_sessionPromise (Some promise))) ;;
     await (connection env) (fun sess => modify (set_session (Some sess))))
    (fun error =>
       emit (OnError (startErrorMessage error)) ;;
       cleanup).

(** [onopen]: the capture path.  The two non-null assertions do nothing at
    run time: without a context the member access throws, and
    [createMediaStreamSource(null)] throws as well; as in [afterDecode], the
    message of the [TypeError] is the engine's. *)
Definition onopen : Action :=
  read (fun s =>
    match inputAudioContext s, mediaStream s with
    | Some ctx, Some stream =>
        create (fun node =>
          emit (CreateMediaStreamSource ctx stream node) ;;
          modify (set_sourceNode (Some node))) ;;
        create (fun node =>
          emit (CreateScriptProcessor ctx 4096 1 1 node) ;;
          modify (set_scriptProcessor (Some node))) ;;
        read (fun s =>
          match sourceNode s, scriptProcessor s with
          | Some source, Some processor =>
              emit (NodeConnect source (ToNode processor)) ;;
              emit (NodeConnect processor (ToDestination ctx))
          | _, _ => throw (ErrorObject "TypeError")
          end)
    | _, _ => throw (ErrorObject "TypeError")
    end).

Definition onerror (message : string) : Action :=
  emit (OnError ("Erreur de connexion : " ++ message)%string).

Definition onclose : Action :=
  emit OnClose ;;
  cleanup.

(** ** The service as an event-driven machine *)

Inductive Event :=
| CallStartSession (env : StartEnv)
| CallStopSession
| ConnOpen
| ConnMessage (message : LiveServerMessage) (env : AudioEnv)
| ConnError (message : string)
| ConnClose
| SourceEnded (source : AudioBufferSourceNode).

Definition handle (ev : Event) : Action :=
  match ev with
  | CallStartSession env => startSession env
  | CallStopSession => stopSession
  | ConnOpen => onopen
  | ConnMessage message env => handleServerMessage message env
  | ConnError message => onerror message
  | ConnClose => onclose
  | SourceEnded source => onEnded source
  end.

(** One event is handled to completion before the next; what a handler throws
    is lost to the event loop, its effects up to the throw are not. *)
Fixpoint run (evs : list Event) (s : Service) : Service * list Effect :=
  match evs with
  | [] => (s, [])
  | ev :: rest =>
      let r := handle ev s in
      let '(s', es) := run rest (after r) in
      (s', effects r ++ es)
  end.

(** * Auxiliary definitions

    Closed forms of what the actions do, readers of traces, and the concrete
    messages and sessions used as examples. *)

(** ** [cleanup] in closed form *)

(** What an optional call contributes to the trace. *)
Definition ifPresent {A} (o : option A) (f : A -> list Effect) : list Effect :=
  match o with
  | Some x => f x
  | None => []
  end.

(** The trace of one run of [cleanup], read off the fields it finds. *)
Definition cleanupEffects (s : Service) : list Effect :=
  ifPresent (scriptProcessor s) (fun node => [NodeDisconnect node]) ++
  ifPresent (sourceNode s) (fun node => [NodeDisconnect node]) ++
  ifPresent (mediaStream s) (fun stream => map TrackStop (tracks stream)) ++
  ifPresent (inputAudioContext s) (fun ctx => [ContextClose ctx]) ++
  ifPresent (outputAudioContext s) (fun ctx => [ContextClose ctx]) ++
  map SourceStop (outputSources s).

(** The state one run of [cleanup] leaves. *)
Definition tornDown (s : Service) : Service :=
  {| session := None; sessionPromise := None; mediaStream := None;
     inputAudioContext := None; outputAudioContext := None;
     scriptProcessor := None; sourceNode := None;
     outputSources := [];
     nextStartTime := nextStartTime s;
     currentInputTranscription := currentInputTranscription s;
     currentOutputTranscription := currentOutputTranscription s;
     allocated := allocated s |}.

(** ** The blocks of [handleServerMessage] in closed form *)

Definition returns (r : Result) (s : Service) (es : list Effect) : Prop :=
  r = {| after := s; effects := es; thrown := None |}.

(** Deleting from a set every element of a list. *)
Definition deleteAll (xs set : list AudioBufferSourceNode) : list AudioBufferSourceNode :=
  fold_left (fun acc x => Set_delete x acc) xs set.

(** The buffer a transcription block leaves: the old text, followed by the
    partial text of the message if it carries one for that speaker. *)
Definition appended (buffer : string) (tr : option Transcription) : string :=
  match tr with
  | Some t => (buffer ++ text t)%string
  | None => buffer
  end.

Definition updateFor (speaker : Speaker) (buffer : string) (tr : option Transcription)
  : list Effect :=
  match tr with
  | Some t => [OnTranscriptUpdate (buffer ++ text t)%string false speaker]
  | None => []
  end.

Definition afterInput (m : LiveServerMessage) (s : Service) : Service :=
  match msgInputTranscription m with
  | Some t => set_currentInputTranscription (currentInputTranscription s ++ text t)%string s
  | None => s
  end.

Definition afterOutput (m : LiveServerMessage) (s : Service) : Service :=
  match msgOutputTranscription m with
  | Some t => set_currentOutputTranscription (currentOutputTranscription s ++ text t)%string s
  | None => s
  end.

Definition flushInput (s : Service) : Service :=
  if truthy (currentInputTranscription s)
  then set_currentInputTranscription EmptyString s else s.

Definition flushOutput (s : Service) : Service :=
  if truthy (currentOutputTranscription s)
  then set_currentOutputTranscription EmptyString s else s.

Definition afterTurn (m : LiveServerMessage) (s : Service) : Service :=
  if msgTurnComplete m then flushOutput (flushInput s) else s.

Definition turnEffects (m : LiveServerMessage) (s : Service) : list Effect :=
  if msgTurnComplete m
  then (if truthy (currentInputTranscription s) then [OnTurnComplete Victime] else [])
       ++ (if truthy (currentOutputTranscription s) then [OnTurnComplete IA] else [])
  else [].

Definition afterInterrupted (m : LiveServerMessage) (s : Service) : Service :=
  if msgInterrupted m then set_nextStartTime 0 (set_outputSources [] s) else s.

Definition interruptedEffects (m : LiveServerMessage) (s : Service) : list Effect :=
  if msgInterrupted m then map SourceStop (outputSources s) else [].

(** The chunk a message asks to play: its first part's inline data, when that
    is a non-empty string and the playback context exists. *)
Definition playable (m : LiveServerMessage) (s : Service) : option (string * AudioContext) :=
  match base64Audio m, outputAudioContext s with
  | Some audio, Some ctx => if truthy audio then Some (audio, ctx) else None
  | _, _ => None
  end.

Definition afterAudio (m : LiveServerMessage) (env : AudioEnv) (s : Service) : Service :=
  match playable m s with
  | Some _ =>
      let start := Z.max (nextStartTime s) (currentTime env) in
      set_outputSources (Set_add (allocated s) (outputSources s))
        (set_nextStartTime (start + duration env)
          (set_allocated (S (allocated s)) s))
  | None => s
  end.

Definition audioEffects (m : LiveServerMessage) (env : AudioEnv) (s : Service) : list Effect :=
  match playable m s with
  | Some (audio, ctx) =>
      [ DecodeAudioData audio ctx 24000 1;
        CreateBufferSource ctx (allocated s);
        SourceBuffer (allocated s) (duration env);
        SourceConnect (allocated s) (ToDestination ctx);
        SourceOnEnded (allocated s);
        SourceStart (allocated s) (Z.max (nextStartTime s) (currentTime env)) ]
  | None => []
  end.

(** ** Readers of traces *)

Definition speaker_eqb (a b : Speaker) : bool :=
  match a, b with
  | Victime, Victime | IA, IA => true
  | _, _ => false
  end.

(** The start times passed to [source.start], in order. *)
Definition starts (es : list Effect) : list Z :=
  flat_map (fun e => match e with SourceStart _ t => [t] | _ => [] end) es.

(** The durations of the buffers given to the sources, in order. *)
Definition buffers (es : list Effect) : list Z :=
  flat_map (fun e => match e with SourceBuffer _ d => [d] | _ => [] end) es.

(** The sources on which [stop] was called, in order. *)
Definition stops (es : list Effect) : list AudioBufferSourceNode :=
  flat_map (fun e => match e with SourceStop src => [src] | _ => [] end) es.

(** The [(text, isFinal)] arguments of the [onTranscriptUpdate] calls made for
    one speaker, in order. *)
Definition updates (speaker : Speaker) (es : list Effect) : list (string * bool) :=
  flat_map (fun e =>
    match e with
    | OnTranscriptUpdate t final sp => if speaker_eqb sp speaker then [(t, final)] else []
    | _ => []
    end) es.

(** The number of [onTurnComplete] calls made for one speaker. *)
Definition turnCompletes (speaker : Speaker) (es : list Effect) : nat :=
  List.length (filter (fun e =>
    match e with
    | OnTurnComplete sp => speaker_eqb sp speaker
    | _ => false
    end) es).

(** ** The clock and the live set when the audio block is reached *)

(** The base of the playback clock when the audio block is reached. *)
Definition clockBase (m : LiveServerMessage) (s : Service) : Z :=
  if msgInterrupted m then 0 else nextStartTime s.

Definition liveBase (m : LiveServerMessage) (s : Service) : list AudioBufferSourceNode :=
  if msgInterrupted m then [] else outputSources s.

Definition plays (m : LiveServerMessage) (s : Service) : bool :=
  match playable m s with Some _ => true | None => false end.

(** ** A failed start in closed form *)

(** A failed start: the calls made so far, the error report, one teardown. *)
Definition failedStart (error : Thrown) (calls : list Effect) (s : Service) : Result :=
  {| after := tornDown s;
     effects := calls ++ OnError (startErrorMessage error) :: cleanupEffects s;
     thrown := None |}.

(** ** Concrete messages and sessions *)

Definition micStream : MediaStream := {| streamId := 1; tracks := [7%nat] |}.

Definition grantedEnv : StartEnv :=
  {| userMedia := Resolved micStream; inputContextError := None;
     outputContextError := None; connection := Resolved 42%nat |}.

Definition deniedEnv : StartEnv :=
  {| userMedia := Rejected (ErrorObject "Permission denied");
     inputContextError := None; outputContextError := None;
     connection := Resolved 42%nat |}.

(** A message that carries one audio chunk and nothing else. *)
Definition audioMessage (audio : string) : LiveServerMessage :=
  {| serverContent := Some
       {| inputTranscription := None; outputTranscription := None;
          turnComplete := false; interrupted := false;
          modelTurn := Some {| parts := [ {| inlineData := Some {| data := Some audio |} |} ] |} |} |}.

(** A message that carries one partial transcript of the human speaker. *)
Definition inputMessage (t : string) : LiveServerMessage :=
  {| serverContent := Some
       {| inputTranscription := Some {| text := t |}; outputTranscription := None;
          turnComplete := false; interrupted := false; modelTurn := None |} |}.

Definition outputMessage (t : string) : LiveServerMessage :=
  {| serverContent := Some
       {| inputTranscription := None; outputTranscription := Some {| text := t |};
          turnComplete := false; interrupted := false; modelTurn := None |} |}.

Definition turnCompleteMessage : LiveServerMessage :=
  {| serverContent := Some
       {| inputTranscription := None; outputTranscription := None;
          turnComplete := true; interrupted := false; modelTurn := None |} |}.

Definition interruptedMessage : LiveServerMessage :=
  {| serverContent := Some
       {| inputTranscription := None; outputTranscription := None;
          turnComplete := false; interrupted := true; modelTurn := None |} |}.

Definition at_ (t d : Z) : AudioEnv := {| currentTime := t; duration := d |}.

(** A session that was started, opened, heard the human say a word and has
    two chunks of the answer scheduled (2 and 3 time units, at 0 and 2). *)
Definition liveSession : Service :=
  fst (run [ CallStartSession grantedEnv; ConnOpen;
             ConnMessage (inputMessage "Bonjour") (at_ 0 0);
             ConnMessage (audioMessage "UklGRg==") (at_ 0 2);
             ConnMessage (audioMessage "AAAAAA==") (at_ 1 3) ] newService).

(** ** Effects by kind *)

Inductive Kind := Callback | Setup | Wiring | Release | Playback.

Definition kind (e : Effect) : Kind :=
  match e with
  | OnTranscriptUpdate _ _ _ | OnTurnComplete _ | OnError _ | OnClose => Callback
  | GetUserMedia _ | NewAudioContext _ | LiveConnect _ _ _ => Setup
  | CreateMediaStreamSource _ _ _ | CreateScriptProcessor _ _ _ _ _
  | NodeConnect _ _ => Wiring
  | SessionClose _ | NodeDisconnect _ | TrackStop _ | ContextClose _ => Release
  | DecodeAudioData _ _ _ _ | CreateBufferSource _ _ | SourceBuffer _ _
  | SourceConnect _ _ | SourceOnEnded _ | SourceStart _ _ | SourceStop _ => Playback
  end.

Definition kind_eqb (a b : Kind) : bool :=
  match a, b with
  | Callback, Callback | Setup, Setup | Wiring, Wiring
  | Release, Release | Playback, Playback => true
  | _, _ => false
  end.

(** The effects of one kind, in order. *)
Definition ofKind (k : Kind) (es : list Effect) : list Effect :=
  filter (fun e => kind_eqb (kind e) k) es.

(** ** The setup sequence of [startSession] *)

(** How many of the four setup calls a run of [startSession] reaches. *)
Definition setupReached (env : StartEnv) : nat :=
  match userMedia env, inputContextError env, outputContextError env with
  | Rejected _, _, _ => 1
  | Resolved _, Some _, _ => 1
  | Resolved _, None, Some _ => 2
  | Resolved _, None, None => 4
  end.

(** The four setup calls, in source order, for a service that has created
    [n] objects so far. *)
Definition setupSequence (n : nat) : list Effect :=
  [ GetUserMedia true;
    NewAudioContext {| contextId := n; sampleRate := 16000 |};
    NewAudioContext {| contextId := S n; sampleRate := 24000 |};
    LiveConnect liveModel liveConfig (S (S n)) ].

Definition granted (stream : MediaStream) (sess : Session) : StartEnv :=
  {| userMedia := Resolved stream; inputContextError := None;
     outputContextError := None; connection := Resolved sess |}.

Definition isConnOpen (ev : Event) : bool :=
  match ev with ConnOpen => true | _ => false end.

(** ** Inbound sequences, durations and schedules *)

Definition Inbound := (LiveServerMessage * AudioEnv)%type.

Definition inbound (msgs : list Inbound) : list Event :=
  map (fun p => ConnMessage (fst p) (snd p)) msgs.

(** The message carries a chunk: a non-empty [data] string in its first part. *)
Definition hasAudio (m : LiveServerMessage) : bool :=
  match base64Audio m with
  | Some audio => truthy audio
  | None => false
  end.

Definition sumZ (ds : list Z) : Z := fold_right Z.add 0 ds.

(** [offsets [d1; ...; dN]] is [[0; d1; d1 + d2; ...]]: entry [i] (from 0) is
    the sum of the first [i] durations. *)
Definition offsets (ds : list Z) : list Z :=
  map (fun i => sumZ (firstn i ds)) (seq 0 (List.length ds)).

(** Playback units as (start, duration); unit [u] ends where it started plus
    its duration.  No unit starts before an earlier one has ended. *)
Definition endsBefore (u v : Z * Z) : Prop := fst u + snd u <= fst v.

Definition nonOverlapping (units : list (Z * Z)) : Prop :=
  ForallOrdPairs endsBefore units.

Fixpoint offsetsFrom (t : Z) (ds : list Z) : list Z :=
  match ds with
  | [] => []
  | d :: rest => t :: offsetsFrom (t + d) rest
  end.

Definition isChunk (p : Inbound) : Prop :=
  hasAudio (fst p) = true /\ msgInterrupted (fst p) = false /\ 0 <= duration (snd p).

Definition durations (chunks : list Inbound) : list Z :=
  map (fun p => duration (snd p)) chunks.

Definition notPast (p : Inbound) (scheduledEnd : Z) : Prop :=
  currentTime (snd p) <= scheduledEnd.

(** The schedule in general: each chunk starts at the later of the clock and
    the end of the previous chunk. *)
Fixpoint schedule (t : Z) (chunks : list Inbound) : list Z :=
  match chunks with
  | [] => []
  | p :: rest =>
      let start := Z.max t (currentTime (snd p)) in
      start :: schedule (start + duration (snd p)) rest
  end.

Definition startedSession : Service := after (startSession grantedEnv newService).

Definition twoChunks : list Inbound :=
  [ (audioMessage "UklGRg==", at_ 0 2); (audioMessage "AAAAAA==", at_ 1 3) ].

(** ** The handler up to its audio block *)

(** The handler up to the end of the interruption branch. *)
Definition upToInterruption (message : LiveServerMessage) : Action :=
  inputTranscriptionBlock message ;;
  outputTranscriptionBlock message ;;
  turnCompleteBlock message ;;
  interruptedBlock message.

(** ** Buffers and partial texts by speaker *)

(** The transcript buffer of a speaker, and the partial transcript a message
    carries for that speaker. *)
Definition buffer (sp : Speaker) (s : Service) : string :=
  match sp with
  | Victime => currentInputTranscription s
  | IA => currentOutputTranscription s
  end.

Definition partialOf (sp : Speaker) (m : LiveServerMessage) : option Transcription :=
  match sp with
  | Victime => msgInputTranscription m
  | IA => msgOutputTranscription m
  end.

(** The partial texts a sequence of messages carries for a speaker. *)
Definition partials (sp : Speaker) (msgs : list Inbound) : list string :=
  flat_map (fun p =>
    match partialOf sp (fst p) with
    | Some t => [text t]
    | None => []
    end) msgs.

(** Concatenation of a list of texts. *)
Definition joined (texts : list string) : string :=
  fold_right String.append EmptyString texts.

(** * Further definitions: failures of a start, the live set, teardown *)

(** The sources on which [start] was called, in order. *)
Definition startedSources (es : list Effect) : list AudioBufferSourceNode :=
  flat_map (fun e => match e with SourceStart src _ => [src] | _ => [] end) es.

(** The first step of [startSession] that fails, with what it throws:
    the microphone, the 16 kHz context, the 24 kHz context, the connection. *)
Definition firstFailure (env : StartEnv) : option Thrown :=
  match userMedia env with
  | Rejected e => Some e
  | Resolved _ =>
      match inputContextError env with
      | Some e => Some e
      | None =>
          match outputContextError env with
          | Some e => Some e
          | None =>
              match connection env with
              | Rejected e => Some e
              | Resolved _ => None
              end
          end
      end
  end.

(** The seven nullable handles of the class. *)
Definition handles (s : Service) :=
  (session s, sessionPromise s, mediaStream s, inputAudioContext s,
   outputAudioContext s, scriptProcessor s, sourceNode s).

(** Every handle is null and the live set is empty. *)
Definition released (s : Service) : bool :=
  match handles s, outputSources s with
  | (None, None, None, None, None, None, None), [] => true
  | _, _ => false
  end.

Definition isCallStartSession (ev : Event) : bool :=
  match ev with CallStartSession _ => true | _ => false end.

Definition isConnMessage (ev : Event) : bool :=
  match ev with ConnMessage _ _ => true | _ => false end.

(** What handling one event can do to the live set: leave it, stop and clear
    it, drop an ended source, add a newly started source, or stop and clear it
    and then add a newly started source. *)
Inductive LiveStep (ev : Event) (s s' : Service) (es : list Effect) : Prop :=
| LiveKeep :
    outputSources s' = outputSources s ->
    stops es = [] -> startedSources es = [] ->
    (allocated s <= allocated s')%nat ->
    LiveStep ev s s' es
| LiveClear :
    outputSources s' = [] ->
    stops es = outputSources s -> startedSources es = [] ->
    (allocated s <= allocated s')%nat ->
    LiveStep ev s s' es
| LiveEnded (source : AudioBufferSourceNode) :
    ev = SourceEnded source ->
    outputSources s' = Set_delete source (outputSources s) ->
    stops es = [] -> startedSources es = [] ->
    allocated s' = allocated s ->
    LiveStep ev s s' es
| LiveStart :
    outputSources s' = Set_add (allocated s) (outputSources s) ->
    stops es = [] -> startedSources es = [allocated s] ->
    allocated s' = S (allocated s) ->
    LiveStep ev s s' es
| LiveClearStart :
    outputSources s' = [allocated s] ->
    stops es = outputSources s -> startedSources es = [allocated s] ->
    allocated s' = S (allocated s) ->
    LiveStep ev s s' es.

(** The live set is a set of sources that exist, were started and were not
    stopped; [past] is the trace so far. *)
Definition liveInvariant (s : Service) (past : list Effect) : Prop :=
  NoDup (outputSources s) /\
  Forall (fun x => (x < allocated s)%nat) (outputSources s) /\
  Forall (fun x => (x < allocated s)%nat) (stops past) /\
  Forall (fun x => In x (startedSources past) /\ ~ In x (stops past)) (outputSources s).

(** A message that neither interrupts nor carries a negative duration. *)
Definition isSteady (p : Inbound) : Prop :=
  msgInterrupted (fst p) = false /\ 0 <= duration (snd p).

(** The messages of a sequence that carry a chunk. *)
Definition chunksOf (msgs : list Inbound) : list Inbound :=
  filter (fun p => hasAudio (fst p)) msgs.

(** Playback units read off a trace: each start time with the duration of
    the buffer given to that source. *)
Definition units (es : list Effect) : list (Z * Z) :=
  combine (starts es) (buffers es).

(** The events that lead to [liveSession]. *)
Definition liveEvents : list Event :=
  [ CallStartSession grantedEnv; ConnOpen;
    ConnMessage (inputMessage "Bonjour") (at_ 0 0);
    ConnMessage (audioMessage "UklGRg==") (at_ 0 2);
    ConnMessage (audioMessage "AAAAAA==") (at_ 1 3) ].

(** Three messages: a chunk, a partial transcript, a chunk that arrives after
    the first one has finished playing. *)
Definition jitterMessages : list Inbound :=
  [ (audioMessage "UklGRg==", at_ 0 2); (inputMessage "Oui", at_ 1 0);
    (audioMessage "AAAAAA==", at_ 5 3) ].

(** * The constructor of the service *)

(** [new GeminiLiveService()]: it throws unless [process.env.API_KEY] is a
    non-empty string. *)
Definition newGeminiLiveService (apiKey : option string) : Outcome Service :=
  match apiKey with
  | Some key =>
      if truthy key then Resolved newService
      else Rejected (ErrorObject "API_KEY environment variable not set.")
  | None => Rejected (ErrorObject "API_KEY environment variable not set.")
  end.

(** * The caller: the [App] component of [src/App.tsx]

    The component is a record of its state variables and refs.  The state
    updaters run in the order in which the handlers call them.  [Date.now()]
    is read from a clock that the environment supplies. *)

Inductive SessionState := idle | active | finished.

Module Entry.
Record TranscriptEntry := {
  id : Z;
  speaker : Speaker;
  text : string;
  isFinal : bool
}.
End Entry.

Record App := {
  sessionState : SessionState;
  status : string;
  transcripts : list Entry.TranscriptEntry;
  serviceRef : option Service;
  caseIdRef : option string
}.

Definition initialStatus : string :=
  "Cliquez sur le microphone pour commencer votre déposition.".

Definition initialApp : App :=
  {| sessionState := idle; status := initialStatus; transcripts := [];
     serviceRef := None; caseIdRef := None |}.

Definition setSessionState v a :=
  {| sessionState := v; status := status a; transcripts := transcripts a;
     serviceRef := serviceRef a; caseIdRef := caseIdRef a |}.

Definition setStatus v a :=
  {| sessionState := sessionState a; status := v; transcripts := transcripts a;
     serviceRef := serviceRef a; caseIdRef := caseIdRef a |}.

Definition setTranscripts v a :=
  {| sessionState := sessionState a; status := status a; transcripts := v;
     serviceRef := serviceRef a; caseIdRef := caseIdRef a |}.

Definition set_serviceRef v a :=
  {| sessionState := sessionState a; status := status a; transcripts := transcripts a;
     serviceRef := v; caseIdRef := caseIdRef a |}.

Definition set_caseIdRef v a :=
  {| sessionState := sessionState a; status := status a; transcripts := transcripts a;
     serviceRef := serviceRef a; caseIdRef := v |}.

(** [prev[prev.length - 1]] *)
Definition lastEntry (prev : list Entry.TranscriptEntry) : option Entry.TranscriptEntry :=
  nth_error prev (List.length prev - 1).

(** The updater of the [onTranscriptUpdate] callback. *)
Definition onTranscriptUpdate (now : Z) (text : string) (isFinal : bool)
    (speaker : Speaker) (prev : list Entry.TranscriptEntry)
  : list Entry.TranscriptEntry :=
  match lastEntry prev with
  | Some last =>
      if negb (Entry.isFinal last) && speaker_eqb (Entry.speaker last) speaker
      then
        let updatedEntry :=
          {| Entry.id := Entry.id last; Entry.speaker := Entry.speaker last;
             Entry.text := text; Entry.isFinal := isFinal |} in
        removelast prev ++ [updatedEntry]
      else
        prev ++ [ {| Entry.id := now; Entry.speaker := speaker;
                     Entry.text := text; Entry.isFinal := isFinal |} ]
  | None =>
      prev ++ [ {| Entry.id := now; Entry.speaker := speaker;
                   Entry.text := text; Entry.isFinal := isFinal |} ]
  end.

(** The updater of the [onTurnComplete] callback. *)
Definition onTurnComplete (speaker : Speaker) (prev : list Entry.TranscriptEntry)
  : list Entry.TranscriptEntry :=
  map (fun t =>
    if speaker_eqb (Entry.speaker t) speaker && negb (Entry.isFinal t)
    then {| Entry.id := Entry.id t; Entry.speaker := Entry.speaker t;
            Entry.text := Entry.text t; Entry.isFinal := true |}
    else t) prev.

Definition closedStatus : string :=
  "Déposition terminée. Vous pouvez maintenant générer le rapport.".

Definition startingStatus : string :=
  "Initialisation de la connexion sécurisée...".

Definition listeningStatus : string :=
  "Je vous écoute. Prenez votre temps pour raconter ce qui s'est passé.".

Definition stoppingStatus : string := "Fin de la session en cours...".

(** One call of one of the four callbacks that [handleStart] passes to the
    service; the other effects of the service do not reach the component. *)
Definition deliver (now : Z) (e : Effect) (a : App) : App :=
  match e with
  | OnTranscriptUpdate text isFinal speaker =>
      setTranscripts (onTranscriptUpdate now text isFinal speaker (transcripts a)) a
  | OnTurnComplete speaker =>
      setTranscripts (onTurnComplete speaker (transcripts a)) a
  | OnError error =>
      setSessionState idle (setStatus ("Erreur: " ++ error)%string a)
  | OnClose =>
      setSessionState finished (setStatus closedStatus a)
  | _ => a
  end.

(** The effects of a handler, delivered in order; effect [i] of the list reads
    [clock i] if it reads the time. *)
Fixpoint deliverAll (clock : nat -> Z) (es : list Effect) (a : App) : App :=
  match es with
  | [] => a
  | e :: rest => deliverAll (fun i => clock (S i)) rest (deliver (clock 0%nat) e a)
  end.

(** What the environment decides during one run of [handleStart]. *)
Record StartRequest := {
  apiKey : option string;
  caseId : string;
  startEnv : StartEnv;
  startClock : nat -> Z
}.

Definition handleStart (req : StartRequest) (a : App) : App * list Effect :=
  match sessionState a with
  | active => (a, [])
  | _ =>
      let a1 :=
        setSessionState active
          (setStatus startingStatus
            (setTranscripts [] (set_caseIdRef (Some (caseId req)) a))) in
      match newGeminiLiveService (apiKey req) with
      | Rejected _ => (a1, [])
      | Resolved service =>
          let r := startSession (startEnv req) service in
          let a2 := deliverAll (startClock req) (effects r)
                      (set_serviceRef (Some (after r)) a1) in
          let a3 := match sessionState a2 with
                    | active => setStatus listeningStatus a2
                    | _ => a2
                    end in
          (a3, effects r)
      end
  end.

Definition handleStop (a : App) : App * list Effect :=
  match sessionState a, serviceRef a with
  | active, Some service =>
      let r := stopSession service in
      (setStatus stoppingStatus (set_serviceRef (Some (after r)) a), effects r)
  | _, _ => (a, [])
  end.

Definition handleNewSession (a : App) : App :=
  set_caseIdRef None
    (setSessionState idle (setStatus initialStatus (setTranscripts [] a))).

(** An event of the connection or of a source of the service the component
    holds: the service handles it and its callbacks update the component. *)
Definition serviceEvent (ev : Event) (clock : nat -> Z) (a : App) : App * list Effect :=
  match serviceRef a with
  | Some service =>
      let r := handle ev service in
      (deliverAll clock (effects r) (set_serviceRef (Some (after r)) a), effects r)
  | None => (a, [])
  end.

(** The buttons the footer renders, by session state. *)
Inductive Button := StartButton | StopButton | SendButton | PdfButton | NewSessionButton.

Definition rendered (st : SessionState) : list Button :=
  match st with
  | idle => [StartButton]
  | active => [StopButton]
  | finished => [SendButton; PdfButton; NewSessionButton]
  end.

(** The rows of the table of the PDF report. *)
Definition tableBody (ts : list Entry.TranscriptEntry) : list (Speaker * string) :=
  map (fun entry => (Entry.speaker entry, Entry.text entry)) ts.

(** The entry is still being spoken by that speaker. *)
Definition pendingFor (speaker : Speaker) (t : Entry.TranscriptEntry) : bool :=
  speaker_eqb (Entry.speaker t) speaker && negb (Entry.isFinal t).

(** A message that carries one partial transcript of the given speaker. *)
Definition partialMessage (sp : Speaker) (t : string) : LiveServerMessage :=
  match sp with
  | Victime => inputMessage t
  | IA => outputMessage t
  end.

Definition spoken (sp : Speaker) (texts : list string) : list Inbound :=
  map (fun t => (partialMessage sp t, at_ 0 0)) texts.

(** The entry an update writes when it does not continue the last one. *)
Definition newEntry (now : Z) (text : string) (isFinal : bool) (speaker : Speaker)
  : Entry.TranscriptEntry :=
  {| Entry.id := now; Entry.speaker := speaker; Entry.text := text;
     Entry.isFinal := isFinal |}.

(** The last entry, rewritten by an update that continues it. *)
Definition rewritten (last : Entry.TranscriptEntry) (text : string) (isFinal : bool)
  : Entry.TranscriptEntry :=
  {| Entry.id := Entry.id last; Entry.speaker := Entry.speaker last;
     Entry.text := text; Entry.isFinal := isFinal |}.

(** A transcript on screen and a list of callbacks, for the examples. *)
Definition shownTranscript : list Entry.TranscriptEntry :=
  [ newEntry 10 "Bonjour" true IA; newEntry 20 "J'ai" false Victime ].

Definition laterCallbacks : list Effect :=
  [ OnTranscriptUpdate "J'ai peur" false Victime; OnTurnComplete Victime;
    OnTranscriptUpdate "Je" false IA; OnClose ].

(** The updates the service makes for partial texts received with buffer [b]:
    each carries the buffer so far. *)
Fixpoint partialEffects (sp : Speaker) (b : string) (texts : list string) : list Effect :=
  match texts with
  | [] => []
  | t :: rest =>
      OnTranscriptUpdate (b ++ t)%string false sp :: partialEffects sp (b ++ t)%string rest
  end.

(** A request to start with a usable API key. *)
Definition startRequest (env : StartEnv) : StartRequest :=
  {| apiKey := Some "secret"; caseId := "CASE-1-ABCDEF"; startEnv := env;
     startClock := fun i => 1000 + Z.of_nat i |}.

(** The click on a button of the footer; a button that is not rendered
    cannot be clicked. *)
Inductive Click :=
| ClickStart (req : StartRequest)
| ClickStop
| ClickNewSession.

Definition click (c : Click) (a : App) : App * list Effect :=
  match c, sessionState a with
  | ClickStart req, idle => handleStart req a
  | ClickStop, active => handleStop a
  | ClickNewSession, finished => (handleNewSession a, [])
  | _, _ => (a, [])
  end.

Fixpoint clicks (cs : list Click) (a : App) : App * list Effect :=
  match cs with
  | [] => (a, [])
  | c :: rest =>
      let '(a1, es1) := click c a in
      let '(a2, es2) := clicks rest a1 in
      (a2, es1 ++ es2)
  end.

(** * The handlers between their awaits

    [handleServerMessage] suspends at [await decodeAudioData(...)] and
    [startSession] at [await getUserMedia(...)] and at
    [await this.sessionPromise]; other handlers can run while they wait.
    The pieces below are the stretches of code between those points.  The
    actions [handleServerMessage] and [startSession] above are the runs in
    which nothing else happens in between. *)

(** The audio block up to [await decodeAudioData(...)]: the guard, the clock
    taken as [max], the call of the decoder. *)
Definition audioBegin (message : LiveServerMessage) (env : AudioEnv) : Action :=
  whenSome (base64Audio message) (fun audio =>
    when (truthy audio) (
      read (fun s => whenSome (outputAudioContext s) (fun ctx =>
        modify (fun s => set_nextStartTime (Z.max (nextStartTime s) (currentTime env)) s) ;;
        emit (DecodeAudioData audio ctx 24000 1))))).

(** [handleServerMessage] up to its await.  It suspends there exactly when
    the decoder was called; [afterDecode] is what it does when it resumes. *)
Definition beforeDecode (message : LiveServerMessage) (env : AudioEnv) : Action :=
  inputTranscriptionBlock message ;;
  outputTranscriptionBlock message ;;
  turnCompleteBlock message ;;
  interruptedBlock message ;;
  audioBegin message env.

(** The [catch] block of [startSession]. *)
Definition catchBlock (error : Thrown) : Action :=
  emit (OnError (startErrorMessage error)) ;;
  cleanup.

(** [startSession] up to [await getUserMedia(...)]. *)
Definition startCall : Action :=
  emit (GetUserMedia true).

(** [startSession] from the settling of [getUserMedia] to
    [await this.sessionPromise], inside the [try]. *)
Definition startAfterMedia (env : StartEnv) : Action :=
  tryCatch
    (await (userMedia env) (fun stream => modify (set_mediaStream (Some stream))) ;;
     newAudioContext 16000 (inputContextError env) (fun ctx =>
       modify (set_inputAudioContext (Some ctx))) ;;
     newAudioContext 24000 (outputContextError env) (fun ctx =>
       modify (set_outputAudioContext (Some ctx))) ;;
     create (fun promise =>
       emit (LiveConnect liveModel liveConfig promise) ;;
       modify (set_sessionPromise (Some promise))))
    catchBlock.

(** [startSession] from the settling of the session promise to its end. *)
Definition startAfterConnect (env : StartEnv) : Action :=
  tryCatch
    (await (connection env) (fun sess => modify (set_session (Some sess))))
    catchBlock.

(** The run reaches [await this.sessionPromise]. *)
Definition reachesConnect (env : StartEnv) : bool :=
  match userMedia env, inputContextError env, outputContextError env with
  | Resolved _, None, None => true
  | _, _, _ => false
  end.

(** One uninterrupted stretch of code: a whole handler, or a piece of one of
    the two asynchronous handlers.  [MessageArrives] is the handler of a
    message up to its await; of its environment it reads the output clock.
    [DecodeCompletes] resumes a handler that an earlier [MessageArrives] left
    suspended; it reads the duration of the decoded buffer.  [StartCalled],
    [MediaSettles] and [ConnectionSettles] are the three pieces of one
    [startSession] call, in that order; the last one runs only if the second
    reached the await. *)
Inductive Step :=
| Whole (ev : Event)
| MessageArrives (message : LiveServerMessage) (env : AudioEnv)
| DecodeCompletes (env : AudioEnv)
| StartCalled
| MediaSettles (env : StartEnv)
| ConnectionSettles (env : StartEnv).

Definition perform (st : Step) : Action :=
  match st with
  | Whole ev => handle ev
  | MessageArrives message env => beforeDecode message env
  | DecodeCompletes env => afterDecode env
  | StartCalled => startCall
  | MediaSettles env => startAfterMedia env
  | ConnectionSettles env => startAfterConnect env
  end.

Fixpoint runSteps (sts : list Step) (s : Service) : Service * list Effect :=
  match sts with
  | [] => (s, [])
  | st :: rest =>
      let r := perform st s in
      let '(s', es) := runSteps rest (after r) in
      (s', effects r ++ es)
  end.

(** The step belongs to a call of [startSession]. *)
Definition isStartStep (st : Step) : bool :=
  match st with
  | Whole (CallStartSession _) | StartCalled | MediaSettles _ | ConnectionSettles _ => true
  | _ => false
  end.

(** ** What the transcript aggregation is to report

    For a speaker and a buffer: each partial text is appended to the buffer
    and the buffer is reported with [isFinal = false]; a turn-complete
    message leaves the buffer empty. *)

Definition nextBuffer (sp : Speaker) (b : string) (m : LiveServerMessage) : string :=
  if msgTurnComplete m then EmptyString else appended b (partialOf sp m).

Fixpoint transcriptBuffer (sp : Speaker) (b : string) (msgs : list Inbound) : string :=
  match msgs with
  | [] => b
  | p :: rest => transcriptBuffer sp (nextBuffer sp b (fst p)) rest
  end.

Fixpoint transcriptUpdates (sp : Speaker) (b : string) (msgs : list Inbound)
  : list (string * bool) :=
  match msgs with
  | [] => []
  | p :: rest =>
      match partialOf sp (fst p) with
      | Some t => [((b ++ text t)%string, false)]
      | None => []
      end ++ transcriptUpdates sp (nextBuffer sp b (fst p)) rest
  end.

(** ** The pieces in closed form *)

(** The state and the trace [audioBegin] leaves. *)
Definition afterBegin (m : LiveServerMessage) (env : AudioEnv) (s : Service) : Service :=
  if plays m s
  then set_nextStartTime (Z.max (nextStartTime s) (currentTime env)) s
  else s.

Definition beginEffects (m : LiveServerMessage) (s : Service) : list Effect :=
  match playable m s with
  | Some (audio, ctx) => [DecodeAudioData audio ctx 24000 1]
  | None => []
  end.

(** The state and the trace [afterDecode] leaves when the playback context
    is [ctx]. *)
Definition afterResume (env : AudioEnv) (s : Service) : Service :=
  set_outputSources (Set_add (allocated s) (outputSources s))
    (set_nextStartTime (nextStartTime s + duration env)
      (set_allocated (S (allocated s)) s)).

Definition resumeEffects (ctx : AudioContext) (env : AudioEnv) (s : Service)
  : list Effect :=
  [ CreateBufferSource ctx (allocated s);
    SourceBuffer (allocated s) (duration env);
    SourceConnect (allocated s) (ToDestination ctx);
    SourceOnEnded (allocated s);
    SourceStart (allocated s) (nextStartTime s) ].

(** ** Schedules of steps *)

(** Messages handled in turn: the decode of each chunk completes before the
    next message arrives. *)
Definition inTurn (msgs : list Inbound) : list Step :=
  flat_map (fun p =>
    MessageArrives (fst p) (snd p)
    :: (if hasAudio (fst p) then [DecodeCompletes (snd p)] else [])) msgs.

(** The messages that arrive in a list of steps, in order. *)
Definition messagesOf (sts : list Step) : list Inbound :=
  flat_map (fun st =>
    match st with
    | Whole (ConnMessage m env) => [(m, env)]
    | MessageArrives m env => [(m, env)]
    | _ => []
    end) sts.

(** Steps of playback with no interruption: a chunk arrives, a decode
    completes, or a chunk is handled in one piece. *)
Definition chunkStep (st : Step) : Prop :=
  match st with
  | Whole (ConnMessage m env) => isChunk (m, env)
  | MessageArrives m env => hasAudio m = true /\ msgInterrupted m = false
  | DecodeCompletes env => 0 <= duration env
  | _ => False
  end.

(** The durations of the buffers whose decode completes, in that order. *)
Definition decoded (sts : list Step) : list Z :=
  flat_map (fun st =>
    match st with
    | Whole (ConnMessage m env) => [duration env]
    | DecodeCompletes env => [duration env]
    | _ => []
    end) sts.

(** The output clock is never ahead of the schedule: whenever a chunk
    arrives, [currentTime] is at most the time [t] up to which units have
    been scheduled, which each completed decode extends by its duration. *)
Fixpoint onSchedule (t : Z) (sts : list Step) : Prop :=
  match sts with
  | [] => True
  | st :: rest =>
      match st with
      | Whole (ConnMessage m env) =>
          currentTime env <= t /\ onSchedule (t + duration env) rest
      | MessageArrives m env => currentTime env <= t /\ onSchedule t rest
      | DecodeCompletes env => onSchedule (t + duration env) rest
      | _ => onSchedule t rest
      end
  end.

(** ** Concrete schedules *)

(** What follows the arrival of a first chunk at clock 3: a second chunk
    arrives at once, the two decodes complete in order, and a third chunk is
    handled in one piece at clock 7. *)
Definition steadySteps : list Step :=
  [ MessageArrives (audioMessage "AAAAAA==") (at_ 3 3);
    DecodeCompletes (at_ 3 2);
    DecodeCompletes (at_ 3 3);
    Whole (ConnMessage (audioMessage "UklGRg==") (at_ 7 1)) ].

(** The chunks of [twoChunks], the second arriving at clock 1 while the
    first is still being decoded. *)
Definition overtakenChunks : list Step :=
  [ MessageArrives (audioMessage "UklGRg==") (at_ 0 2);
    MessageArrives (audioMessage "AAAAAA==") (at_ 1 3);
    DecodeCompletes (at_ 0 2);
    DecodeCompletes (at_ 1 3) ].

(** A session that plays [twoChunks], is stopped and closed, and is started
    again on the same service, where it plays [twoChunks] again; the clock
    of the new playback context starts at 0. *)
Definition restartedSession : list Event :=
  CallStartSession grantedEnv :: inbound twoChunks
  ++ [CallStopSession; ConnClose; CallStartSession grantedEnv]
  ++ inbound twoChunks.

(** On [liveSession], at clock 1, while its first unit plays: a third chunk
    arrives, the interruption arrives while that chunk is being decoded, then
    the decode completes. *)
Definition bargeInDuringDecode : list Step :=
  [ MessageArrives (audioMessage "UklGRg==") (at_ 1 2);
    Whole (ConnMessage interruptedMessage (at_ 1 0));
    DecodeCompletes (at_ 1 2) ].

(** [stopSession] is called while [getUserMedia] of a [startSession] call is
    pending; the microphone is then granted and the session connects. *)
Definition stopDuringStart : list Step :=
  [ StartCalled;
    Whole CallStopSession;
    MediaSettles grantedEnv;
    ConnectionSettles grantedEnv;
    Whole ConnOpen;
    Whole (ConnMessage (audioMessage "UklGRg==") (at_ 0 2)) ].

(** After [stopSession] on [liveSession]: a partial transcript, the late
    completion of a decode, another partial transcript, the close signal and
    a turn-complete message. *)
Definition afterStopSteps : list Step :=
  [ MessageArrives (inputMessage " monsieur") (at_ 9 0);
    DecodeCompletes (at_ 9 2);
    Whole (ConnMessage (inputMessage " le juge") (at_ 9 0));
    Whole ConnClose;
    Whole (ConnMessage turnCompleteMessage (at_ 9 0)) ].

(** * Properties *)

(** ** Generic facts about actions *)

Lemma forEach_emit (A : Type) (f : A -> Effect) (xs : list A) (s : Service) :
  forEach xs (fun x s' => {| after := s'; effects := [f x]; thrown := None |}) s
  = {| after := s; effects := map f xs; thrown := None |}.
Proof.
  induction xs as [|x xs IH]; [reflexivity|].
  cbn [forEach]. unfold andThen at 1. rewrite IH. reflexivity.
Qed.

Lemma cleanup_run (s : Service) :
  cleanup s = {| after := tornDown s; effects := cleanupEffects s; thrown := None |}.
Proof.
  destruct s as [se sp ms ic oc pr sn os nst cit cot al].
  unfold cleanup, cleanupEffects, tornDown, andThen, read, whenSome, modify, emit, ifPresent.
  destruct pr, sn, ms, ic, oc; cbn;
    repeat (rewrite forEach_emit; cbn); rewrite ?app_nil_r; reflexivity.
Qed.

(** ** The blocks of [handleServerMessage], one at a time *)

Lemma andThen_returns (a b : Action) (s s1 s2 : Service) (es1 es2 : list Effect) :
  returns (a s) s1 es1 -> returns (b s1) s2 es2 ->
  returns ((a ;; b) s) s2 (es1 ++ es2).
Proof.
  unfold returns, andThen. intros -> ->. reflexivity.
Qed.

Lemma set_outputSources_same (s : Service) :
  set_outputSources (outputSources s) s = s.
Proof. destruct s; reflexivity. Qed.

Lemma interruptLoop_returns (pending : list AudioBufferSourceNode) (s : Service) :
  returns (interruptLoop pending s)
          (set_outputSources (deleteAll pending (outputSources s)) s)
          (map SourceStop pending).
Proof.
  revert s. induction pending as [|x rest IH]; intros s.
  - unfold returns. cbn. now rewrite set_outputSources_same.
  - cbn [interruptLoop map].
    change (SourceStop x :: map SourceStop rest)
      with ([SourceStop x] ++ ([] ++ map SourceStop rest)).
    eapply andThen_returns; [reflexivity|].
    eapply andThen_returns; [reflexivity|].
    specialize (IH (set_outputSources (Set_delete x (outputSources s)) s)).
    exact IH.
Qed.

Lemma Set_delete_nil (x : AudioBufferSourceNode) : Set_delete x [] = [].
Proof. reflexivity. Qed.

Lemma deleteAll_nil (xs : list AudioBufferSourceNode) : deleteAll xs [] = [].
Proof. induction xs; cbn; auto. Qed.

Lemma Set_delete_comm (x y : AudioBufferSourceNode) (l : list AudioBufferSourceNode) :
  Set_delete x (Set_delete y l) = Set_delete y (Set_delete x l).
Proof.
  unfold Set_delete. induction l as [|z l IH]; cbn; [reflexivity|].
  destruct (Nat.eqb z y) eqn:Hy, (Nat.eqb z x) eqn:Hx; cbn;
    rewrite ?Hx, ?Hy; cbn; rewrite IH; reflexivity.
Qed.

Lemma deleteAll_Set_delete (xs : list AudioBufferSourceNode) x l :
  deleteAll xs (Set_delete x l) = Set_delete x (deleteAll xs l).
Proof.
  revert l. induction xs as [|y xs IH]; intros l; cbn; [reflexivity|].
  rewrite Set_delete_comm. apply IH.
Qed.

Lemma deleteAll_cons_head (xs : list AudioBufferSourceNode) x l :
  deleteAll (x :: xs) (x :: l) = deleteAll (x :: xs) l.
Proof.
  cbn. unfold Set_delete at 1 3. cbn. rewrite Nat.eqb_refl. reflexivity.
Qed.

(** Walking a set and deleting each visited element empties it. *)
Lemma deleteAll_self (l : list AudioBufferSourceNode) : deleteAll l l = [].
Proof.
  induction l as [|x l IH]; [reflexivity|].
  rewrite deleteAll_cons_head. cbn.
  rewrite deleteAll_Set_delete, IH. reflexivity.
Qed.

Lemma inputTranscriptionBlock_returns m s :
  returns (inputTranscriptionBlock m s) (afterInput m s)
          (updateFor Victime (currentInputTranscription s) (msgInputTranscription m)).
Proof.
  unfold inputTranscriptionBlock, afterInput, updateFor, returns.
  destruct (msgInputTranscription m); reflexivity.
Qed.

Lemma outputTranscriptionBlock_returns m s :
  returns (outputTranscriptionBlock m s) (afterOutput m s)
          (updateFor IA (currentOutputTranscription s) (msgOutputTranscription m)).
Proof.
  unfold outputTranscriptionBlock, afterOutput, updateFor, returns.
  destruct (msgOutputTranscription m); reflexivity.
Qed.

Lemma turnCompleteBlock_returns m s :
  returns (turnCompleteBlock m s) (afterTurn m s) (turnEffects m s).
Proof.
  unfold turnCompleteBlock, afterTurn, turnEffects, flushOutput, flushInput, returns.
  destruct s as [se sp ms ic oc pr sn os nst cit cot al].
  destruct (msgTurnComplete m); [|reflexivity].
  unfold when, andThen, read. cbn.
  destruct (truthy cit); cbn; destruct (truthy cot); reflexivity.
Qed.

Lemma interruptedBlock_returns m s :
  returns (interruptedBlock m s) (afterInterrupted m s) (interruptedEffects m s).
Proof.
  unfold interruptedBlock, afterInterrupted, interruptedEffects.
  destruct (msgInterrupted m); [|reflexivity].
  cbn [when].
  rewrite <- (app_nil_r (map SourceStop (outputSources s))).
  eapply andThen_returns.
  - unfold read. apply interruptLoop_returns.
  - rewrite deleteAll_self. reflexivity.
Qed.

Lemma audioBlock_returns m env s :
  returns (audioBlock m env s) (afterAudio m env s) (audioEffects m env s).
Proof.
  unfold audioBlock, afterAudio, audioEffects, playable, returns.
  destruct s as [se sp ms ic oc pr sn os nst cit cot al].
  destruct (base64Audio m) as [audio|]; [|reflexivity].
  cbn. destruct (truthy audio); [|destruct oc; reflexivity].
  destruct oc as [ctx|]; reflexivity.
Qed.

(** The whole handler never throws when it runs without interleaving; its
    state and trace are those of the five blocks in order. *)
Lemma handleServerMessage_returns m env s :
  let s1 := afterInput m s in
  let s2 := afterOutput m s1 in
  let s3 := afterTurn m s2 in
  let s4 := afterInterrupted m s3 in
  returns (handleServerMessage m env s) (afterAudio m env s4)
    (updateFor Victime (currentInputTranscription s) (msgInputTranscription m)
     ++ updateFor IA (currentOutputTranscription s1) (msgOutputTranscription m)
     ++ turnEffects m s2
     ++ interruptedEffects m s3
     ++ audioEffects m env s4).
Proof.
  intros. unfold handleServerMessage.
  eapply andThen_returns; [apply inputTranscriptionBlock_returns|].
  eapply andThen_returns; [apply outputTranscriptionBlock_returns|].
  eapply andThen_returns; [apply turnCompleteBlock_returns|].
  eapply andThen_returns; [apply interruptedBlock_returns|].
  apply audioBlock_returns.
Qed.

(** ** Reading a trace *)

Lemma starts_app a b : starts (a ++ b) = starts a ++ starts b.
Proof. apply flat_map_app. Qed.

Lemma stops_app a b : stops (a ++ b) = stops a ++ stops b.
Proof. apply flat_map_app. Qed.

Lemma buffers_app a b : buffers (a ++ b) = buffers a ++ buffers b.
Proof. apply flat_map_app. Qed.

Lemma buffers_map_SourceStop l : buffers (map SourceStop l) = [].
Proof. induction l as [|x l IH]; cbn; auto. Qed.

Lemma updates_app sp a b : updates sp (a ++ b) = updates sp a ++ updates sp b.
Proof. apply flat_map_app. Qed.

Lemma turnCompletes_app sp a b :
  turnCompletes sp (a ++ b) = (turnCompletes sp a + turnCompletes sp b)%nat.
Proof. unfold turnCompletes. now rewrite filter_app, length_app. Qed.

Lemma stops_map_SourceStop l : stops (map SourceStop l) = l.
Proof. induction l as [|x l IH]; cbn; [reflexivity|]. now f_equal. Qed.

Lemma starts_map_SourceStop l : starts (map SourceStop l) = [].
Proof. induction l as [|x l IH]; cbn; auto. Qed.

Lemma updates_map_SourceStop sp l : updates sp (map SourceStop l) = [].
Proof. induction l as [|x l IH]; cbn; auto. Qed.

Lemma turnCompletes_map_SourceStop sp l : turnCompletes sp (map SourceStop l) = 0%nat.
Proof. induction l as [|x l IH]; cbn; auto. Qed.

Lemma truthy_false (s : string) : truthy s = false -> s = EmptyString.
Proof. destruct s; [reflexivity|discriminate]. Qed.

(** ** The handler, field by field *)

Ltac run_handler m env s :=
  let H := fresh "H" in
  pose proof (handleServerMessage_returns m env s) as H;
  cbv zeta in H; unfold returns in H; rewrite H; clear H;
  cbn [after effects thrown].

(* Case analysis on the innermost scrutinee first. *)
Ltac split_cases :=
  repeat match goal with
  | |- context [match ?x with _ => _ end] =>
      lazymatch x with
      | context [match _ with _ => _ end] => fail
      | _ => destruct x eqn:?; cbn
      end
  end.

Lemma handle_thrown m env s : thrown (handleServerMessage m env s) = None.
Proof. run_handler m env s. reflexivity. Qed.

Ltac unfold_blocks :=
  unfold afterAudio, audioEffects, plays, playable, clockBase, liveBase,
    afterInterrupted, interruptedEffects, afterTurn, turnEffects,
    flushOutput, flushInput, afterOutput, afterInput, updateFor, appended.

Ltac frame :=
  intros;
  match goal with s : Service |- _ => destruct s end;
  unfold_blocks; cbn; split_cases; try reflexivity;
  repeat match goal with H : truthy _ = false |- _ => apply truthy_false in H end;
  congruence.

Create Rewrite HintDb fields.

Lemma afterInput_outputAudioContext m s :
  outputAudioContext (afterInput m s) = outputAudioContext s.
Proof. frame. Qed.

Lemma afterInput_nextStartTime m s :
  nextStartTime (afterInput m s) = nextStartTime s.
Proof. frame. Qed.

Lemma afterInput_outputSources m s :
  outputSources (afterInput m s) = outputSources s.
Proof. frame. Qed.

Lemma afterInput_allocated m s :
  allocated (afterInput m s) = allocated s.
Proof. frame. Qed.

Lemma afterInput_currentInputTranscription m s :
  currentInputTranscription (afterInput m s) = appended (currentInputTranscription s) (msgInputTranscription m).
Proof. frame. Qed.

Lemma afterInput_currentOutputTranscription m s :
  currentOutputTranscription (afterInput m s) = currentOutputTranscription s.
Proof. frame. Qed.

Lemma afterInput_sourceNode m s :
  sourceNode (afterInput m s) = sourceNode s.
Proof. frame. Qed.

Lemma afterInput_scriptProcessor m s :
  scriptProcessor (afterInput m s) = scriptProcessor s.
Proof. frame. Qed.

Lemma afterOutput_outputAudioContext m s :
  outputAudioContext (afterOutput m s) = outputAudioContext s.
Proof. frame. Qed.

Lemma afterOutput_nextStartTime m s :
  nextStartTime (afterOutput m s) = nextStartTime s.
Proof. frame. Qed.

Lemma afterOutput_outputSources m s :
  outputSources (afterOutput m s) = outputSources s.
Proof. frame. Qed.

Lemma afterOutput_allocated m s :
  allocated (afterOutput m s) = allocated s.
Proof. frame. Qed.

Lemma afterOutput_currentInputTranscription m s :
  currentInputTranscription (afterOutput m s) = currentInputTranscription s.
Proof. frame. Qed.

Lemma afterOutput_currentOutputTranscription m s :
  currentOutputTranscription (afterOutput m s) = appended (currentOutputTranscription s) (msgOutputTranscription m).
Proof. frame. Qed.

Lemma afterOutput_sourceNode m s :
  sourceNode (afterOutput m s) = sourceNode s.
Proof. frame. Qed.

Lemma afterOutput_scriptProcessor m s :
  scriptProcessor (afterOutput m s) = scriptProcessor s.
Proof. frame. Qed.

Lemma afterTurn_outputAudioContext m s :
  outputAudioContext (afterTurn m s) = outputAudioContext s.
Proof. frame. Qed.

Lemma afterTurn_nextStartTime m s :
  nextStartTime (afterTurn m s) = nextStartTime s.
Proof. frame. Qed.

Lemma afterTurn_outputSources m s :
  outputSources (afterTurn m s) = outputSources s.
Proof. frame. Qed.

Lemma afterTurn_allocated m s :
  allocated (afterTurn m s) = allocated s.
Proof. frame. Qed.

Lemma afterTurn_currentInputTranscription m s :
  currentInputTranscription (afterTurn m s) = if msgTurnComplete m then EmptyString else currentInputTranscription s.
Proof. frame. Qed.

Lemma afterTurn_currentOutputTranscription m s :
  currentOutputTranscription (afterTurn m s) = if msgTurnComplete m then EmptyString else currentOutputTranscription s.
Proof. frame. Qed.

Lemma afterTurn_sourceNode m s :
  sourceNode (afterTurn m s) = sourceNode s.
Proof. frame. Qed.

Lemma afterTurn_scriptProcessor m s :
  scriptProcessor (afterTurn m s) = scriptProcessor s.
Proof. frame. Qed.

Lemma afterInterrupted_outputAudioContext m s :
  outputAudioContext (afterInterrupted m s) = outputAudioContext s.
Proof. frame. Qed.

Lemma afterInterrupted_nextStartTime m s :
  nextStartTime (afterInterrupted m s) = clockBase m s.
Proof. frame. Qed.

Lemma afterInterrupted_outputSources m s :
  outputSources (afterInterrupted m s) = liveBase m s.
Proof. frame. Qed.

Lemma afterInterrupted_allocated m s :
  allocated (afterInterrupted m s) = allocated s.
Proof. frame. Qed.

Lemma afterInterrupted_currentInputTranscription m s :
  currentInputTranscription (afterInterrupted m s) = currentInputTranscription s.
Proof. frame. Qed.

Lemma afterInterrupted_currentOutputTranscription m s :
  currentOutputTranscription (afterInterrupted m s) = currentOutputTranscription s.
Proof. frame. Qed.

Lemma afterInterrupted_sourceNode m s :
  sourceNode (afterInterrupted m s) = sourceNode s.
Proof. frame. Qed.

Lemma afterInterrupted_scriptProcessor m s :
  scriptProcessor (afterInterrupted m s) = scriptProcessor s.
Proof. frame. Qed.

Lemma afterAudio_outputAudioContext m env s :
  outputAudioContext (afterAudio m env s) = outputAudioContext s.
Proof. frame. Qed.

Lemma afterAudio_nextStartTime m env s :
  nextStartTime (afterAudio m env s) = if plays m s then Z.max (nextStartTime s) (currentTime env) + duration env
    else nextStartTime s.
Proof. frame. Qed.

Lemma afterAudio_outputSources m env s :
  outputSources (afterAudio m env s) = if plays m s then Set_add (allocated s) (outputSources s) else outputSources s.
Proof. frame. Qed.

Lemma afterAudio_allocated m env s :
  allocated (afterAudio m env s) = if plays m s then S (allocated s) else allocated s.
Proof. frame. Qed.

Lemma afterAudio_currentInputTranscription m env s :
  currentInputTranscription (afterAudio m env s) = currentInputTranscription s.
Proof. frame. Qed.

Lemma afterAudio_currentOutputTranscription m env s :
  currentOutputTranscription (afterAudio m env s) = currentOutputTranscription s.
Proof. frame. Qed.

Lemma afterAudio_sourceNode m env s :
  sourceNode (afterAudio m env s) = sourceNode s.
Proof. frame. Qed.

Lemma afterAudio_scriptProcessor m env s :
  scriptProcessor (afterAudio m env s) = scriptProcessor s.
Proof. frame. Qed.

#[local] Hint Rewrite
  afterInput_outputAudioContext
  afterInput_nextStartTime
  afterInput_outputSources
  afterInput_allocated
  afterInput_currentInputTranscription
  afterInput_currentOutputTranscription
  afterInput_sourceNode
  afterInput_scriptProcessor
  afterOutput_outputAudioContext
  afterOutput_nextStartTime
  afterOutput_outputSources
  afterOutput_allocated
  afterOutput_currentInputTranscription
  afterOutput_currentOutputTranscription
  afterOutput_sourceNode
  afterOutput_scriptProcessor
  afterTurn_outputAudioContext
  afterTurn_nextStartTime
  afterTurn_outputSources
  afterTurn_allocated
  afterTurn_currentInputTranscription
  afterTurn_currentOutputTranscription
  afterTurn_sourceNode
  afterTurn_scriptProcessor
  afterInterrupted_outputAudioContext
  afterInterrupted_nextStartTime
  afterInterrupted_outputSources
  afterInterrupted_allocated
  afterInterrupted_currentInputTranscription
  afterInterrupted_currentOutputTranscription
  afterInterrupted_sourceNode
  afterInterrupted_scriptProcessor
  afterAudio_outputAudioContext
  afterAudio_nextStartTime
  afterAudio_outputSources
  afterAudio_allocated
  afterAudio_currentInputTranscription
  afterAudio_currentOutputTranscription
  afterAudio_sourceNode
  afterAudio_scriptProcessor : fields.

Lemma plays_context m s s' :
  outputAudioContext s' = outputAudioContext s -> plays m s' = plays m s.
Proof. unfold plays, playable. now intros ->. Qed.

Lemma plays_blocks m s :
  plays m (afterInterrupted m (afterTurn m (afterOutput m (afterInput m s)))) = plays m s.
Proof. apply plays_context. now autorewrite with fields. Qed.

Lemma handle_outputAudioContext m env s :
  outputAudioContext (after (handleServerMessage m env s)) = outputAudioContext s.
Proof. run_handler m env s. now autorewrite with fields. Qed.

Lemma handle_nextStartTime m env s :
  nextStartTime (after (handleServerMessage m env s))
  = if plays m s
    then Z.max (clockBase m s) (currentTime env) + duration env
    else clockBase m s.
Proof.
  run_handler m env s. autorewrite with fields. rewrite plays_blocks.
  unfold clockBase. now autorewrite with fields.
Qed.

Lemma handle_outputSources m env s :
  outputSources (after (handleServerMessage m env s))
  = if plays m s then Set_add (allocated s) (liveBase m s) else liveBase m s.
Proof.
  run_handler m env s. autorewrite with fields. rewrite plays_blocks.
  unfold liveBase. now autorewrite with fields.
Qed.

Lemma handle_allocated m env s :
  allocated (after (handleServerMessage m env s))
  = if plays m s then S (allocated s) else allocated s.
Proof.
  run_handler m env s. autorewrite with fields. now rewrite plays_blocks.
Qed.

Lemma handle_currentInputTranscription m env s :
  currentInputTranscription (after (handleServerMessage m env s))
  = if msgTurnComplete m then EmptyString
    else appended (currentInputTranscription s) (msgInputTranscription m).
Proof. run_handler m env s. now autorewrite with fields. Qed.

Lemma handle_currentOutputTranscription m env s :
  currentOutputTranscription (after (handleServerMessage m env s))
  = if msgTurnComplete m then EmptyString
    else appended (currentOutputTranscription s) (msgOutputTranscription m).
Proof. run_handler m env s. now autorewrite with fields. Qed.

(** The trace of the handler, read through each of the readers. *)

Lemma interruptedEffects_starts m s : starts (interruptedEffects m s) = [].
Proof.
  unfold interruptedEffects. destruct (msgInterrupted m); [|reflexivity].
  apply starts_map_SourceStop.
Qed.

Lemma interruptedEffects_updates sp m s : updates sp (interruptedEffects m s) = [].
Proof.
  unfold interruptedEffects. destruct (msgInterrupted m); [|reflexivity].
  apply updates_map_SourceStop.
Qed.

Lemma interruptedEffects_turnCompletes sp m s :
  turnCompletes sp (interruptedEffects m s) = 0%nat.
Proof.
  unfold interruptedEffects. destruct (msgInterrupted m); [|reflexivity].
  apply turnCompletes_map_SourceStop.
Qed.

Lemma interruptedEffects_stops m s :
  stops (interruptedEffects m s) = if msgInterrupted m then outputSources s else [].
Proof.
  unfold interruptedEffects. destruct (msgInterrupted m); [|reflexivity].
  apply stops_map_SourceStop.
Qed.

Lemma audioEffects_starts m env s :
  starts (audioEffects m env s)
  = if plays m s then [Z.max (nextStartTime s) (currentTime env)] else [].
Proof.
  unfold audioEffects, plays. destruct (playable m s) as [[? ?]|]; reflexivity.
Qed.

Lemma interruptedEffects_buffers m s : buffers (interruptedEffects m s) = [].
Proof.
  unfold interruptedEffects. destruct (msgInterrupted m); [|reflexivity].
  apply buffers_map_SourceStop.
Qed.

Lemma audioEffects_buffers m env s :
  buffers (audioEffects m env s) = if plays m s then [duration env] else [].
Proof.
  unfold audioEffects, plays. destruct (playable m s) as [[? ?]|]; reflexivity.
Qed.

Lemma updateFor_buffers sp b tr : buffers (updateFor sp b tr) = [].
Proof. destruct tr; reflexivity. Qed.

Lemma turnEffects_buffers m s : buffers (turnEffects m s) = [].
Proof.
  unfold turnEffects.
  destruct (msgTurnComplete m), (truthy (currentInputTranscription s)),
    (truthy (currentOutputTranscription s)); reflexivity.
Qed.

Lemma audioEffects_stops m env s : stops (audioEffects m env s) = [].
Proof. unfold audioEffects. destruct (playable m s) as [[? ?]|]; reflexivity. Qed.

Lemma audioEffects_updates sp m env s : updates sp (audioEffects m env s) = [].
Proof. unfold audioEffects. destruct (playable m s) as [[? ?]|]; reflexivity. Qed.

Lemma audioEffects_turnCompletes sp m env s :
  turnCompletes sp (audioEffects m env s) = 0%nat.
Proof. unfold audioEffects. destruct (playable m s) as [[? ?]|]; reflexivity. Qed.

Lemma updateFor_starts sp b tr : starts (updateFor sp b tr) = [].
Proof. destruct tr; reflexivity. Qed.

Lemma updateFor_stops sp b tr : stops (updateFor sp b tr) = [].
Proof. destruct tr; reflexivity. Qed.

Lemma updateFor_turnCompletes sp sp' b tr : turnCompletes sp (updateFor sp' b tr) = 0%nat.
Proof. destruct tr; reflexivity. Qed.

Lemma turnEffects_starts m s : starts (turnEffects m s) = [].
Proof.
  unfold turnEffects.
  destruct (msgTurnComplete m), (truthy (currentInputTranscription s)),
    (truthy (currentOutputTranscription s)); reflexivity.
Qed.

Lemma turnEffects_stops m s : stops (turnEffects m s) = [].
Proof.
  unfold turnEffects.
  destruct (msgTurnComplete m), (truthy (currentInputTranscription s)),
    (truthy (currentOutputTranscription s)); reflexivity.
Qed.

Lemma turnEffects_updates sp m s : updates sp (turnEffects m s) = [].
Proof.
  unfold turnEffects.
  destruct (msgTurnComplete m), (truthy (currentInputTranscription s)),
    (truthy (currentOutputTranscription s)); reflexivity.
Qed.

Create Rewrite HintDb traces.
#[local] Hint Rewrite
  starts_app stops_app updates_app turnCompletes_app buffers_app
  interruptedEffects_buffers audioEffects_buffers updateFor_buffers turnEffects_buffers
  interruptedEffects_starts interruptedEffects_updates interruptedEffects_turnCompletes
  interruptedEffects_stops audioEffects_starts audioEffects_stops audioEffects_updates
  audioEffects_turnCompletes updateFor_starts updateFor_stops updateFor_turnCompletes
  turnEffects_starts turnEffects_stops turnEffects_updates
  app_nil_r app_nil_l Nat.add_0_r Nat.add_0_l : traces.

Lemma handle_starts m env s :
  starts (effects (handleServerMessage m env s))
  = if plays m s then [Z.max (clockBase m s) (currentTime env)] else [].
Proof.
  run_handler m env s. autorewrite with traces. rewrite plays_blocks.
  autorewrite with fields. unfold clockBase. now autorewrite with fields.
Qed.

Lemma handle_buffers m env s :
  buffers (effects (handleServerMessage m env s))
  = if plays m s then [duration env] else [].
Proof.
  run_handler m env s. autorewrite with traces. now rewrite plays_blocks.
Qed.

Lemma handle_stops m env s :
  stops (effects (handleServerMessage m env s))
  = if msgInterrupted m then outputSources s else [].
Proof.
  run_handler m env s. autorewrite with traces. now autorewrite with fields.
Qed.

(** ** The session methods and connection callbacks *)

Lemma stopSession_run (s : Service) :
  returns (stopSession s) (tornDown s)
    (ifPresent (session s) (fun sess => [SessionClose sess]) ++ cleanupEffects s).
Proof.
  unfold stopSession. eapply andThen_returns; [|apply cleanup_run].
  unfold read, whenSome, ifPresent. destruct (session s); reflexivity.
Qed.

Lemma onclose_run (s : Service) :
  returns (onclose s) (tornDown s) (OnClose :: cleanupEffects s).
Proof.
  unfold onclose. change (OnClose :: cleanupEffects s) with ([OnClose] ++ cleanupEffects s).
  eapply andThen_returns; [reflexivity|apply cleanup_run].
Qed.

Lemma startSession_cases (env : StartEnv) (s : Service) :
  startSession env s =
  match userMedia env with
  | Rejected e => failedStart e [GetUserMedia true] s
  | Resolved stream =>
      let s1 := set_mediaStream (Some stream) s in
      match inputContextError env with
      | Some e => failedStart e [GetUserMedia true] s1
      | None =>
          let ctx16 := {| contextId := allocated s; sampleRate := 16000 |} in
          let s2 := set_inputAudioContext (Some ctx16)
                      (set_allocated (S (allocated s)) s1) in
          match outputContextError env with
          | Some e => failedStart e [GetUserMedia true; NewAudioContext ctx16] s2
          | None =>
              let ctx24 := {| contextId := S (allocated s); sampleRate := 24000 |} in
              let promise := S (S (allocated s)) in
              let s3 := set_sessionPromise (Some promise)
                          (set_outputAudioContext (Some ctx24)
                            (set_allocated (S promise) s2)) in
              let calls := [ GetUserMedia true; NewAudioContext ctx16;
                             NewAudioContext ctx24;
                             LiveConnect liveModel liveConfig promise ] in
              match connection env with
              | Rejected e => failedStart e calls s3
              | Resolved sess =>
                  {| after := set_session (Some sess) s3; effects := calls;
                     thrown := None |}
              end
          end
      end
  end.
Proof.
  destruct env as [um ice oce conn]. destruct s.
  unfold startSession, failedStart, tryCatch, newAudioContext, await, create, andThen.
  destruct um as [stream|e]; cbn -[cleanup liveConfig];
    [|rewrite cleanup_run; reflexivity].
  destruct ice as [e|]; cbn -[cleanup liveConfig]; [rewrite cleanup_run; reflexivity|].
  destruct oce as [e|]; cbn -[cleanup liveConfig]; [rewrite cleanup_run; reflexivity|].
  destruct conn as [sess|e]; cbn -[cleanup liveConfig]; [reflexivity|].
  rewrite cleanup_run. reflexivity.
Qed.

Lemma onopen_run (s : Service) :
  onopen s =
  match inputAudioContext s, mediaStream s with
  | Some ctx, Some stream =>
      let source := allocated s in
      let processor := S (allocated s) in
      {| after := set_scriptProcessor (Some processor)
                    (set_sourceNode (Some source)
                      (set_allocated (S processor) s));
         effects := [ CreateMediaStreamSource ctx stream source;
                      CreateScriptProcessor ctx 4096 1 1 processor;
                      NodeConnect source (ToNode processor);
                      NodeConnect processor (ToDestination ctx) ];
         thrown := None |}
  | _, _ => {| after := s; effects := []; thrown := Some (ErrorObject "TypeError") |}
  end.
Proof.
  destruct s as [se sp ms ic oc pr sn os nst cit cot al].
  unfold onopen, read. cbn.
  destruct ic as [ctx|]; [|reflexivity].
  destruct ms as [stream|]; reflexivity.
Qed.

(** ** Teardown *)

(** C9. Every run of [cleanup], from any state, completes and leaves: the
    tracks of the microphone stream stopped and the stream handle null, the
    source and script-processor nodes disconnected and null, both audio
    contexts closed and null, every source of the live playback set stopped
    and the set empty, the session handle and the session promise null.  The
    trace is exactly the calls on the handles that were present. *)
Theorem cleanup_releases_everything (s : Service) :
  let r := cleanup s in
  thrown r = None /\
  effects r =
    ifPresent (scriptProcessor s) (fun node => [NodeDisconnect node]) ++
    ifPresent (sourceNode s) (fun node => [NodeDisconnect node]) ++
    ifPresent (mediaStream s) (fun stream => map TrackStop (tracks stream)) ++
    ifPresent (inputAudioContext s) (fun ctx => [ContextClose ctx]) ++
    ifPresent (outputAudioContext s) (fun ctx => [ContextClose ctx]) ++
    map SourceStop (outputSources s) /\
  mediaStream (after r) = None /\
  sourceNode (after r) = None /\
  scriptProcessor (after r) = None /\
  inputAudioContext (after r) = None /\
  outputAudioContext (after r) = None /\
  outputSources (after r) = [] /\
  session (after r) = None /\
  sessionPromise (after r) = None.
Proof.
  cbv zeta. rewrite cleanup_run. cbn [after effects thrown].
  repeat split; reflexivity.
Qed.

(** C10. [cleanup] leaves the two transcript buffers and the playback clock
    as they were, and so do [stopSession] and [onclose], which end in it. *)
Theorem cleanup_keeps_transcripts_and_clock (s : Service) :
  (currentInputTranscription (after (cleanup s)) = currentInputTranscription s /\
   currentOutputTranscription (after (cleanup s)) = currentOutputTranscription s /\
   nextStartTime (after (cleanup s)) = nextStartTime s) /\
  (currentInputTranscription (after (stopSession s)) = currentInputTranscription s /\
   currentOutputTranscription (after (stopSession s)) = currentOutputTranscription s /\
   nextStartTime (after (stopSession s)) = nextStartTime s) /\
  (currentInputTranscription (after (onclose s)) = currentInputTranscription s /\
   currentOutputTranscription (after (onclose s)) = currentOutputTranscription s /\
   nextStartTime (after (onclose s)) = nextStartTime s).
Proof.
  rewrite cleanup_run, (stopSession_run s), (onclose_run s). cbn [after].
  repeat split; reflexivity.
Qed.

(** C6, as the code has it. [onclose] reports the close and runs the teardown
    once; [onerror] only reports the error and leaves the state as it is;
    a second [cleanup] after a first one changes nothing and calls nothing. *)
Theorem onclose_tears_down_onerror_reports (s : Service) (message : string) :
  onclose s = {| after := after (cleanup s);
                 effects := OnClose :: effects (cleanup s);
                 thrown := None |} /\
  onerror message s = {| after := s;
                         effects := [OnError ("Erreur de connexion : " ++ message)%string];
                         thrown := None |} /\
  cleanup (after (cleanup s)) = {| after := after (cleanup s);
                                   effects := [];
                                   thrown := None |}.
Proof.
  split; [|split].
  - rewrite (onclose_run s), cleanup_run. reflexivity.
  - reflexivity.
  - rewrite (cleanup_run s). cbn [after]. rewrite cleanup_run. reflexivity.
Qed.

(** C6 fails for [onerror]: on a live session the handler releases nothing. *)
Lemma onerror_runs_no_teardown :
  after (handle (ConnError "network") liveSession) = liveSession /\
  effects (handle (ConnError "network") liveSession)
    = [OnError "Erreur de connexion : network"] /\
  mediaStream (after (handle (ConnError "network") liveSession)) = Some micStream /\
  outputSources (after (handle (ConnError "network") liveSession)) = [5%nat; 6%nat] /\
  after (handle (ConnError "network") liveSession) <> after (cleanup liveSession).
Proof.
  repeat split; try reflexivity.
  intros H. apply (f_equal mediaStream) in H. vm_compute in H. discriminate.
Qed.

(** ** Kinds of effects *)

Lemma ofKind_app k a b : ofKind k (a ++ b) = ofKind k a ++ ofKind k b.
Proof. apply filter_app. Qed.

Lemma ofKind_map_TrackStop k l :
  k <> Release -> ofKind k (map TrackStop l) = [].
Proof.
  intros Hk. induction l as [|x l IH]; cbn; [reflexivity|].
  destruct k; try congruence; exact IH.
Qed.

Lemma ofKind_map_SourceStop k l :
  k <> Playback -> ofKind k (map SourceStop l) = [].
Proof.
  intros Hk. induction l as [|x l IH]; cbn; [reflexivity|].
  destruct k; try congruence; exact IH.
Qed.

Lemma ofKind_cleanupEffects k s :
  k <> Release -> k <> Playback -> ofKind k (cleanupEffects s) = [].
Proof.
  intros Hr Hp. unfold cleanupEffects. rewrite !ofKind_app.
  rewrite ofKind_map_SourceStop by assumption.
  destruct (scriptProcessor s), (sourceNode s), (mediaStream s),
    (inputAudioContext s), (outputAudioContext s); cbn [ifPresent];
    rewrite ?ofKind_map_TrackStop by assumption;
    destruct k; try congruence; reflexivity.
Qed.

Lemma ofKind_updateFor k sp b tr : k <> Callback -> ofKind k (updateFor sp b tr) = [].
Proof. intros Hk. destruct tr; cbn; [|reflexivity]. destruct k; congruence. Qed.

Lemma ofKind_turnEffects k m s : k <> Callback -> ofKind k (turnEffects m s) = [].
Proof.
  intros Hk. unfold turnEffects.
  destruct (msgTurnComplete m), (truthy (currentInputTranscription s)),
    (truthy (currentOutputTranscription s)); cbn; destruct k; congruence.
Qed.

Lemma ofKind_interruptedEffects k m s :
  k <> Playback -> ofKind k (interruptedEffects m s) = [].
Proof.
  intros Hk. unfold interruptedEffects. destruct (msgInterrupted m); [|reflexivity].
  now apply ofKind_map_SourceStop.
Qed.

Lemma ofKind_audioEffects k m env s :
  k <> Playback -> ofKind k (audioEffects m env s) = [].
Proof.
  intros Hk. unfold audioEffects. destruct (playable m s) as [[? ?]|]; cbn;
    destruct k; congruence.
Qed.

(** The handler only calls back and drives playback. *)
Lemma handle_ofKind k m env s :
  k <> Callback -> k <> Playback ->
  ofKind k (effects (handleServerMessage m env s)) = [].
Proof.
  intros Hc Hp. run_handler m env s. rewrite !ofKind_app.
  rewrite !ofKind_updateFor, ofKind_turnEffects, ofKind_interruptedEffects,
    ofKind_audioEffects by assumption.
  reflexivity.
Qed.

Lemma plays_without_context m s : outputAudioContext s = None -> plays m s = false.
Proof.
  intros H. unfold plays, playable. rewrite H. destruct (base64Audio m); reflexivity.
Qed.

(** Without a playback context and with an empty live set, the handler makes
    no playback call at all. *)
Lemma handle_playback_idle m env s :
  outputAudioContext s = None -> outputSources s = [] ->
  ofKind Playback (effects (handleServerMessage m env s)) = [].
Proof.
  intros Hc Hs. run_handler m env s. rewrite !ofKind_app.
  rewrite !ofKind_updateFor, ofKind_turnEffects by discriminate.
  unfold interruptedEffects, audioEffects.
  autorewrite with fields. rewrite Hs.
  assert (Hp : playable m (afterInterrupted m (afterTurn m (afterOutput m (afterInput m s))))
               = None).
  { unfold playable. autorewrite with fields. rewrite Hc.
    destruct (base64Audio m); reflexivity. }
  rewrite Hp. destruct (msgInterrupted m); reflexivity.
Qed.

Lemma failedStart_ofKind k e calls s :
  k <> Callback -> k <> Release -> k <> Playback ->
  ofKind k (effects (failedStart e calls s)) = ofKind k calls.
Proof.
  intros Hc Hr Hp. unfold failedStart. cbn [effects].
  rewrite ofKind_app. cbn [ofKind filter].
  change (filter (fun e0 => kind_eqb (kind e0) k) (cleanupEffects s))
    with (ofKind k (cleanupEffects s)).
  rewrite ofKind_cleanupEffects by assumption.
  destruct k; try congruence; cbn; now rewrite app_nil_r.
Qed.

(** ** Starting a session *)

Lemma startSession_setup_prefix env s :
  ofKind Setup (effects (startSession env s))
  = firstn (setupReached env) (setupSequence (allocated s)).
Proof.
  rewrite startSession_cases. unfold setupReached, setupSequence.
  destruct (userMedia env) as [stream|e].
  2:{ rewrite failedStart_ofKind by discriminate. reflexivity. }
  destruct (inputContextError env) as [e|]; cbv zeta.
  { rewrite failedStart_ofKind by discriminate. reflexivity. }
  destruct (outputContextError env) as [e|].
  { rewrite failedStart_ofKind by discriminate. reflexivity. }
  destruct (connection env) as [sess|e].
  - reflexivity.
  - rewrite failedStart_ofKind by discriminate. reflexivity.
Qed.

Lemma startSession_no_wiring env s :
  ofKind Wiring (effects (startSession env s)) = [].
Proof.
  rewrite startSession_cases.
  destruct (userMedia env) as [stream|e].
  2:{ rewrite failedStart_ofKind by discriminate. reflexivity. }
  destruct (inputContextError env) as [e|]; cbv zeta.
  { rewrite failedStart_ofKind by discriminate. reflexivity. }
  destruct (outputContextError env) as [e|].
  { rewrite failedStart_ofKind by discriminate. reflexivity. }
  destruct (connection env) as [sess|e].
  - reflexivity.
  - rewrite failedStart_ofKind by discriminate. reflexivity.
Qed.

(** [startSession] never sets the capture nodes: it leaves them, or its
    teardown clears them. *)
Lemma startSession_nodes env s :
  sourceNode s = None -> scriptProcessor s = None ->
  sourceNode (after (startSession env s)) = None /\
  scriptProcessor (after (startSession env s)) = None.
Proof.
  intros H1 H2. rewrite startSession_cases.
  destruct (userMedia env) as [stream|e]; [|split; reflexivity].
  destruct (inputContextError env) as [e|]; cbv zeta; [split; reflexivity|].
  destruct (outputContextError env) as [e|]; [split; reflexivity|].
  destruct (connection env) as [sess|e]; [|split; reflexivity].
  destruct s; cbn in *. split; assumption.
Qed.

(** No event but the connection's open signal wires the capture path. *)
Lemma handle_no_wiring ev s :
  isConnOpen ev = false ->
  sourceNode s = None -> scriptProcessor s = None ->
  ofKind Wiring (effects (handle ev s)) = [] /\
  sourceNode (after (handle ev s)) = None /\
  scriptProcessor (after (handle ev s)) = None.
Proof.
  intros Hev H1 H2. destruct ev as [env| | |m env|msg| |src]; cbn [handle].
  - split; [apply startSession_no_wiring|now apply startSession_nodes].
  - rewrite (stopSession_run s). cbn [after effects]. rewrite ofKind_app.
    rewrite ofKind_cleanupEffects by discriminate.
    destruct (session s); repeat split; reflexivity.
  - discriminate.
  - split; [apply handle_ofKind; discriminate|].
    run_handler m env s. autorewrite with fields. now split.
  - repeat split; assumption.
  - rewrite (onclose_run s). cbn [after effects].
    change (OnClose :: cleanupEffects s) with ([OnClose] ++ cleanupEffects s).
    rewrite ofKind_app, ofKind_cleanupEffects by discriminate.
    repeat split; reflexivity.
  - destruct s; cbn in *. repeat split; assumption.
Qed.

Lemma run_no_wiring evs s :
  sourceNode s = None -> scriptProcessor s = None ->
  let quiet := filter (fun ev => negb (isConnOpen ev)) evs in
  ofKind Wiring (snd (run quiet s)) = [] /\
  sourceNode (fst (run quiet s)) = None /\
  scriptProcessor (fst (run quiet s)) = None.
Proof.
  cbv zeta. revert s. induction evs as [|ev evs IH]; intros s H1 H2.
  - cbn. repeat split; assumption.
  - cbn [filter]. destruct (isConnOpen ev) eqn:Hev; cbn [negb]; [now apply IH|].
    cbn [run].
    destruct (handle_no_wiring ev s Hev H1 H2) as (Hw & Hs & Hp).
    specialize (IH (after (handle ev s)) Hs Hp).
    destruct (run (filter (fun ev0 => negb (isConnOpen ev0)) evs) (after (handle ev s)))
      as [s' es] eqn:Hr.
    cbn [fst snd] in *. rewrite ofKind_app, Hw. exact IH.
Qed.

(** C7. When [getUserMedia] rejects with an [Error] (a denied permission is a
    [DOMException], which is one), [startSession] completes, reports one error
    whose text begins with the fixed French prefix, runs the teardown, and
    leaves no context, stream, session or promise; the only setup call of the
    run is the one [getUserMedia], so nothing is retried or created. *)
Theorem microphone_denied_ends_session (env : StartEnv) (s : Service) (message : string) :
  userMedia env = Rejected (ErrorObject message) ->
  let r := startSession env s in
  let report := ("Impossible de démarrer la session : " ++ message)%string in
  thrown r = None /\
  effects r = GetUserMedia true :: OnError report :: effects (cleanup s) /\
  String.prefix "Impossible de démarrer la session :" report = true /\
  ofKind Callback (effects r) = [OnError report] /\
  ofKind Setup (effects r) = [GetUserMedia true] /\
  after r = after (cleanup s) /\
  inputAudioContext (after r) = None /\
  outputAudioContext (after r) = None /\
  mediaStream (after r) = None /\
  session (after r) = None /\
  sessionPromise (after r) = None.
Proof.
  intros Hmic. cbv zeta.
  pose proof (startSession_setup_prefix env s) as Hsetup.
  rewrite startSession_cases in *. unfold setupReached in Hsetup.
  rewrite Hmic in *. rewrite cleanup_run. unfold failedStart in *.
  cbn [after effects thrown startErrorMessage app] in *.
  repeat split; try reflexivity.
  - cbn [ofKind filter kind kind_eqb].
    change (filter (fun e => kind_eqb (kind e) Callback) (cleanupEffects s))
      with (ofKind Callback (cleanupEffects s)).
    now rewrite ofKind_cleanupEffects by discriminate.
  - exact Hsetup.
Qed.

Lemma microphone_denied_ends_session_witness :
  let r := startSession deniedEnv newService in
  let report := "Impossible de démarrer la session : Permission denied" in
  thrown r = None /\
  effects r = GetUserMedia true :: OnError report :: effects (cleanup newService) /\
  String.prefix "Impossible de démarrer la session :" report = true /\
  ofKind Callback (effects r) = [OnError report] /\
  ofKind Setup (effects r) = [GetUserMedia true] /\
  after r = after (cleanup newService) /\
  inputAudioContext (after r) = None /\
  outputAudioContext (after r) = None /\
  mediaStream (after r) = None /\
  session (after r) = None /\
  sessionPromise (after r) = None.
Proof.
  exact (microphone_denied_ends_session deniedEnv newService
           (message := "Permission denied") eq_refl).
Defined.

(** C8. A run of [startSession] in which every step succeeds makes exactly
    four setup calls, in this order: [getUserMedia({audio: true})], a context
    at 16 kHz, a context at 24 kHz, one [ai.live.connect] whose configuration
    asks for the audio modality, both transcriptions and the fixed system
    instruction.  Any run performs a prefix of that sequence.  [startSession]
    itself wires nothing; no sequence of events without the connection's open
    signal wires the capture path; the open signal on a started session
    creates the source and script-processor nodes and connects them. *)
Theorem startSession_order_and_wiring
    (env : StartEnv) (s : Service) (stream : MediaStream) (sess : Session)
    (evs : list Event) :
  let ok := startSession (granted stream sess) s in
  let n := allocated s in
  let ctx16 := {| contextId := n; sampleRate := 16000 |} in
  let ctx24 := {| contextId := S n; sampleRate := 24000 |} in
  let quiet := filter (fun ev => negb (isConnOpen ev)) evs in
  (thrown ok = None /\
   effects ok = [ GetUserMedia true; NewAudioContext ctx16; NewAudioContext ctx24;
                  LiveConnect liveModel liveConfig (S (S n)) ] /\
   liveConfig = {| responseModalities := [AUDIO];
                   inputAudioTranscription := true;
                   outputAudioTranscription := true;
                   cfgSystemInstruction := systemInstruction |} /\
   mediaStream (after ok) = Some stream /\
   inputAudioContext (after ok) = Some ctx16 /\
   outputAudioContext (after ok) = Some ctx24 /\
   sessionPromise (after ok) = Some (S (S n)) /\
   session (after ok) = Some sess /\
   sourceNode (after ok) = sourceNode s /\
   scriptProcessor (after ok) = scriptProcessor s) /\
  (ofKind Setup (effects (startSession env s))
     = firstn (setupReached env) (setupSequence n) /\
   ofKind Wiring (effects (startSession env s)) = []) /\
  (ofKind Wiring (snd (run quiet newService)) = [] /\
   sourceNode (fst (run quiet newService)) = None /\
   scriptProcessor (fst (run quiet newService)) = None) /\
  (effects (onopen (after ok))
     = [ CreateMediaStreamSource ctx16 stream (S (S (S n)));
         CreateScriptProcessor ctx16 4096 1 1 (S (S (S (S n))));
         NodeConnect (S (S (S n))) (ToNode (S (S (S (S n)))));
         NodeConnect (S (S (S (S n)))) (ToDestination ctx16) ] /\
   sourceNode (after (onopen (after ok))) = Some (S (S (S n))) /\
   scriptProcessor (after (onopen (after ok))) = Some (S (S (S (S n))))).
Proof.
  cbv zeta. split; [|split; [|split]].
  - rewrite startSession_cases. destruct s. cbn. repeat split; reflexivity.
  - split; [apply startSession_setup_prefix|apply startSession_no_wiring].
  - apply (run_no_wiring evs newService); reflexivity.
  - rewrite onopen_run, startSession_cases. destruct s. cbn. repeat split; reflexivity.
Qed.

(** ** Sequences of inbound messages *)

Lemma offsetsFrom_sums t ds :
  offsetsFrom t ds = map (fun i => t + sumZ (firstn i ds)) (seq 0 (List.length ds)).
Proof.
  revert t. induction ds as [|d ds IH]; intros t; [reflexivity|].
  cbn [offsetsFrom List.length seq map firstn sumZ fold_right].
  f_equal; [lia|].
  rewrite IH, <- seq_shift, map_map.
  apply map_ext. intros i. cbn [firstn sumZ fold_right]. unfold sumZ. lia.
Qed.

Lemma run_cons ev evs s :
  run (ev :: evs) s
  = (fst (run evs (after (handle ev s))),
     effects (handle ev s) ++ snd (run evs (after (handle ev s)))).
Proof. cbn [run]. destruct (run evs (after (handle ev s))); reflexivity. Qed.

Lemma plays_audio m s ctx :
  hasAudio m = true -> outputAudioContext s = Some ctx -> plays m s = true.
Proof.
  unfold hasAudio, plays, playable. intros Ha ->.
  destruct (base64Audio m); [now rewrite Ha|discriminate].
Qed.

Lemma plays_silent m s : hasAudio m = false -> plays m s = false.
Proof.
  unfold hasAudio, plays, playable. intros Ha.
  destruct (base64Audio m); [rewrite Ha|]; destruct (outputAudioContext s); reflexivity.
Qed.

(** What one chunk does to the clock and to the trace. *)
Lemma handle_chunk m env s ctx :
  hasAudio m = true -> msgInterrupted m = false ->
  outputAudioContext s = Some ctx ->
  let start := Z.max (nextStartTime s) (currentTime env) in
  starts (effects (handleServerMessage m env s)) = [start] /\
  nextStartTime (after (handleServerMessage m env s)) = start + duration env /\
  outputAudioContext (after (handleServerMessage m env s)) = Some ctx.
Proof.
  intros Ha Hi Hc. cbv zeta.
  rewrite handle_starts, handle_nextStartTime, handle_outputAudioContext.
  rewrite (plays_audio m s Ha Hc). unfold clockBase. rewrite Hi. auto.
Qed.

Lemma schedule_not_before t chunks :
  Forall isChunk chunks -> Forall (fun start => t <= start) (schedule t chunks).
Proof.
  revert t. induction chunks as [|[m env] rest IH]; intros t Hall; [constructor|].
  inversion Hall as [|? ? (Ha & Hi & Hd) Hrest]; subst. cbn [schedule snd] in *.
  constructor; [lia|].
  eapply Forall_impl; [|apply (IH _ Hrest)].
  cbn. intros start Hle. lia.
Qed.

Lemma Forall_combine_fst (A B : Type) (P : A -> Prop) (l : list A) (l' : list B) :
  Forall P l -> Forall (fun u => P (fst u)) (combine l l').
Proof.
  intros H. revert l'. induction H as [|x l Hx Hl IH]; intros [|y l']; cbn;
    constructor; auto.
Qed.

(** Whatever the clock does, scheduled units never overlap. *)
Lemma schedule_nonOverlapping t chunks :
  Forall isChunk chunks ->
  nonOverlapping (combine (schedule t chunks) (durations chunks)).
Proof.
  revert t. induction chunks as [|[m env] rest IH]; intros t Hall; [constructor|].
  inversion Hall as [|? ? (Ha & Hi & Hd) Hrest]; subst.
  cbn [schedule durations map combine snd]. constructor; [|apply (IH _ Hrest)].
  apply Forall_combine_fst with (P := fun start =>
    Z.max t (currentTime env) + duration env <= start).
  apply schedule_not_before. exact Hrest.
Qed.

(** ** Interruption *)

Lemma first_start_from_zero later : forall s ctx,
  nextStartTime s = 0 ->
  outputAudioContext s = Some ctx ->
  hd_error (starts (snd (run (inbound later) s)))
  = option_map (fun p => Z.max 0 (currentTime (snd p)))
      (find (fun p => hasAudio (fst p)) later).
Proof.
  induction later as [|[m env] rest IH]; intros s ctx Hz Hc; [reflexivity|].
  cbn [inbound map fst snd find]. rewrite run_cons. cbn [snd handle].
  change (map (fun p => ConnMessage (fst p) (snd p)) rest) with (inbound rest).
  rewrite starts_app, handle_starts.
  assert (Hbase : clockBase m s = 0).
  { unfold clockBase. now destruct (msgInterrupted m). }
  destruct (hasAudio m) eqn:Ha.
  - rewrite (plays_audio m s Ha Hc), Hbase. reflexivity.
  - rewrite (plays_silent m s Ha). cbn [app].
    apply (IH _ ctx).
    + now rewrite handle_nextStartTime, (plays_silent m s Ha).
    + now rewrite handle_outputAudioContext.
Qed.

Lemma upToInterruption_after m s :
  after (upToInterruption m s)
  = afterInterrupted m (afterTurn m (afterOutput m (afterInput m s))).
Proof.
  assert (H : returns (upToInterruption m s)
                (afterInterrupted m (afterTurn m (afterOutput m (afterInput m s))))
                (updateFor Victime (currentInputTranscription s) (msgInputTranscription m)
                 ++ updateFor IA (currentOutputTranscription (afterInput m s))
                      (msgOutputTranscription m)
                 ++ turnEffects m (afterOutput m (afterInput m s))
                 ++ interruptedEffects m (afterTurn m (afterOutput m (afterInput m s))))).
  { unfold upToInterruption.
    eapply andThen_returns; [apply inputTranscriptionBlock_returns|].
    eapply andThen_returns; [apply outputTranscriptionBlock_returns|].
    eapply andThen_returns; [apply turnCompleteBlock_returns|].
    apply interruptedBlock_returns. }
  now rewrite H.
Qed.

Lemma andThen_assoc (a b c : Action) (s : Service) :
  ((a ;; b) ;; c) s = (a ;; b ;; c) s.
Proof.
  unfold andThen. destruct (a s) as [s1 es1 [e|]]; [reflexivity|].
  destruct (b s1) as [s2 es2 [e|]]; [reflexivity|].
  destruct (c s2) as [s3 es3 t]. now rewrite app_assoc.
Qed.

Lemma andThen_ext (a b b' : Action) (s : Service) :
  (forall s', b s' = b' s') -> (a ;; b) s = (a ;; b') s.
Proof.
  intros H. unfold andThen. destruct (a s) as [s1 es1 [e|]]; [reflexivity|].
  now rewrite H.
Qed.

(** The handler is that prefix followed by the audio block. *)
Lemma handleServerMessage_split m env s :
  handleServerMessage m env s = (upToInterruption m ;; audioBlock m env) s.
Proof.
  unfold handleServerMessage, upToInterruption.
  rewrite andThen_assoc. apply andThen_ext. intros s1.
  rewrite andThen_assoc. apply andThen_ext. intros s2.
  now rewrite andThen_assoc.
Qed.

(** ** The asynchronous handlers and their pieces *)

Lemma andThen_skip_r (a : Action) (s : Service) : (a ;; skip) s = a s.
Proof.
  unfold andThen, skip. destruct (a s) as [s1 es1 [e|]]; [reflexivity|].
  now rewrite app_nil_r.
Qed.

Lemma andThen_from (a b : Action) (s s1 : Service) (es1 : list Effect) :
  returns (a s) s1 es1 ->
  (a ;; b) s = {| after := after (b s1); effects := es1 ++ effects (b s1);
                  thrown := thrown (b s1) |}.
Proof. unfold returns, andThen. intros ->. now destruct (b s1). Qed.

Lemma upToInterruption_returns m s :
  returns (upToInterruption m s)
    (afterInterrupted m (afterTurn m (afterOutput m (afterInput m s))))
    (updateFor Victime (currentInputTranscription s) (msgInputTranscription m)
     ++ updateFor IA (currentOutputTranscription (afterInput m s))
          (msgOutputTranscription m)
     ++ turnEffects m (afterOutput m (afterInput m s))
     ++ interruptedEffects m (afterTurn m (afterOutput m (afterInput m s)))).
Proof.
  unfold upToInterruption.
  eapply andThen_returns; [apply inputTranscriptionBlock_returns|].
  eapply andThen_returns; [apply outputTranscriptionBlock_returns|].
  eapply andThen_returns; [apply turnCompleteBlock_returns|].
  apply interruptedBlock_returns.
Qed.

Lemma upToInterruption_then m (k : Action) s :
  (upToInterruption m ;; k) s
  = (inputTranscriptionBlock m ;; outputTranscriptionBlock m ;;
     turnCompleteBlock m ;; interruptedBlock m ;; k) s.
Proof.
  unfold upToInterruption.
  rewrite andThen_assoc. apply andThen_ext. intros s1.
  rewrite andThen_assoc. apply andThen_ext. intros s2.
  now rewrite andThen_assoc.
Qed.

(** The audio block is its first half, followed by [afterDecode] when the
    decoder was called. *)
Lemma audioBlock_halves m env s :
  audioBlock m env s
  = (audioBegin m env ;; (if plays m s then afterDecode env else skip)) s.
Proof.
  destruct s as [se sp ms ic oc pr sn os nst cit cot al].
  unfold audioBlock, audioBegin, plays, playable. cbn.
  destruct (base64Audio m) as [audio|]; [|reflexivity].
  cbn. destruct (truthy audio); [|destruct oc; reflexivity].
  destruct oc as [ctx|]; reflexivity.
Qed.

(** [handleServerMessage] is [beforeDecode], followed by [afterDecode] when
    the handler suspended: the run in which nothing happens during the
    decode. *)
Lemma handleServerMessage_halves m env s :
  handleServerMessage m env s
  = (beforeDecode m env ;; (if plays m s then afterDecode env else skip)) s.
Proof.
  rewrite handleServerMessage_split.
  transitivity ((upToInterruption m ;;
                 (audioBegin m env ;; (if plays m s then afterDecode env else skip))) s).
  - rewrite (@andThen_from (upToInterruption m) (audioBlock m env) s _ _
               (upToInterruption_returns m s)).
    rewrite (@andThen_from (upToInterruption m)
               (audioBegin m env ;; (if plays m s then afterDecode env else skip))
               s _ _ (upToInterruption_returns m s)).
    rewrite audioBlock_halves, plays_blocks. reflexivity.
  - rewrite upToInterruption_then. unfold beforeDecode.
    symmetry.
    rewrite andThen_assoc. apply andThen_ext. intros s1.
    rewrite andThen_assoc. apply andThen_ext. intros s2.
    rewrite andThen_assoc. apply andThen_ext. intros s3.
    now rewrite andThen_assoc.
Qed.

(** A message that does not reach the decoder is handled in one piece. *)
Lemma beforeDecode_whole m env s :
  plays m s = false -> beforeDecode m env s = handleServerMessage m env s.
Proof.
  intros Hp. rewrite handleServerMessage_halves, Hp. now rewrite andThen_skip_r.
Qed.

(** [startSession] is its three pieces in order: the run in which nothing
    happens while the microphone and the connection are awaited. *)
Lemma startSession_pieces env s :
  startSession env s
  = (startCall ;; startAfterMedia env ;;
     (if reachesConnect env then startAfterConnect env else skip)) s.
Proof.
  destruct env as [um ice oce conn]. destruct s.
  unfold startSession, startCall, startAfterMedia, startAfterConnect, reachesConnect,
    catchBlock, tryCatch, newAudioContext, await, create, andThen.
  destruct um as [stream|e]; cbn -[cleanup liveConfig];
    [|rewrite cleanup_run; cbn; now rewrite ?app_nil_r].
  destruct ice as [e|]; cbn -[cleanup liveConfig];
    [rewrite cleanup_run; cbn; now rewrite ?app_nil_r|].
  destruct oce as [e|]; cbn -[cleanup liveConfig];
    [rewrite cleanup_run; cbn; now rewrite ?app_nil_r|].
  destruct conn as [sess|e]; cbn -[cleanup liveConfig]; [reflexivity|].
  rewrite cleanup_run. reflexivity.
Qed.

(** The pieces in closed form. *)

Lemma audioBegin_returns m env s :
  returns (audioBegin m env s) (afterBegin m env s) (beginEffects m s).
Proof.
  destruct s as [se sp ms ic oc pr sn os nst cit cot al].
  unfold returns, audioBegin, afterBegin, beginEffects, plays, playable. cbn.
  destruct (base64Audio m) as [audio|]; [|reflexivity].
  cbn. destruct (truthy audio); [|destruct oc; reflexivity].
  destruct oc as [ctx|]; reflexivity.
Qed.

Lemma beforeDecode_split m env s :
  beforeDecode m env s = (upToInterruption m ;; audioBegin m env) s.
Proof. symmetry. apply upToInterruption_then. Qed.

Lemma beforeDecode_returns m env s :
  let s4 := afterInterrupted m (afterTurn m (afterOutput m (afterInput m s))) in
  returns (beforeDecode m env s) (afterBegin m env s4)
    ((updateFor Victime (currentInputTranscription s) (msgInputTranscription m)
      ++ updateFor IA (currentOutputTranscription (afterInput m s))
           (msgOutputTranscription m)
      ++ turnEffects m (afterOutput m (afterInput m s))
      ++ interruptedEffects m (afterTurn m (afterOutput m (afterInput m s))))
     ++ beginEffects m s4).
Proof.
  cbv zeta. unfold returns. rewrite beforeDecode_split.
  eapply andThen_returns; [apply upToInterruption_returns|apply audioBegin_returns].
Qed.

Lemma afterDecode_run env s :
  afterDecode env s
  = match outputAudioContext s with
    | Some ctx =>
        {| after := afterResume env s; effects := resumeEffects ctx env s;
           thrown := None |}
    | None =>
        {| after := s; effects := []; thrown := Some (ErrorObject "TypeError") |}
    end.
Proof.
  destruct s as [se sp ms ic oc pr sn os nst cit cot al].
  unfold afterDecode, read. cbn. destruct oc as [ctx|]; reflexivity.
Qed.

(** Without a playback context, the resumed handler throws at once: it
    changes nothing and calls nothing. *)
Lemma afterDecode_without_context env s :
  outputAudioContext s = None ->
  after (afterDecode env s) = s /\
  effects (afterDecode env s) = [] /\
  exists message, thrown (afterDecode env s) = Some (ErrorObject message).
Proof.
  intros Hc. rewrite afterDecode_run, Hc. cbn. repeat split. now eexists.
Qed.

Lemma afterDecode_with_context env s ctx :
  outputAudioContext s = Some ctx ->
  afterDecode env s
  = {| after := afterResume env s; effects := resumeEffects ctx env s;
       thrown := None |}.
Proof. intros Hc. now rewrite afterDecode_run, Hc. Qed.

(** The fields after [beforeDecode]. *)

Lemma afterBegin_outputAudioContext m env s :
  outputAudioContext (afterBegin m env s) = outputAudioContext s.
Proof. unfold afterBegin. destruct (plays m s), s; reflexivity. Qed.

Lemma afterBegin_nextStartTime m env s :
  nextStartTime (afterBegin m env s)
  = if plays m s then Z.max (nextStartTime s) (currentTime env) else nextStartTime s.
Proof. unfold afterBegin. destruct (plays m s), s; reflexivity. Qed.

Lemma afterBegin_outputSources m env s :
  outputSources (afterBegin m env s) = outputSources s.
Proof. unfold afterBegin. destruct (plays m s), s; reflexivity. Qed.

Lemma afterBegin_allocated m env s :
  allocated (afterBegin m env s) = allocated s.
Proof. unfold afterBegin. destruct (plays m s), s; reflexivity. Qed.

Lemma afterBegin_handles m env s : handles (afterBegin m env s) = handles s.
Proof. unfold afterBegin. destruct (plays m s), s; reflexivity. Qed.

Lemma afterBegin_buffer sp m env s : buffer sp (afterBegin m env s) = buffer sp s.
Proof. unfold afterBegin. destruct (plays m s), s, sp; reflexivity. Qed.

Ltac run_before m env s :=
  let H := fresh "H" in
  pose proof (beforeDecode_returns m env s) as H;
  cbv zeta in H; unfold returns in H; rewrite H; clear H;
  cbn [after effects thrown].

Lemma before_outputAudioContext m env s :
  outputAudioContext (after (beforeDecode m env s)) = outputAudioContext s.
Proof. run_before m env s. rewrite afterBegin_outputAudioContext. now autorewrite with fields. Qed.

Lemma before_nextStartTime m env s :
  nextStartTime (after (beforeDecode m env s))
  = if plays m s then Z.max (clockBase m s) (currentTime env) else clockBase m s.
Proof.
  run_before m env s. rewrite afterBegin_nextStartTime, plays_blocks.
  autorewrite with fields. unfold clockBase. now autorewrite with fields.
Qed.

Lemma before_outputSources m env s :
  outputSources (after (beforeDecode m env s)) = liveBase m s.
Proof.
  run_before m env s. rewrite afterBegin_outputSources.
  autorewrite with fields. unfold liveBase. now autorewrite with fields.
Qed.

Lemma before_allocated m env s :
  allocated (after (beforeDecode m env s)) = allocated s.
Proof. run_before m env s. rewrite afterBegin_allocated. now autorewrite with fields. Qed.

Lemma before_buffer sp m env s :
  buffer sp (after (beforeDecode m env s))
  = if msgTurnComplete m then EmptyString else appended (buffer sp s) (partialOf sp m).
Proof.
  run_before m env s. rewrite afterBegin_buffer.
  destruct sp; cbn [buffer partialOf]; now autorewrite with fields.
Qed.

(** The trace of [beforeDecode], read through the readers. *)

Lemma beginEffects_starts m s : starts (beginEffects m s) = [].
Proof. unfold beginEffects. destruct (playable m s) as [[? ?]|]; reflexivity. Qed.

Lemma beginEffects_buffers m s : buffers (beginEffects m s) = [].
Proof. unfold beginEffects. destruct (playable m s) as [[? ?]|]; reflexivity. Qed.

Lemma beginEffects_stops m s : stops (beginEffects m s) = [].
Proof. unfold beginEffects. destruct (playable m s) as [[? ?]|]; reflexivity. Qed.

Lemma beginEffects_updates sp m s : updates sp (beginEffects m s) = [].
Proof. unfold beginEffects. destruct (playable m s) as [[? ?]|]; reflexivity. Qed.

Lemma before_starts m env s : starts (effects (beforeDecode m env s)) = [].
Proof.
  run_before m env s. rewrite starts_app, beginEffects_starts.
  now autorewrite with traces.
Qed.

Lemma before_buffers m env s : buffers (effects (beforeDecode m env s)) = [].
Proof.
  run_before m env s. rewrite buffers_app, beginEffects_buffers.
  now autorewrite with traces.
Qed.

Lemma before_stops m env s :
  stops (effects (beforeDecode m env s))
  = if msgInterrupted m then outputSources s else [].
Proof.
  run_before m env s. rewrite stops_app, beginEffects_stops.
  autorewrite with traces. now autorewrite with fields.
Qed.

(** The steps of a run, one at a time. *)

Lemma runSteps_cons st sts s :
  runSteps (st :: sts) s
  = (fst (runSteps sts (after (perform st s))),
     effects (perform st s) ++ snd (runSteps sts (after (perform st s)))).
Proof. cbn [runSteps]. destruct (runSteps sts (after (perform st s))); reflexivity. Qed.

Lemma runSteps_app sts1 sts2 s :
  runSteps (sts1 ++ sts2) s
  = (fst (runSteps sts2 (fst (runSteps sts1 s))),
     snd (runSteps sts1 s) ++ snd (runSteps sts2 (fst (runSteps sts1 s)))).
Proof.
  revert s. induction sts1 as [|st sts1 IH]; intros s.
  { cbn. now destruct (runSteps sts2 s). }
  cbn [app]. rewrite !runSteps_cons, IH. cbn [fst snd]. now rewrite app_assoc.
Qed.

(** Handlers that are never overtaken: [runSteps] is [run]. *)
Lemma runSteps_Whole evs s : runSteps (map Whole evs) s = run evs s.
Proof.
  revert s. induction evs as [|ev evs IH]; intros s; [reflexivity|].
  cbn [map]. rewrite runSteps_cons, run_cons. cbn [perform]. now rewrite IH.
Qed.

(** A message handled in one piece is its arrival followed, when it reached
    the decoder, by the completion of the decode. *)
Lemma message_in_one_piece m env s :
  let arrived := beforeDecode m env s in
  after (handleServerMessage m env s)
  = (if plays m s then after (afterDecode env (after arrived)) else after arrived) /\
  effects (handleServerMessage m env s)
  = effects arrived
    ++ (if plays m s then effects (afterDecode env (after arrived)) else []).
Proof.
  cbv zeta. rewrite handleServerMessage_halves.
  pose proof (beforeDecode_returns m env s) as H. cbv zeta in H.
  rewrite (@andThen_from (beforeDecode m env)
             (if plays m s then afterDecode env else skip) s _ _ H).
  unfold returns in H. rewrite H. cbn [after effects].
  destruct (plays m s); cbn [after effects skip]; auto.
Qed.

(** With a playback context, the messages handled in turn are the messages
    handled in one piece each. *)
Lemma runSteps_inTurn msgs : forall s ctx,
  outputAudioContext s = Some ctx ->
  runSteps (inTurn msgs) s = run (inbound msgs) s.
Proof.
  induction msgs as [|[m env] rest IH]; intros s ctx Hc; [reflexivity|].
  cbn [inTurn flat_map inbound map fst snd]. fold (inTurn rest).
  change (map (fun p => ConnMessage (fst p) (snd p)) rest) with (inbound rest).
  rewrite run_cons. cbn [handle].
  destruct (message_in_one_piece m env s) as (Ha & He). rewrite Ha, He.
  assert (Hc' : outputAudioContext (after (beforeDecode m env s)) = Some ctx)
    by now rewrite before_outputAudioContext.
  cbn [app]. rewrite runSteps_cons. cbn [perform].
  destruct (hasAudio m) eqn:Haudio.
  - rewrite (plays_audio m s Haudio Hc). cbn [app]. rewrite runSteps_cons. cbn [perform].
    rewrite (IH _ ctx); [now rewrite <- app_assoc|].
    rewrite (afterDecode_with_context env _ Hc'). cbn [after].
    unfold afterResume. now destruct (after (beforeDecode m env s)).
  - rewrite (plays_silent m s Haudio). cbn [app].
    rewrite (IH _ ctx Hc'). now rewrite app_nil_r.
Qed.

(** ** Chunks, however their decodes interleave *)

Lemma offsetsFrom_offsets t ds :
  offsetsFrom t ds = map (fun o => t + o) (offsets ds).
Proof. rewrite offsetsFrom_sums. unfold offsets. now rewrite map_map. Qed.

Lemma offsetsFrom_not_before t ds :
  Forall (fun d => 0 <= d) ds -> Forall (fun start => t <= start) (offsetsFrom t ds).
Proof.
  revert t. induction ds as [|d ds IH]; intros t Hall; [constructor|].
  inversion Hall as [|? ? Hd Hrest]; subst. cbn [offsetsFrom].
  constructor; [lia|].
  eapply Forall_impl; [|apply (IH (t + d) Hrest)].
  cbn. intros start Hle. lia.
Qed.

(** Units that start where the previous one ends never overlap. *)
Lemma offsetsFrom_nonOverlapping t ds :
  Forall (fun d => 0 <= d) ds -> nonOverlapping (combine (offsetsFrom t ds) ds).
Proof.
  revert t. induction ds as [|d ds IH]; intros t Hall; [constructor|].
  inversion Hall as [|? ? Hd Hrest]; subst. cbn [offsetsFrom combine].
  constructor; [|apply (IH _ Hrest)].
  apply Forall_combine_fst with (P := fun start => t + d <= start).
  now apply offsetsFrom_not_before.
Qed.

Lemma decoded_nonneg sts :
  Forall chunkStep sts -> Forall (fun d => 0 <= d) (decoded sts).
Proof.
  induction 1 as [|st sts Hst _ IH]; [constructor|].
  cbn [decoded flat_map]. fold (decoded sts).
  destruct st as [[env| | |m env|msg| |src]|m env|env| |env|env];
    cbn [chunkStep] in Hst; try contradiction; cbn [app].
  - constructor; [|exact IH]. apply Hst.
  - exact IH.
  - constructor; [exact Hst|exact IH].
Qed.

(** While the clock is never ahead of the schedule, each completed decode
    starts its unit where the previous unit ends. *)
Lemma chunk_steps sts : forall s ctx,
  outputAudioContext s = Some ctx ->
  Forall chunkStep sts ->
  onSchedule (nextStartTime s) sts ->
  buffers (snd (runSteps sts s)) = decoded sts /\
  starts (snd (runSteps sts s)) = offsetsFrom (nextStartTime s) (decoded sts) /\
  nextStartTime (fst (runSteps sts s)) = nextStartTime s + sumZ (decoded sts).
Proof.
  induction sts as [|st sts IH]; intros s ctx Hc Hall Hclock.
  { cbn. repeat split. lia. }
  inversion Hall as [|? ? Hst Hrest]; subst.
  rewrite runSteps_cons. cbn [fst snd].
  rewrite buffers_app, starts_app.
  cbn [decoded flat_map]. fold (decoded sts).
  destruct st as [[env| | |m env|msg| |src]|m env|env| |env|env];
    cbn [chunkStep] in Hst; try contradiction; cbn [perform handle onSchedule] in *.
  - (* a chunk handled in one piece *)
    destruct Hst as (Ha & Hi & Hd). cbn [fst snd] in *.
    destruct Hclock as (Hnow & Hlater).
    destruct (handle_chunk m env s Ha Hi Hc) as (Hs & Hn & Hc').
    rewrite handle_buffers, (plays_audio m s Ha Hc), Hs.
    replace (Z.max (nextStartTime s) (currentTime env)) with (nextStartTime s) in * by lia.
    rewrite <- Hn in Hlater.
    destruct (IH _ ctx Hc' Hrest Hlater) as (IHb & IHs & IHn).
    rewrite IHb, IHs, IHn, Hn. cbn [app offsetsFrom sumZ fold_right].
    repeat split. unfold sumZ. lia.
  - (* a chunk arrives *)
    destruct Hst as (Ha & Hi). destruct Hclock as (Hnow & Hlater).
    assert (Hn : nextStartTime (after (beforeDecode m env s)) = nextStartTime s).
    { rewrite before_nextStartTime, (plays_audio m s Ha Hc).
      unfold clockBase. rewrite Hi. lia. }
    assert (Hc' : outputAudioContext (after (beforeDecode m env s)) = Some ctx)
      by now rewrite before_outputAudioContext.
    rewrite <- Hn in Hlater.
    destruct (IH _ ctx Hc' Hrest Hlater) as (IHb & IHs & IHn).
    rewrite before_buffers, before_starts, IHb, IHs, IHn, Hn. auto.
  - (* a decode completes *)
    rewrite (afterDecode_with_context env s Hc). cbn [after effects].
    assert (Hn : nextStartTime (afterResume env s) = nextStartTime s + duration env)
      by (destruct s; reflexivity).
    assert (Hc' : outputAudioContext (afterResume env s) = Some ctx)
      by (destruct s; exact Hc).
    rewrite <- Hn in Hclock.
    destruct (IH _ ctx Hc' Hrest Hclock) as (IHb & IHs & IHn).
    rewrite IHb, IHs, IHn, Hn. cbn [app offsetsFrom sumZ fold_right].
    repeat split. unfold sumZ. lia.
Qed.

(** A chunk handled in one piece is its arrival followed by the completion
    of its decode. *)
Lemma runSteps_chunk_in_one_piece m env rest s ctx :
  outputAudioContext s = Some ctx ->
  hasAudio m = true ->
  runSteps (Whole (ConnMessage m env) :: rest) s
  = runSteps (MessageArrives m env :: DecodeCompletes env :: rest) s.
Proof.
  intros Hc Ha. rewrite !runSteps_cons. cbn [perform handle fst snd].
  destruct (message_in_one_piece m env s) as (Hafter & Heffects).
  rewrite Hafter, Heffects, (plays_audio m s Ha Hc). now rewrite <- app_assoc.
Qed.

(** C1, as the code has it.  Chunks with no interruption signal, on a
    service with a playback context, whatever the interleaving of arrivals
    and decodes.  Let [base] be the clock the first chunk leaves:
    [max nextStartTime currentTime] at its arrival.  If at every later
    arrival the output clock is at most the time up to which units are
    scheduled so far, then the sources get the decoded buffers in the order
    the decodes complete, unit [i] starts at [base] plus the durations of the
    units before it, the clock ends at [base] plus all durations, and no unit
    starts before an earlier one has ended.  The starts are the plain sums
    [d1 + ... + d(i-1)] when [base] is 0. *)
Theorem chunks_play_back_to_back
    (s : Service) (ctx : AudioContext) (m : LiveServerMessage) (env : AudioEnv)
    (sts : list Step) :
  outputAudioContext s = Some ctx ->
  chunkStep (MessageArrives m env) ->
  Forall chunkStep sts ->
  let base := Z.max (nextStartTime s) (currentTime env) in
  onSchedule base sts ->
  let final := runSteps (MessageArrives m env :: sts) s in
  buffers (snd final) = decoded sts /\
  starts (snd final) = map (fun o => base + o) (offsets (decoded sts)) /\
  nextStartTime (fst final) = base + sumZ (decoded sts) /\
  nonOverlapping (combine (starts (snd final)) (buffers (snd final))).
Proof.
  intros Hctx (Ha & Hi) Hall. cbv zeta. intros Hclock.
  rewrite runSteps_cons. cbn [perform fst snd].
  rewrite buffers_app, starts_app, before_buffers, before_starts. cbn [app].
  assert (Hn : nextStartTime (after (beforeDecode m env s))
               = Z.max (nextStartTime s) (currentTime env)).
  { rewrite before_nextStartTime, (plays_audio m s Ha Hctx).
    unfold clockBase. now rewrite Hi. }
  assert (Hc' : outputAudioContext (after (beforeDecode m env s)) = Some ctx)
    by now rewrite before_outputAudioContext.
  rewrite <- Hn in Hclock |- *.
  destruct (chunk_steps _ Hc' Hall Hclock) as (Hb & Hs & Hend).
  split; [exact Hb|]. split; [|split].
  - now rewrite Hs, offsetsFrom_offsets.
  - exact Hend.
  - rewrite Hs, Hb. apply offsetsFrom_nonOverlapping. now apply decoded_nonneg.
Qed.

Lemma chunks_play_back_to_back_witness :
  let final :=
    runSteps (MessageArrives (audioMessage "UklGRg==") (at_ 3 2) :: steadySteps)
             startedSession in
  buffers (snd final) = [2; 3; 1] /\
  starts (snd final) = [3; 5; 8] /\
  nextStartTime (fst final) = 9 /\
  nonOverlapping (combine (starts (snd final)) (buffers (snd final))).
Proof.
  apply (@chunks_play_back_to_back startedSession
           {| contextId := 1; sampleRate := 24000 |}
           (audioMessage "UklGRg==") (at_ 3 2) steadySteps).
  - reflexivity.
  - split; reflexivity.
  - repeat constructor; cbn; lia.
  - cbn. lia.
Defined.

(** C1 fails outside these conditions.  From a clock at 0, with the output
    clock at 0 and 1 when the two chunks of [twoChunks] arrive (never past the
    sums 0 and 2): when the second chunk arrives while the first is being
    decoded, the units start at 1 and 3, not at 0 and 2.  And a session
    started again on the same service finds the clock the previous session
    left: its two units start at 5 and 7 of a playback clock that began
    at 0. *)
Lemma chunks_start_off_the_sums :
  (messagesOf overtakenChunks = twoChunks /\
   Forall isChunk twoChunks /\
   Forall2 notPast twoChunks (offsets (durations twoChunks)) /\
   nextStartTime startedSession = 0 /\
   offsets (durations twoChunks) = [0; 2] /\
   starts (snd (runSteps overtakenChunks startedSession)) = [1; 3]) /\
  starts (snd (run restartedSession newService)) = [0; 2; 5; 7].
Proof.
  split; [|reflexivity].
  split; [reflexivity|]. split; [repeat constructor; cbn; lia|].
  split; [repeat constructor; unfold notPast; cbn; lia|].
  repeat split.
Qed.

(** C2, as the code has it.  A message with the interruption flag stops
    every source of the live set, in order, and its interruption branch
    leaves the set empty and the clock at zero; when the handler suspends or
    ends, the set is still empty and the clock is [max 0 currentTime] if the
    message itself carries a chunk, 0 otherwise.  When every decode completes
    before the next message arrives, the first unit started from then on, by
    this message or by a later one, starts at [max 0 currentTime] of its own
    message, whatever the clock was before.  The decode that completes first
    after the message, be it one that was in flight when the interruption
    arrived, starts its unit at the clock the handler left, whatever the
    output clock is by then; that unit is not stopped and it joins the live
    set. *)
Theorem interruption_clears_playback
    (s : Service) (ctx : AudioContext) (m : LiveServerMessage) (env : AudioEnv)
    (later : list Inbound) :
  msgInterrupted m = true ->
  outputAudioContext s = Some ctx ->
  let arrived := beforeDecode m env s in
  let r := handleServerMessage m env s in
  (stops (effects arrived) = outputSources s /\
   outputSources (after (upToInterruption m s)) = [] /\
   nextStartTime (after (upToInterruption m s)) = 0 /\
   outputSources (after arrived) = [] /\
   nextStartTime (after arrived)
     = (if hasAudio m then Z.max 0 (currentTime env) else 0)) /\
  (r = (upToInterruption m ;; audioBlock m env) s /\
   stops (effects r) = outputSources s /\
   outputSources (after r) = (if hasAudio m then [allocated s] else []) /\
   nextStartTime (after r)
     = (if hasAudio m then Z.max 0 (currentTime env) + duration env else 0) /\
   hd_error (starts (snd (runSteps (inTurn ((m, env) :: later)) s)))
     = option_map (fun p => Z.max 0 (currentTime (snd p)))
         (find (fun p => hasAudio (fst p)) ((m, env) :: later))) /\
  (forall env' : AudioEnv,
     let resumed := afterDecode env' (after arrived) in
     starts (effects resumed)
       = [if hasAudio m then Z.max 0 (currentTime env) else 0] /\
     stops (effects resumed) = [] /\
     outputSources (after resumed) = [allocated s]).
Proof.
  intros Hi Hc. cbv zeta.
  assert (Hplays : plays m s = hasAudio m).
  { destruct (hasAudio m) eqn:Ha;
      [apply (plays_audio m s Ha Hc)|apply (plays_silent m s Ha)]. }
  assert (Hclock : nextStartTime (after (beforeDecode m env s))
                   = if hasAudio m then Z.max 0 (currentTime env) else 0).
  { rewrite before_nextStartTime, Hplays. unfold clockBase. now rewrite Hi. }
  assert (Hlive : outputSources (after (beforeDecode m env s)) = []).
  { rewrite before_outputSources. unfold liveBase. now rewrite Hi. }
  split; [|split].
  - rewrite before_stops, upToInterruption_after, Hi.
    autorewrite with fields. unfold clockBase, liveBase. rewrite Hi. auto.
  - split; [apply handleServerMessage_split|].
    rewrite handle_stops, handle_outputSources, handle_nextStartTime, Hplays, Hi.
    unfold clockBase, liveBase. rewrite Hi.
    rewrite (runSteps_inTurn ((m, env) :: later) s Hc).
    cbn [inbound map fst snd find]. rewrite run_cons. cbn [snd handle].
    change (map (fun p => ConnMessage (fst p) (snd p)) later) with (inbound later).
    rewrite starts_app, handle_starts, Hplays. unfold clockBase. rewrite Hi.
    destruct (hasAudio m) eqn:Ha; repeat split; try reflexivity.
    cbn [app]. apply (first_start_from_zero later _ (ctx := ctx)).
    + rewrite handle_nextStartTime, Hplays. unfold clockBase. now rewrite Hi.
    + now rewrite handle_outputAudioContext.
  - intros env'.
    assert (Hc' : outputAudioContext (after (beforeDecode m env s)) = Some ctx)
      by now rewrite before_outputAudioContext.
    rewrite (afterDecode_with_context env' _ Hc'). cbn [after effects].
    unfold resumeEffects, afterResume. cbn [starts stops flat_map app].
    rewrite Hclock.
    assert (Ha : allocated (after (beforeDecode m env s)) = allocated s)
      by apply before_allocated.
    destruct (after (beforeDecode m env s)); cbn in *. subst. auto.
Qed.

Lemma interruption_clears_playback_witness :
  let arrived := beforeDecode interruptedMessage (at_ 1 0) liveSession in
  let r := handleServerMessage interruptedMessage (at_ 1 0) liveSession in
  let later := [ (inputMessage "Non", at_ 2 0); (audioMessage "UklGRg==", at_ 4 2) ] in
  (stops (effects arrived) = [5%nat; 6%nat] /\
   outputSources (after (upToInterruption interruptedMessage liveSession)) = [] /\
   nextStartTime (after (upToInterruption interruptedMessage liveSession)) = 0 /\
   outputSources (after arrived) = [] /\
   nextStartTime (after arrived) = 0) /\
  (r = (upToInterruption interruptedMessage ;; audioBlock interruptedMessage (at_ 1 0))
         liveSession /\
   stops (effects r) = [5%nat; 6%nat] /\
   outputSources (after r) = [] /\
   nextStartTime (after r) = 0 /\
   hd_error (starts (snd (runSteps (inTurn ((interruptedMessage, at_ 1 0) :: later))
                                   liveSession)))
     = Some 4) /\
  (forall env' : AudioEnv,
     let resumed := afterDecode env' (after arrived) in
     starts (effects resumed) = [0] /\
     stops (effects resumed) = [] /\
     outputSources (after resumed) = [7%nat]).
Proof.
  exact (@interruption_clears_playback liveSession
           {| contextId := 1; sampleRate := 24000 |}
           interruptedMessage (at_ 1 0)
           [ (inputMessage "Non", at_ 2 0); (audioMessage "UklGRg==", at_ 4 2) ]
           eq_refl eq_refl).
Defined.

(** C2 fails for a decode in flight.  On [liveSession], whose clock is at 5
    and whose live set holds the sources 5 and 6, a chunk arrives when the
    output clock is at 1, and the interruption arrives while that chunk is
    being decoded.  The interruption stops 5 and 6 and resets the clock; the
    decode then completes and its unit, source 7, starts at 0: not at
    [max 0 1], the output clock.  It was never stopped and it is in the live
    set when the run ends. *)
Lemma decode_in_flight_outlives_interruption :
  let final := runSteps bargeInDuringDecode liveSession in
  nextStartTime liveSession = 5 /\
  outputSources liveSession = [5%nat; 6%nat] /\
  stops (snd final) = [5%nat; 6%nat] /\
  starts (snd final) = [0] /\
  starts (snd final) <> [Z.max 0 1] /\
  outputSources (fst final) = [7%nat] /\
  ~ In 7%nat (stops (snd final)).
Proof.
  cbv zeta. repeat split; try reflexivity.
  - vm_compute. discriminate.
  - vm_compute. intros [H|[H|[]]]; discriminate.
Qed.

(** ** Transcript aggregation *)

Lemma append_empty_r (a : string) : (a ++ EmptyString)%string = a.
Proof. induction a as [|c a IH]; cbn; [reflexivity|now rewrite IH]. Qed.

Lemma append_assoc (a b c : string) : ((a ++ b) ++ c)%string = (a ++ (b ++ c))%string.
Proof. induction a as [|x a IH]; cbn; [reflexivity|now rewrite IH]. Qed.

Lemma updates_updateFor sp sp' b tr :
  updates sp (updateFor sp' b tr)
  = if speaker_eqb sp' sp
    then match tr with Some t => [((b ++ text t)%string, false)] | None => [] end
    else [].
Proof. destruct tr; cbn; destruct (speaker_eqb sp' sp); reflexivity. Qed.

Lemma handle_updates sp m env s :
  updates sp (effects (handleServerMessage m env s))
  = match partialOf sp m with
    | Some t => [((buffer sp s ++ text t)%string, false)]
    | None => []
    end.
Proof.
  run_handler m env s. autorewrite with traces. rewrite !updates_updateFor.
  autorewrite with fields.
  destruct sp; cbn [speaker_eqb partialOf buffer]; now autorewrite with traces.
Qed.

Lemma handle_buffer sp m env s :
  buffer sp (after (handleServerMessage m env s))
  = if msgTurnComplete m then EmptyString
    else appended (buffer sp s) (partialOf sp m).
Proof.
  destruct sp; cbn [buffer partialOf];
    [apply handle_currentInputTranscription|apply handle_currentOutputTranscription].
Qed.

Lemma turnEffects_turnCompletes sp m s :
  turnCompletes sp (turnEffects m s)
  = if msgTurnComplete m && truthy (buffer sp s) then 1%nat else 0%nat.
Proof.
  unfold turnEffects.
  destruct sp, (msgTurnComplete m); cbn [buffer andb];
    destruct (truthy (currentInputTranscription s)),
             (truthy (currentOutputTranscription s)); reflexivity.
Qed.

Lemma handle_turnCompletes sp m env s :
  turnCompletes sp (effects (handleServerMessage m env s))
  = if msgTurnComplete m && truthy (appended (buffer sp s) (partialOf sp m))
    then 1%nat else 0%nat.
Proof.
  run_handler m env s. autorewrite with traces. rewrite turnEffects_turnCompletes.
  destruct sp; cbn [buffer partialOf]; now autorewrite with fields.
Qed.

(** C3. For either speaker, let [pending] be the buffer as the turn-complete
    branch finds it: the speaker's buffer followed by the partial text of the
    same message, if it carries one.  Handling a message calls
    [onTurnComplete] for the speaker once if the message is turn-complete and
    [pending] is non-empty, and not at all otherwise; after a turn-complete
    message the buffer is the empty string. *)
Theorem turn_complete_flushes
    (sp : Speaker) (m : LiveServerMessage) (env : AudioEnv) (s : Service) :
  let r := handleServerMessage m env s in
  let pending := appended (buffer sp s) (partialOf sp m) in
  turnCompletes sp (effects r)
    = (if msgTurnComplete m && truthy pending then 1%nat else 0%nat) /\
  buffer sp (after r) = (if msgTurnComplete m then EmptyString else pending).
Proof.
  cbv zeta. split; [apply handle_turnCompletes|apply handle_buffer].
Qed.

(** Between turn-complete signals the buffer only grows: update [k] carries
    the buffer at the start followed by the first [k] partial texts. *)
Lemma updates_accumulate sp msgs : forall s,
  Forall (fun p => msgTurnComplete (fst p) = false) msgs ->
  updates sp (snd (run (inbound msgs) s))
  = map (fun k => ((buffer sp s ++ joined (firstn (S k) (partials sp msgs)))%string, false))
        (seq 0 (List.length (partials sp msgs))).
Proof.
  induction msgs as [|[m env] rest IH]; intros s Hall; [reflexivity|].
  inversion Hall as [|? ? Htc Hrest]; subst. cbn [fst] in Htc.
  cbn [inbound map fst snd]. rewrite run_cons. cbn [snd handle].
  change (map (fun p => ConnMessage (fst p) (snd p)) rest) with (inbound rest).
  rewrite updates_app, handle_updates, (IH _ Hrest), handle_buffer, Htc.
  cbn [partials flat_map fst]. fold (partials sp rest).
  destruct (partialOf sp m) as [t|]; cbn [appended app]; [|reflexivity].
  cbn [List.length seq map firstn joined fold_right].
  rewrite append_empty_r. f_equal.
  rewrite <- seq_shift, map_map. apply map_ext. intros k.
  cbn [firstn joined fold_right]. now rewrite append_assoc.
Qed.

(** C4. From a state in which the speaker's buffer is empty (as the class
    starts, and as every turn-complete message leaves it), for the messages
    handled until the next turn-complete signal: the [onTranscriptUpdate]
    calls for the speaker are as many as the partial transcripts received for
    that speaker, each has [isFinal = false], and call [k] carries the
    concatenation of the first [k] partial texts. *)
Theorem partial_transcripts_accumulate
    (sp : Speaker) (s : Service) (msgs : list Inbound) :
  buffer sp s = EmptyString ->
  Forall (fun p => msgTurnComplete (fst p) = false) msgs ->
  let texts := partials sp msgs in
  let calls := updates sp (snd (run (inbound msgs) s)) in
  calls = map (fun k => (joined (firstn (S k) texts), false)) (seq 0 (List.length texts)) /\
  List.length calls = List.length texts.
Proof.
  intros Hempty Hall. cbv zeta.
  rewrite (updates_accumulate sp _ Hall), Hempty.
  split; [reflexivity|]. now rewrite length_map, length_seq.
Qed.

Lemma partial_transcripts_accumulate_witness :
  let msgs := [ (inputMessage "B", at_ 0 0); (inputMessage "on", at_ 0 0);
                (outputMessage "Oui", at_ 0 0); (inputMessage "jour", at_ 0 0) ] in
  let turnStart := after (handleServerMessage turnCompleteMessage (at_ 0 0) liveSession) in
  let calls := updates Victime (snd (run (inbound msgs) turnStart)) in
  calls = [ ("B", false); ("Bon", false); ("Bonjour", false) ] /\
  List.length calls = 3%nat.
Proof.
  apply (@partial_transcripts_accumulate Victime
           (after (handleServerMessage turnCompleteMessage (at_ 0 0) liveSession))
           [ (inputMessage "B", at_ 0 0); (inputMessage "on", at_ 0 0);
             (outputMessage "Oui", at_ 0 0); (inputMessage "jour", at_ 0 0) ]).
  - reflexivity.
  - repeat constructor.
Defined.

(** ** Messages after [stopSession] *)

Lemma ofKind_Callback_updateFor sp b tr :
  ofKind Callback (updateFor sp b tr) = updateFor sp b tr.
Proof. destruct tr; reflexivity. Qed.

Lemma ofKind_Callback_turnEffects m s :
  ofKind Callback (turnEffects m s) = turnEffects m s.
Proof.
  unfold turnEffects.
  destruct (msgTurnComplete m), (truthy (currentInputTranscription s)),
    (truthy (currentOutputTranscription s)); reflexivity.
Qed.

(** A service without playback context and with an empty live set stays so,
    and the handler then only calls back. *)
Lemma handle_idle m env s :
  outputAudioContext s = None -> outputSources s = [] ->
  let r := handleServerMessage m env s in
  outputAudioContext (after r) = None /\
  outputSources (after r) = [] /\
  ofKind Playback (effects r) = [] /\
  ofKind Callback (effects r) = effects r.
Proof.
  intros Hc Hs. cbv zeta.
  rewrite handle_outputAudioContext, handle_outputSources, (plays_without_context m s Hc).
  rewrite (handle_playback_idle m env s Hc Hs).
  unfold liveBase. rewrite Hs.
  repeat split; [assumption|now destruct (msgInterrupted m)|].
  run_handler m env s. rewrite !ofKind_app.
  rewrite !ofKind_Callback_updateFor, ofKind_Callback_turnEffects.
  rewrite ofKind_interruptedEffects, ofKind_audioEffects by discriminate.
  unfold interruptedEffects, audioEffects. autorewrite with fields. rewrite Hs.
  assert (Hp : playable m (afterInterrupted m (afterTurn m (afterOutput m (afterInput m s))))
               = None).
  { unfold playable. autorewrite with fields. rewrite Hc.
    destruct (base64Audio m); reflexivity. }
  rewrite Hp. destruct (msgInterrupted m); reflexivity.
Qed.

(** * Further properties of the service *)

(** ** Failures of [startSession] *)

Lemma ofKind_Callback_cleanupEffects s : ofKind Callback (cleanupEffects s) = [].
Proof. apply ofKind_cleanupEffects; discriminate. Qed.

Lemma failedStart_callbacks e calls s :
  ofKind Callback calls = [] ->
  ofKind Callback (effects (failedStart e calls s)) = [OnError (startErrorMessage e)].
Proof.
  intros H. unfold failedStart. cbn [effects]. rewrite ofKind_app, H.
  cbn [app ofKind filter kind kind_eqb].
  change (filter (fun e0 => kind_eqb (kind e0) Callback) (cleanupEffects s))
    with (ofKind Callback (cleanupEffects s)).
  now rewrite ofKind_Callback_cleanupEffects.
Qed.

Lemma released_tornDown s : released (tornDown s) = true.
Proof. reflexivity. Qed.

(** The callbacks and the final state of [startSession], by what fails. *)
Lemma startSession_callbacks_and_release (env : StartEnv) (s : Service) :
  ofKind Callback (effects (startSession env s))
    = match firstFailure env with
      | Some e => [OnError (startErrorMessage e)]
      | None => []
      end /\
  released (after (startSession env s))
    = match firstFailure env with Some _ => true | None => false end.
Proof.
  rewrite startSession_cases. unfold firstFailure.
  destruct (userMedia env) as [stream|e].
  2:{ rewrite failedStart_callbacks by reflexivity. split; reflexivity. }
  destruct (inputContextError env) as [e|]; cbv zeta.
  { rewrite failedStart_callbacks by reflexivity. split; reflexivity. }
  destruct (outputContextError env) as [e|].
  { rewrite failedStart_callbacks by reflexivity. split; reflexivity. }
  destruct (connection env) as [sess|e].
  - destruct s. split; reflexivity.
  - rewrite failedStart_callbacks by reflexivity. split; reflexivity.
Qed.

(** X1. [startSession] never throws.  If a step fails (the microphone, one of
    the two contexts or the connection), it calls [onError] exactly once, with
    the message for what the first failing step threw, calls nothing else
    back, and leaves every handle null and the live set empty.  If no step
    fails it calls nothing back and holds the session. *)
Theorem startSession_reports_first_failure (env : StartEnv) (s : Service) :
  let r := startSession env s in
  thrown r = None /\
  ofKind Callback (effects r)
    = match firstFailure env with
      | Some e => [OnError (startErrorMessage e)]
      | None => []
      end /\
  released (after r) = match firstFailure env with Some _ => true | None => false end /\
  session (after r)
    = match firstFailure env, connection env with
      | None, Resolved sess => Some sess
      | _, _ => None
      end.
Proof.
  cbv zeta. rewrite startSession_cases. unfold firstFailure.
  destruct (userMedia env) as [stream|e].
  2:{ rewrite failedStart_callbacks by reflexivity. repeat split; reflexivity. }
  destruct (inputContextError env) as [e|]; cbv zeta.
  { rewrite failedStart_callbacks by reflexivity. repeat split; reflexivity. }
  destruct (outputContextError env) as [e|].
  { rewrite failedStart_callbacks by reflexivity. repeat split; reflexivity. }
  destruct (connection env) as [sess|e].
  - destruct s. repeat split; reflexivity.
  - rewrite failedStart_callbacks by reflexivity. repeat split; reflexivity.
Qed.

(** ** [stopSession] *)

Lemma cleanupEffects_released s : released s = true -> cleanupEffects s = [].
Proof.
  destruct s as [se sp ms ic oc pr sn os nst cit cot al].
  unfold released, handles, cleanupEffects. cbn.
  destruct se, sp, ms, ic, oc, pr, sn, os; try discriminate. reflexivity.
Qed.

(** X2. [stopSession] asks the session to close exactly when it holds one,
    then tears down; it calls nothing back (the caller learns of the end only
    from the connection's close signal).  A second [stopSession] makes no
    call and changes nothing. *)
Theorem stopSession_closes_once (s : Service) :
  let r := stopSession s in
  thrown r = None /\
  effects r = ifPresent (session s) (fun sess => [SessionClose sess])
              ++ effects (cleanup s) /\
  ofKind Callback (effects r) = [] /\
  released (after r) = true /\
  stopSession (after r) = {| after := after r; effects := []; thrown := None |}.
Proof.
  cbv zeta. rewrite (stopSession_run s), cleanup_run. cbn [after effects thrown].
  repeat split.
  rewrite ofKind_app, ofKind_Callback_cleanupEffects.
  destruct (session s); reflexivity.
Qed.

(** ** The live set *)

Lemma startedSources_app a b :
  startedSources (a ++ b) = startedSources a ++ startedSources b.
Proof. apply flat_map_app. Qed.

Lemma startedSources_map_SourceStop l : startedSources (map SourceStop l) = [].
Proof. induction l as [|x l IH]; cbn; auto. Qed.

Lemma startedSources_map_TrackStop l : startedSources (map TrackStop l) = [].
Proof. induction l as [|x l IH]; cbn; auto. Qed.

Lemma stops_map_TrackStop l : stops (map TrackStop l) = [].
Proof. induction l as [|x l IH]; cbn; auto. Qed.

Lemma startedSources_cleanupEffects s : startedSources (cleanupEffects s) = [].
Proof.
  unfold cleanupEffects. rewrite !startedSources_app, startedSources_map_SourceStop.
  destruct (scriptProcessor s), (sourceNode s), (mediaStream s),
    (inputAudioContext s), (outputAudioContext s); cbn [ifPresent];
    rewrite ?startedSources_map_TrackStop; reflexivity.
Qed.

Lemma stops_cleanupEffects s : stops (cleanupEffects s) = outputSources s.
Proof.
  unfold cleanupEffects. rewrite !stops_app, stops_map_SourceStop.
  destruct (scriptProcessor s), (sourceNode s), (mediaStream s),
    (inputAudioContext s), (outputAudioContext s); cbn [ifPresent];
    rewrite ?stops_map_TrackStop; reflexivity.
Qed.

Lemma startedSources_updateFor sp b tr : startedSources (updateFor sp b tr) = [].
Proof. destruct tr; reflexivity. Qed.

Lemma startedSources_turnEffects m s : startedSources (turnEffects m s) = [].
Proof.
  unfold turnEffects.
  destruct (msgTurnComplete m), (truthy (currentInputTranscription s)),
    (truthy (currentOutputTranscription s)); reflexivity.
Qed.

Lemma startedSources_interruptedEffects m s :
  startedSources (interruptedEffects m s) = [].
Proof.
  unfold interruptedEffects. destruct (msgInterrupted m); [|reflexivity].
  apply startedSources_map_SourceStop.
Qed.

Lemma startedSources_audioEffects m env s :
  startedSources (audioEffects m env s) = if plays m s then [allocated s] else [].
Proof.
  unfold audioEffects, plays. destruct (playable m s) as [[? ?]|]; reflexivity.
Qed.

Lemma handle_startedSources m env s :
  startedSources (effects (handleServerMessage m env s))
  = if plays m s then [allocated s] else [].
Proof.
  run_handler m env s. rewrite !startedSources_app.
  rewrite !startedSources_updateFor, startedSources_turnEffects,
    startedSources_interruptedEffects, startedSources_audioEffects.
  rewrite plays_blocks. now autorewrite with fields.
Qed.

Lemma failedStart_live e calls s s0 :
  stops calls = [] -> startedSources calls = [] ->
  outputSources s = outputSources s0 -> (allocated s0 <= allocated s)%nat ->
  forall ev, LiveStep ev s0 (after (failedStart e calls s)) (effects (failedStart e calls s)).
Proof.
  intros Hs Hst Hos Hal ev. apply LiveClear; unfold failedStart; cbn [after effects].
  - reflexivity.
  - rewrite stops_app, Hs. cbn. now rewrite stops_cleanupEffects.
  - rewrite startedSources_app, Hst. cbn. apply startedSources_cleanupEffects.
  - exact Hal.
Qed.

(** Every handler acts on the live set in one of the five ways. *)
Lemma handle_LiveStep ev s :
  LiveStep ev s (after (handle ev s)) (effects (handle ev s)).
Proof.
  destruct ev as [env| | |m env|msg| |src]; cbn [handle].
  - rewrite startSession_cases.
    destruct (userMedia env) as [stream|e].
    2:{ apply failedStart_live; auto. }
    destruct (inputContextError env) as [e|]; cbv zeta.
    { apply failedStart_live; auto; destruct s; reflexivity. }
    destruct (outputContextError env) as [e|].
    { apply failedStart_live; auto; destruct s; cbn; auto. }
    destruct (connection env) as [sess|e].
    + apply LiveKeep; destruct s; cbn; auto with arith.
    + apply failedStart_live; auto; destruct s; cbn; auto with arith.
  - rewrite (stopSession_run s). cbn [after effects].
    apply LiveClear; [reflexivity| | |reflexivity].
    + rewrite stops_app, stops_cleanupEffects. now destruct (session s).
    + rewrite startedSources_app, startedSources_cleanupEffects. now destruct (session s).
  - rewrite onopen_run.
    destruct (inputAudioContext s) as [ctx|]; [|apply LiveKeep; auto].
    destruct (mediaStream s) as [stream|]; apply LiveKeep; auto;
      destruct s; cbn; auto with arith.
  - pose proof (handle_outputSources m env s) as Hos.
    pose proof (handle_allocated m env s) as Hal.
    pose proof (handle_stops m env s) as Hst.
    pose proof (handle_startedSources m env s) as Hsr.
    unfold liveBase in Hos.
    destruct (msgInterrupted m), (plays m s).
    + now apply LiveClearStart.
    + apply LiveClear; auto. rewrite Hal. auto.
    + now apply LiveStart.
    + apply LiveKeep; auto. rewrite Hal. auto.
  - apply LiveKeep; auto.
  - rewrite (onclose_run s). cbn [after effects].
    apply LiveClear; [reflexivity| | |reflexivity].
    + cbn. apply stops_cleanupEffects.
    + cbn. apply startedSources_cleanupEffects.
  - apply LiveEnded with (source := src); auto; destruct s; reflexivity.
Qed.

Lemma Set_add_In x a l : In x (Set_add a l) <-> x = a \/ In x l.
Proof.
  unfold Set_add, Set_has. destruct (existsb (Nat.eqb a) l) eqn:H.
  - split; [auto|]. intros [->|Hin]; [|exact Hin].
    apply existsb_exists in H. destruct H as (y & Hy & Heq).
    apply Nat.eqb_eq in Heq. now subst.
  - rewrite in_app_iff. cbn. intuition.
Qed.

Lemma Set_delete_In x y l : In x (Set_delete y l) <-> In x l /\ x <> y.
Proof.
  unfold Set_delete. rewrite filter_In. rewrite Bool.negb_true_iff, Nat.eqb_neq.
  reflexivity.
Qed.

(** One step: a source that is live or was just started, and was neither
    stopped nor reported ended by this event, is live afterwards. *)
Lemma LiveStep_keeps_playing ev s s' es x :
  LiveStep ev s s' es ->
  In x (outputSources s) \/ In x (startedSources es) ->
  ~ In x (stops es) ->
  ev <> SourceEnded x ->
  In x (outputSources s').
Proof.
  intros [Hos Hst Hsr Hal|Hos Hst Hsr Hal|y Hev Hos Hst Hsr Hal|Hos Hst Hsr Hal
         |Hos Hst Hsr Hal] Hin Hns Hne; rewrite Hos; rewrite Hsr in Hin;
    rewrite Hst in Hns; cbn in Hin.
  - tauto.
  - tauto.
  - apply Set_delete_In. split; [tauto|]. intros ->. now apply Hne.
  - apply Set_add_In. destruct Hin as [Hin|[<-|[]]]; auto.
  - destruct Hin as [Hin|[<-|[]]]; [tauto|now left].
Qed.

Lemma run_keeps_playing evs : forall s x,
  In x (outputSources s) \/ In x (startedSources (snd (run evs s))) ->
  ~ In x (stops (snd (run evs s))) ->
  ~ In (SourceEnded x) evs ->
  In x (outputSources (fst (run evs s))).
Proof.
  induction evs as [|ev evs IH]; intros s x Hin Hns Hne.
  - cbn in *. tauto.
  - rewrite run_cons in *. cbn [fst snd] in *.
    rewrite startedSources_app in Hin. rewrite stops_app in Hns.
    rewrite in_app_iff in Hns.
    apply IH.
    + destruct Hin as [Hin|Hin]; [|apply in_app_iff in Hin; destruct Hin as [Hin|Hin]];
        [left|left|now right];
        apply (LiveStep_keeps_playing (handle_LiveStep ev s) (x := x)); auto;
        intros ->; apply Hne; now left.
    + tauto.
    + intros H. apply Hne. now right.
Qed.

(** X3. In any sequence of events from a new service, a source that was
    started, on which [stop] was never called and whose end was never
    reported, is in the live set: the next interruption or teardown will
    reach it. *)
Theorem playing_sources_are_live (evs : list Event) (x : AudioBufferSourceNode) :
  let final := run evs newService in
  In x (startedSources (snd final)) ->
  ~ In x (stops (snd final)) ->
  ~ In (SourceEnded x) evs ->
  In x (outputSources (fst final)).
Proof.
  cbv zeta. intros Hin Hns Hne. apply run_keeps_playing; auto.
Qed.

Lemma playing_sources_are_live_witness :
  In 5%nat (outputSources (fst (run liveEvents newService))).
Proof.
  apply (@playing_sources_are_live liveEvents 5%nat).
  - vm_compute. auto.
  - vm_compute. intros [].
  - cbn. intros H.
    repeat (destruct H as [H|H]; [discriminate H|]). exact H.
Defined.

Lemma Forall_lt_le (l : list nat) (a b : nat) :
  (a <= b)%nat -> Forall (fun x => (x < a)%nat) l -> Forall (fun x => (x < b)%nat) l.
Proof. intros Hab. apply Forall_impl. intros x Hx. lia. Qed.

Lemma Set_add_fresh a l :
  Forall (fun x => (x < a)%nat) l -> Set_add a l = l ++ [a].
Proof.
  intros Hl. unfold Set_add, Set_has.
  destruct (existsb (Nat.eqb a) l) eqn:H; [|reflexivity].
  apply existsb_exists in H. destruct H as (y & Hy & Heq).
  apply Nat.eqb_eq in Heq. subst y.
  rewrite Forall_forall in Hl. specialize (Hl a Hy). lia.
Qed.

Lemma not_In_below a l : Forall (fun x => (x < a)%nat) l -> ~ In a l.
Proof.
  intros Hl Hin. rewrite Forall_forall in Hl. specialize (Hl a Hin). lia.
Qed.

(** One step keeps the invariant of the live set. *)
Lemma LiveStep_invariant ev s s' es past :
  LiveStep ev s s' es -> liveInvariant s past -> liveInvariant s' (past ++ es).
Proof.
  intros Hstep (Hnd & Hlt & Hstops & Hlive).
  unfold liveInvariant. rewrite stops_app, startedSources_app.
  destruct Hstep as [Hos Hst Hsr Hal|Hos Hst Hsr Hal|y Hev Hos Hst Hsr Hal
                    |Hos Hst Hsr Hal|Hos Hst Hsr Hal];
    rewrite Hos, Hst, Hsr; rewrite ?app_nil_r.
  - repeat split; auto; eapply Forall_lt_le; eauto.
  - repeat split; [constructor|constructor| |constructor].
    apply Forall_app. split; eapply Forall_lt_le; eauto.
  - rewrite Hal. repeat split; auto.
    + now apply NoDup_filter.
    + apply Forall_forall. intros x Hx. apply Set_delete_In in Hx.
      rewrite Forall_forall in Hlt. now apply Hlt.
    + apply Forall_forall. intros x Hx. apply Set_delete_In in Hx.
      rewrite Forall_forall in Hlive. now apply Hlive.
  - rewrite Hal, (Set_add_fresh Hlt). repeat split.
    + apply NoDup_app; [exact Hnd|repeat constructor; intros []|].
      intros x Hx [<-|[]]. now apply (not_In_below Hlt).
    + apply Forall_app. split; [eapply Forall_lt_le; [|eauto]; lia|].
      repeat constructor.
    + eapply Forall_lt_le; [|eauto]; lia.
    + apply Forall_app. split.
      * eapply Forall_impl; [|exact Hlive]. cbn. intros x (Hx & Hnx).
        split; [apply in_app_iff; now left|exact Hnx].
      * repeat constructor; [apply in_app_iff; right; now left|].
        now apply not_In_below.
  - rewrite Hal. repeat split.
    + repeat constructor. intros [].
    + repeat constructor.
    + apply Forall_app. split; eapply Forall_lt_le; [| eauto | | eauto]; lia.
    + repeat constructor; [apply in_app_iff; right; now left|].
      intros Hin. apply in_app_iff in Hin.
      destruct Hin as [Hin|Hin]; [now apply (not_In_below Hstops)|].
      now apply (not_In_below Hlt).
Qed.

Lemma run_invariant evs : forall s past,
  liveInvariant s past ->
  liveInvariant (fst (run evs s)) (past ++ snd (run evs s)).
Proof.
  induction evs as [|ev evs IH]; intros s past Hinv.
  - cbn. now rewrite app_nil_r.
  - rewrite run_cons. cbn [fst snd]. rewrite app_assoc.
    apply IH. apply (LiveStep_invariant (handle_LiveStep ev s) Hinv).
Qed.

(** X4. In any sequence of events from a new service, the live set has no
    duplicates, and each of its sources was started and never stopped. *)
Theorem live_sources_were_started (evs : list Event) :
  let final := run evs newService in
  NoDup (outputSources (fst final)) /\
  Forall (fun x => In x (startedSources (snd final)) /\ ~ In x (stops (snd final)))
         (outputSources (fst final)).
Proof.
  cbv zeta.
  assert (H0 : liveInvariant newService []).
  { repeat split; constructor. }
  destruct (run_invariant evs H0) as (Hnd & _ & _ & Hlive).
  split; assumption.
Qed.

(** ** Scheduling under any clock *)

Lemma schedule_not_past t chunks :
  Forall2 (fun start p => currentTime (snd p) <= start) (schedule t chunks) chunks.
Proof.
  revert t. induction chunks as [|p rest IH]; intros t; cbn [schedule]; constructor.
  - apply Z.le_max_r.
  - apply IH.
Qed.

Lemma chunksOf_isChunk msgs :
  Forall isSteady msgs -> Forall isChunk (chunksOf msgs).
Proof.
  intros Hall. apply Forall_forall. intros p Hp.
  apply filter_In in Hp. destruct Hp as (Hin & Ha).
  rewrite Forall_forall in Hall. destruct (Hall p Hin) as (Hi & Hd).
  repeat split; assumption.
Qed.

(** Messages without a chunk and without the interruption flag leave the
    clock alone; each chunk is scheduled once, in arrival order. *)
Lemma steady_schedule msgs : forall s ctx,
  outputAudioContext s = Some ctx ->
  Forall isSteady msgs ->
  starts (snd (run (inbound msgs) s)) = schedule (nextStartTime s) (chunksOf msgs) /\
  buffers (snd (run (inbound msgs) s)) = durations (chunksOf msgs).
Proof.
  induction msgs as [|[m env] rest IH]; intros s ctx Hc Hall; [split; reflexivity|].
  inversion Hall as [|? ? (Hi & Hd) Hrest]; subst. cbn [fst snd] in Hi, Hd.
  cbn [inbound map fst snd]. rewrite run_cons. cbn [fst snd handle].
  change (map (fun p => ConnMessage (fst p) (snd p)) rest) with (inbound rest).
  assert (Hc' : outputAudioContext (after (handleServerMessage m env s)) = Some ctx)
    by now rewrite handle_outputAudioContext.
  destruct (IH _ ctx Hc' Hrest) as (IHs & IHb).
  rewrite starts_app, buffers_app, handle_starts, handle_buffers, IHs, IHb.
  rewrite handle_nextStartTime. unfold clockBase. rewrite Hi.
  unfold chunksOf. cbn [filter fst]. fold (chunksOf rest).
  destruct (hasAudio m) eqn:Ha.
  - rewrite (plays_audio m s Ha Hc). split; reflexivity.
  - rewrite (plays_silent m s Ha). split; reflexivity.
Qed.

(** X5. For messages handled one after the other with no interruption,
    whatever the output clock does and whatever else the messages carry:
    every chunk is given to one source and started once, in arrival order;
    no chunk is started before the clock reading taken when it was handled;
    and no unit starts before an earlier one has ended. *)
Theorem playback_never_overlaps
    (s : Service) (ctx : AudioContext) (msgs : list Inbound) :
  outputAudioContext s = Some ctx ->
  Forall isSteady msgs ->
  let es := snd (run (inbound msgs) s) in
  buffers es = durations (chunksOf msgs) /\
  Forall2 (fun start p => currentTime (snd p) <= start) (starts es) (chunksOf msgs) /\
  nonOverlapping (units es).
Proof.
  intros Hc Hall. cbv zeta.
  destruct (steady_schedule s Hc Hall) as (Hs & Hb).
  unfold units. rewrite Hs, Hb. repeat split.
  - apply schedule_not_past.
  - apply schedule_nonOverlapping. now apply chunksOf_isChunk.
Qed.

Lemma playback_never_overlaps_witness :
  let es := snd (run (inbound jitterMessages) startedSession) in
  buffers es = durations (chunksOf jitterMessages) /\
  Forall2 (fun start p => currentTime (snd p) <= start) (starts es)
          (chunksOf jitterMessages) /\
  nonOverlapping (units es).
Proof.
  apply (@playback_never_overlaps startedSession
           {| contextId := 1; sampleRate := 24000 |} jitterMessages).
  - reflexivity.
  - repeat constructor; cbn; lia.
Defined.

(** ** What only messages change *)

Lemma handle_keeps_transcripts ev s :
  isConnMessage ev = false ->
  currentInputTranscription (after (handle ev s)) = currentInputTranscription s /\
  currentOutputTranscription (after (handle ev s)) = currentOutputTranscription s /\
  nextStartTime (after (handle ev s)) = nextStartTime s.
Proof.
  intros Hev. destruct ev as [env| | |m env|msg| |src]; cbn [handle]; try discriminate.
  - rewrite startSession_cases.
    destruct (userMedia env) as [stream|e]; [|repeat split; reflexivity].
    destruct (inputContextError env) as [e|]; cbv zeta; [repeat split; reflexivity|].
    destruct (outputContextError env) as [e|]; [repeat split; reflexivity|].
    destruct (connection env) as [sess|e]; repeat split; reflexivity.
  - rewrite (stopSession_run s). repeat split; reflexivity.
  - rewrite onopen_run.
    destruct (inputAudioContext s), (mediaStream s); repeat split; reflexivity.
  - repeat split; reflexivity.
  - rewrite (onclose_run s). repeat split; reflexivity.
  - repeat split; reflexivity.
Qed.

(** X6. Only an inbound message changes the transcript buffers or the
    playback clock: starting, opening, stopping, closing, a connection error
    and an ended source all leave the three fields as they are.  A session
    started again on the same service therefore continues with the old
    buffers and the old clock. *)
Theorem only_messages_change_transcripts_and_clock (evs : list Event) (s : Service) :
  let others := filter (fun ev => negb (isConnMessage ev)) evs in
  let final := fst (run others s) in
  currentInputTranscription final = currentInputTranscription s /\
  currentOutputTranscription final = currentOutputTranscription s /\
  nextStartTime final = nextStartTime s.
Proof.
  cbv zeta. revert s. induction evs as [|ev evs IH]; intros s; [repeat split|].
  cbn [filter]. destruct (isConnMessage ev) eqn:Hev; cbn [negb]; [apply IH|].
  rewrite run_cons. cbn [fst].
  destruct (handle_keeps_transcripts ev s Hev) as (H1 & H2 & H3).
  destruct (IH (after (handle ev s))) as (I1 & I2 & I3).
  rewrite I1, I2, I3. auto.
Qed.

(** ** After teardown *)

Ltac frame_handles :=
  intros;
  match goal with s : Service |- _ => destruct s end;
  unfold handles; unfold_blocks; cbn; split_cases; reflexivity.

Lemma afterInput_handles m s : handles (afterInput m s) = handles s.
Proof. frame_handles. Qed.

Lemma afterOutput_handles m s : handles (afterOutput m s) = handles s.
Proof. frame_handles. Qed.

Lemma afterTurn_handles m s : handles (afterTurn m s) = handles s.
Proof. frame_handles. Qed.

Lemma afterInterrupted_handles m s : handles (afterInterrupted m s) = handles s.
Proof. frame_handles. Qed.

Lemma afterAudio_handles m env s : handles (afterAudio m env s) = handles s.
Proof. frame_handles. Qed.

(** The message handler never touches a handle. *)
Lemma handle_handles m env s :
  handles (after (handleServerMessage m env s)) = handles s.
Proof.
  run_handler m env s.
  now rewrite afterAudio_handles, afterInterrupted_handles, afterTurn_handles,
    afterOutput_handles, afterInput_handles.
Qed.

Lemma released_fields s :
  released s = true ->
  handles s = (None, None, None, None, None, None, None) /\ outputSources s = [].
Proof.
  unfold released.
  destruct (handles s) as [[[[[[se sp] ms] ic] oc] pr] sn].
  destruct se, sp, ms, ic, oc, pr, sn, (outputSources s); try discriminate. auto.
Qed.

Lemma released_from_fields s :
  handles s = (None, None, None, None, None, None, None) ->
  outputSources s = [] -> released s = true.
Proof. unfold released. now intros -> ->. Qed.

(** A released service stays released under every event but a start, and
    then only calls back. *)
Lemma handle_released ev s :
  isCallStartSession ev = false ->
  released s = true ->
  released (after (handle ev s)) = true /\
  ofKind Callback (effects (handle ev s)) = effects (handle ev s).
Proof.
  intros Hev Hrel. destruct (released_fields s Hrel) as (Hh & Hos).
  destruct ev as [env| | |m env|msg| |src]; cbn [handle]; try discriminate.
  - rewrite (stopSession_run s). cbn [after effects].
    rewrite (cleanupEffects_released s Hrel).
    unfold handles in Hh. injection Hh as Hse _ _ _ _ _ _. rewrite Hse. auto.
  - rewrite onopen_run.
    unfold handles in Hh. injection Hh as _ _ _ Hic _ _ _. rewrite Hic. auto.
  - assert (Hc : outputAudioContext s = None).
    { unfold handles in Hh. now injection Hh. }
    destruct (handle_idle m env s Hc Hos) as (_ & Hos' & _ & Hk).
    split; [|exact Hk].
    apply released_from_fields; [|exact Hos'].
    now rewrite handle_handles.
  - auto.
  - rewrite (onclose_run s). cbn [after effects].
    now rewrite (cleanupEffects_released s Hrel).
  - split; [|reflexivity].
    apply released_from_fields.
    + destruct s; exact Hh.
    + destruct s; cbn in *. now rewrite Hos.
Qed.

(** Steps on a released service. *)

Lemma callbacks_make_no_playback es :
  ofKind Callback es = es -> ofKind Playback es = [] /\ starts es = [].
Proof.
  induction es as [|e es IH]; intros H; [now split|].
  assert (He : kind e = Callback).
  { destruct (kind e) eqn:Hk; try reflexivity;
      unfold ofKind in H; cbn [filter] in H; rewrite Hk in H; cbn [kind_eqb] in H;
      pose proof (filter_length_le (fun e0 => kind_eqb (kind e0) Callback) es) as Hle;
      rewrite H in Hle; cbn [List.length] in Hle; lia. }
  assert (Hes : ofKind Callback es = es).
  { unfold ofKind in H |- *. cbn [filter] in H. rewrite He in H. cbn [kind_eqb] in H.
    now injection H. }
  destruct (IH Hes) as (IHp & IHs).
  unfold ofKind in IHp |- *. cbn [filter starts flat_map]. rewrite He. cbn [kind_eqb].
  split; [exact IHp|].
  destruct e; cbn in He; try discriminate; exact IHs.
Qed.

Lemma transcriptUpdates_app sp msgs1 msgs2 : forall b,
  transcriptUpdates sp b (msgs1 ++ msgs2)
  = transcriptUpdates sp b msgs1
    ++ transcriptUpdates sp (transcriptBuffer sp b msgs1) msgs2.
Proof.
  induction msgs1 as [|p msgs1 IH]; intros b; [reflexivity|].
  cbn [app transcriptUpdates transcriptBuffer]. now rewrite IH, app_assoc.
Qed.

Lemma transcriptBuffer_app sp msgs1 msgs2 : forall b,
  transcriptBuffer sp b (msgs1 ++ msgs2)
  = transcriptBuffer sp (transcriptBuffer sp b msgs1) msgs2.
Proof.
  induction msgs1 as [|p msgs1 IH]; intros b; [reflexivity|].
  cbn [app transcriptBuffer]. now rewrite IH.
Qed.

Lemma transcriptUpdates_length sp msgs : forall b,
  List.length (transcriptUpdates sp b msgs) = List.length (partials sp msgs).
Proof.
  induction msgs as [|p msgs IH]; intros b; [reflexivity|].
  cbn [transcriptUpdates partials flat_map]. fold (partials sp msgs).
  rewrite !length_app, IH. destruct (partialOf sp (fst p)); reflexivity.
Qed.

Lemma released_context s : released s = true -> outputAudioContext s = None.
Proof.
  intros Hrel. destruct (released_fields s Hrel) as (Hh & _).
  unfold handles in Hh. now injection Hh.
Qed.

(** A released service stays released under every step but those of a
    start, and then only calls back. *)
Lemma perform_released st s :
  isStartStep st = false ->
  released s = true ->
  released (after (perform st s)) = true /\
  ofKind Callback (effects (perform st s)) = effects (perform st s).
Proof.
  intros Hst Hrel.
  pose proof (released_context s Hrel) as Hc.
  destruct st as [ev|m env|env| |env|env]; cbn [isStartStep perform] in *;
    try discriminate.
  - apply handle_released; [|exact Hrel]. now destruct ev.
  - rewrite (beforeDecode_whole m env s (plays_without_context m s Hc)).
    now apply (handle_released (ConnMessage m env)).
  - destruct (afterDecode_without_context env s Hc) as (Ha & He & _).
    now rewrite Ha, He.
Qed.

(** On a released service the transcript aggregation goes on as before. *)
Lemma perform_transcripts sp st s :
  isStartStep st = false ->
  released s = true ->
  updates sp (effects (perform st s))
    = transcriptUpdates sp (buffer sp s) (messagesOf [st]) /\
  buffer sp (after (perform st s))
    = transcriptBuffer sp (buffer sp s) (messagesOf [st]).
Proof.
  intros Hst Hrel.
  pose proof (released_context s Hrel) as Hc.
  assert (Hmsg : forall m env,
            updates sp (effects (handleServerMessage m env s))
              = transcriptUpdates sp (buffer sp s) [(m, env)] /\
            buffer sp (after (handleServerMessage m env s))
              = transcriptBuffer sp (buffer sp s) [(m, env)]).
  { intros m env. rewrite handle_updates, handle_buffer.
    cbn [transcriptUpdates transcriptBuffer fst]. now rewrite app_nil_r. }
  destruct st as [ev|m env|env| |env|env]; cbn [isStartStep perform] in *;
    try discriminate.
  - destruct ev as [env| | |m env|msg| |src]; try discriminate;
      cbn [handle messagesOf flat_map app transcriptUpdates transcriptBuffer].
    + rewrite (stopSession_run s). cbn [after effects].
      rewrite (cleanupEffects_released s Hrel).
      destruct (released_fields s Hrel) as (Hh & _).
      unfold handles in Hh. injection Hh as Hse _ _ _ _ _ _. rewrite Hse.
      split; [reflexivity|now destruct sp].
    + rewrite onopen_run.
      destruct (released_fields s Hrel) as (Hh & _).
      unfold handles in Hh. injection Hh as _ _ _ Hic _ _ _. rewrite Hic. auto.
    + apply Hmsg.
    + auto.
    + rewrite (onclose_run s). cbn [after effects].
      rewrite (cleanupEffects_released s Hrel).
      split; [reflexivity|now destruct sp].
    + split; [reflexivity|]. destruct s, sp; reflexivity.
  - rewrite (beforeDecode_whole m env s (plays_without_context m s Hc)).
    cbn [messagesOf flat_map app]. apply Hmsg.
  - destruct (afterDecode_without_context env s Hc) as (Ha & He & _).
    rewrite Ha, He. auto.
Qed.

Lemma messagesOf_cons st sts :
  messagesOf (st :: sts) = messagesOf [st] ++ messagesOf sts.
Proof. unfold messagesOf. cbn [flat_map]. now rewrite app_nil_r. Qed.

Lemma runSteps_released sp sts : forall s,
  Forall (fun st => isStartStep st = false) sts ->
  released s = true ->
  let final := runSteps sts s in
  released (fst final) = true /\
  ofKind Callback (snd final) = snd final /\
  updates sp (snd final) = transcriptUpdates sp (buffer sp s) (messagesOf sts) /\
  buffer sp (fst final) = transcriptBuffer sp (buffer sp s) (messagesOf sts).
Proof.
  cbv zeta. induction sts as [|st sts IH]; intros s Hall Hrel; [now repeat split|].
  inversion Hall as [|? ? Hst Hrest]; subst.
  rewrite runSteps_cons. cbn [fst snd].
  destruct (perform_released st s Hst Hrel) as (Hrel' & Hk).
  destruct (perform_transcripts sp st s Hst Hrel) as (Hu & Hb).
  destruct (IH _ Hrest Hrel') as (IHrel & IHk & IHu & IHb).
  rewrite (messagesOf_cons st sts), transcriptUpdates_app, transcriptBuffer_app.
  rewrite ofKind_app, updates_app, Hk, IHk, Hu, IHu, IHb, Hb.
  auto.
Qed.

(** C5, as the code has it.  After [stopSession], and as long as no step of
    a [startSession] call follows (none is made, none that was pending
    resumes), whatever else happens, handlers in one piece or overtaken:
    nothing is scheduled and no playback call is made, the live set stays
    empty and the playback context stays null, and every effect is a
    callback.  Transcript handling is not gated by the teardown: from the
    buffer that [stopSession] left as it was, every partial transcript is
    still appended and reported through [onTranscriptUpdate] with the
    accumulated text, one call per partial transcript, and a turn-complete
    message still empties the buffer.  A decode that completes then, one that
    was in flight when the session was stopped, resumes into an exception:
    it schedules nothing and changes nothing. *)
Theorem after_stop_no_playback_but_transcripts
    (sp : Speaker) (s : Service) (sts : list Step) :
  Forall (fun st => isStartStep st = false) sts ->
  let stopped := after (stopSession s) in
  let final := runSteps sts stopped in
  let msgs := messagesOf sts in
  (ofKind Playback (snd final) = [] /\
   starts (snd final) = [] /\
   outputSources (fst final) = [] /\
   outputAudioContext (fst final) = None /\
   ofKind Callback (snd final) = snd final) /\
  (buffer sp stopped = buffer sp s /\
   updates sp (snd final) = transcriptUpdates sp (buffer sp s) msgs /\
   buffer sp (fst final) = transcriptBuffer sp (buffer sp s) msgs /\
   List.length (updates sp (snd final)) = List.length (partials sp msgs)) /\
  (forall env : AudioEnv,
     after (afterDecode env (fst final)) = fst final /\
     effects (afterDecode env (fst final)) = [] /\
     exists message, thrown (afterDecode env (fst final)) = Some (ErrorObject message)).
Proof.
  intros Hall. cbv zeta.
  pose proof (stopSession_run s) as Hstop. unfold returns in Hstop.
  revert Hstop. generalize (stopSession s) as r. intros r ->. cbn [after].
  assert (Hb : buffer sp (tornDown s) = buffer sp s) by now destruct sp.
  destruct (runSteps_released sp (tornDown s) Hall (released_tornDown s))
    as (Hrel & Hk & Hu & Hbuf).
  rewrite Hb in Hu, Hbuf.
  destruct (callbacks_make_no_playback Hk) as (Hp & Hs).
  destruct (released_fields _ Hrel) as (_ & Hos).
  pose proof (released_context _ Hrel) as Hc.
  split; [repeat split; assumption|]. split.
  - repeat split; try assumption. rewrite Hu. apply transcriptUpdates_length.
  - intros env. exact (afterDecode_without_context env _ Hc).
Qed.

Lemma after_stop_no_playback_but_transcripts_witness :
  let stopped := after (stopSession liveSession) in
  let final := runSteps afterStopSteps stopped in
  (ofKind Playback (snd final) = [] /\
   starts (snd final) = [] /\
   outputSources (fst final) = [] /\
   outputAudioContext (fst final) = None /\
   ofKind Callback (snd final) = snd final) /\
  (buffer Victime stopped = "Bonjour" /\
   updates Victime (snd final)
     = [("Bonjour monsieur", false); ("Bonjour monsieur le juge", false)] /\
   buffer Victime (fst final) = EmptyString /\
   List.length (updates Victime (snd final)) = 2%nat) /\
  (forall env : AudioEnv,
     after (afterDecode env (fst final)) = fst final /\
     effects (afterDecode env (fst final)) = [] /\
     exists message, thrown (afterDecode env (fst final)) = Some (ErrorObject message)).
Proof.
  apply (@after_stop_no_playback_but_transcripts Victime liveSession afterStopSteps).
  repeat constructor.
Defined.

(** C5 fails for transcripts: a partial transcript handled after
    [stopSession] is still appended and reported. *)
Lemma stopped_session_still_reports :
  effects (handle (ConnMessage (inputMessage " monsieur") (at_ 9 0))
                  (after (stopSession liveSession)))
  = [OnTranscriptUpdate "Bonjour monsieur" false Victime] /\
  updates Victime
    (snd (run (inbound [(inputMessage " monsieur", at_ 9 0)])
              (after (stopSession liveSession))))
  <> [].
Proof.
  split; [reflexivity|]. vm_compute. discriminate.
Qed.

(** Why the steps of a start are left out above.  [stopSession] called while
    [getUserMedia] of a [startSession] call is pending tears down a service
    that holds nothing yet; the call then resumes and sets up the whole
    session, on which a chunk is played. *)
Lemma stop_during_start_is_overtaken :
  let final := runSteps stopDuringStart newService in
  released (after (perform (Whole CallStopSession)
                     (after (perform StartCalled newService)))) = true /\
  released (fst final) = false /\
  outputAudioContext (fst final) = Some {| contextId := 1; sampleRate := 24000 |} /\
  starts (snd final) = [0].
Proof. cbv zeta. repeat split. Qed.

Lemma Forall_not_start sts :
  Forall (fun st => isStartStep st = false)
         (filter (fun st => negb (isStartStep st)) sts).
Proof.
  apply Forall_forall. intros st Hin. apply filter_In in Hin.
  destruct Hin as (_ & Hst). now apply negb_true_iff in Hst.
Qed.

(** X7. Once [cleanup] has run, and as long as no step of a [startSession]
    call follows (none is made, none that was pending resumes), whatever the
    connection, the sources or the caller do (messages in one piece or
    overtaken, decodes that complete late, a late open signal, errors, the
    close signal, ended sources, more stops): the service keeps every handle
    null and the live set empty, and everything it does is a callback; it
    makes no browser or SDK call. *)
Theorem teardown_lasts_until_restart (s : Service) (sts : list Step) :
  let others := filter (fun st => negb (isStartStep st)) sts in
  let final := runSteps others (after (cleanup s)) in
  released (fst final) = true /\
  ofKind Callback (snd final) = snd final.
Proof.
  cbv zeta. rewrite cleanup_run. cbn [after].
  destruct (runSteps_released Victime (tornDown s) (Forall_not_start sts)
              (released_tornDown s)) as (Hrel & Hk & _).
  now split.
Qed.

(** * Properties of the caller *)

(** ** The two updaters of the transcript *)

Lemma lastEntry_snoc l x : lastEntry (l ++ [x]) = Some x.
Proof.
  unfold lastEntry. rewrite length_app. cbn [List.length].
  replace (List.length l + 1 - 1)%nat with (List.length l) by lia.
  rewrite nth_error_app2 by lia. now rewrite Nat.sub_diag.
Qed.

Lemma onTranscriptUpdate_nil now t f sp :
  onTranscriptUpdate now t f sp [] = [newEntry now t f sp].
Proof. reflexivity. Qed.

Lemma onTranscriptUpdate_snoc now t f sp l x :
  onTranscriptUpdate now t f sp (l ++ [x])
  = if pendingFor sp x then l ++ [rewritten x t f]
    else l ++ [x; newEntry now t f sp].
Proof.
  unfold onTranscriptUpdate, pendingFor. rewrite lastEntry_snoc, removelast_last.
  rewrite Bool.andb_comm.
  destruct (speaker_eqb (Entry.speaker x) sp && negb (Entry.isFinal x));
    [reflexivity|]. now rewrite <- app_assoc.
Qed.

Lemma list_snoc_cases (A : Type) (l : list A) :
  l = [] \/ exists l' x, l = l' ++ [x].
Proof.
  destruct l as [|a l] using rev_ind; [now left|right; eauto].
Qed.

(** An update leaves a final entry where it is and as it is. *)
Lemma onTranscriptUpdate_keeps_final now t f sp prev i e :
  nth_error prev i = Some e -> Entry.isFinal e = true ->
  nth_error (onTranscriptUpdate now t f sp prev) i = Some e.
Proof.
  intros Hi He.
  destruct (list_snoc_cases prev) as [->|(l & x & ->)].
  - destruct i; discriminate.
  - rewrite onTranscriptUpdate_snoc.
    assert (Hlen : (i < List.length (l ++ [x]))%nat)
      by (apply nth_error_Some; congruence).
    rewrite length_app in Hlen. cbn in Hlen.
    destruct (Nat.eq_dec i (List.length l)) as [->|Hne].
    + rewrite nth_error_app2, Nat.sub_diag in Hi by lia. cbn in Hi.
      injection Hi as ->.
      unfold pendingFor. rewrite He, Bool.andb_false_r.
      rewrite nth_error_app2, Nat.sub_diag by lia. reflexivity.
    + rewrite nth_error_app1 in Hi by lia.
      destruct (pendingFor sp x); rewrite nth_error_app1 by lia; exact Hi.
Qed.

Lemma onTurnComplete_keeps_final sp prev i e :
  nth_error prev i = Some e -> Entry.isFinal e = true ->
  nth_error (onTurnComplete sp prev) i = Some e.
Proof.
  intros Hi He. unfold onTurnComplete. rewrite nth_error_map, Hi. cbn.
  now rewrite He, Bool.andb_false_r.
Qed.

Lemma deliver_keeps_final now ef a i e :
  nth_error (transcripts a) i = Some e -> Entry.isFinal e = true ->
  nth_error (transcripts (deliver now ef a)) i = Some e.
Proof.
  intros Hi He. destruct ef; cbn [deliver setTranscripts setStatus setSessionState
    transcripts]; try exact Hi.
  - now apply onTranscriptUpdate_keeps_final.
  - now apply onTurnComplete_keeps_final.
Qed.

(** X9. Whatever callbacks the service makes afterwards, an entry of the
    transcript that is final stays at its place with its identifier, its
    speaker and its text. *)
Theorem final_entries_never_change
    (clock : nat -> Z) (es : list Effect) (a : App) (i : nat) (e : Entry.TranscriptEntry) :
  nth_error (transcripts a) i = Some e ->
  Entry.isFinal e = true ->
  nth_error (transcripts (deliverAll clock es a)) i = Some e.
Proof.
  revert clock a. induction es as [|ef es IH]; intros clock a Hi He; [exact Hi|].
  cbn [deliverAll]. apply IH; [|exact He]. now apply deliver_keeps_final.
Qed.

Lemma final_entries_never_change_witness :
  nth_error (transcripts (deliverAll (fun i => 30 + Z.of_nat i) laterCallbacks
                            (setTranscripts shownTranscript initialApp))) 0
  = Some (newEntry 10 "Bonjour" true IA).
Proof.
  apply (@final_entries_never_change (fun i => 30 + Z.of_nat i) laterCallbacks
           (setTranscripts shownTranscript initialApp) 0%nat
           (newEntry 10 "Bonjour" true IA)); reflexivity.
Defined.

(** X10. [onTurnComplete] for a speaker leaves no entry of that speaker
    pending; it keeps the order, the identifiers, the speakers and the texts
    of all entries (so the rows of the report are the same) and the finality
    of the other speaker's entries; a second call changes nothing. *)
Theorem turn_complete_finalises (sp : Speaker) (prev : list Entry.TranscriptEntry) :
  let next := onTurnComplete sp prev in
  existsb (pendingFor sp) next = false /\
  map Entry.id next = map Entry.id prev /\
  tableBody next = tableBody prev /\
  map Entry.isFinal next
    = map (fun t => speaker_eqb (Entry.speaker t) sp || Entry.isFinal t) prev /\
  onTurnComplete sp next = next.
Proof.
  cbv zeta. unfold onTurnComplete, tableBody, pendingFor.
  induction prev as [|t prev (I1 & I2 & I3 & I4 & I5)]; [repeat split|].
  cbn [map existsb]. rewrite I1, I2, I3, I4, I5.
  destruct t as [i s x f]. cbn.
  destruct (speaker_eqb s sp) eqn:Hs, f; cbn; rewrite ?Hs; cbn; repeat split.
Qed.

(** ** A spoken turn, from the messages to the screen *)

Lemma run_app evs1 evs2 s :
  run (evs1 ++ evs2) s
  = (fst (run evs2 (fst (run evs1 s))),
     snd (run evs1 s) ++ snd (run evs2 (fst (run evs1 s)))).
Proof.
  revert s. induction evs1 as [|ev evs1 IH]; intros s.
  - cbn [app run fst snd]. now destruct (run evs2 s).
  - cbn [app]. rewrite !run_cons, IH. cbn [fst snd]. now rewrite app_assoc.
Qed.

Lemma inbound_app a b : inbound (a ++ b) = inbound a ++ inbound b.
Proof. apply map_app. Qed.

Lemma deliverAll_app clock es1 es2 a :
  deliverAll clock (es1 ++ es2) a
  = deliverAll (fun i => clock (List.length es1 + i)%nat) es2 (deliverAll clock es1 a).
Proof.
  revert clock a. induction es1 as [|e es1 IH]; intros clock a; [reflexivity|].
  cbn [app deliverAll List.length]. now rewrite IH.
Qed.

Lemma handle_partial sp t env s :
  effects (handleServerMessage (partialMessage sp t) env s)
  = [OnTranscriptUpdate (buffer sp s ++ t)%string false sp] /\
  buffer sp (after (handleServerMessage (partialMessage sp t) env s))
  = (buffer sp s ++ t)%string.
Proof.
  split.
  - run_handler (partialMessage sp t) env s. destruct sp, s; reflexivity.
  - rewrite handle_buffer. now destruct sp.
Qed.

Lemma fold_left_append texts : forall b,
  fold_left String.append texts b = (b ++ joined texts)%string.
Proof.
  induction texts as [|t texts IH]; intros b; cbn.
  - now rewrite append_empty_r.
  - now rewrite IH, append_assoc.
Qed.

Lemma run_spoken sp texts : forall s,
  snd (run (inbound (spoken sp texts)) s) = partialEffects sp (buffer sp s) texts /\
  buffer sp (fst (run (inbound (spoken sp texts)) s))
  = (buffer sp s ++ joined texts)%string.
Proof.
  induction texts as [|t texts IH]; intros s.
  - cbn. now rewrite append_empty_r.
  - cbn [spoken map inbound fst snd]. rewrite run_cons. cbn [fst snd handle].
    change (map (fun p => ConnMessage (fst p) (snd p))
              (map (fun t0 => (partialMessage sp t0, at_ 0 0)) texts))
      with (inbound (spoken sp texts)).
    destruct (handle_partial sp t (at_ 0 0) s) as (He & Hb).
    destruct (IH (after (handleServerMessage (partialMessage sp t) (at_ 0 0) s)))
      as (IHe & IHb).
    rewrite He, IHe, IHb, Hb. cbn [app partialEffects joined fold_right].
    split; [reflexivity|apply append_assoc].
Qed.

Lemma handle_turnCompleteMessage env s :
  effects (handleServerMessage turnCompleteMessage env s)
  = (if truthy (currentInputTranscription s) then [OnTurnComplete Victime] else [])
    ++ (if truthy (currentOutputTranscription s) then [OnTurnComplete IA] else []).
Proof.
  run_handler turnCompleteMessage env s. destruct s. cbn.
  now rewrite app_nil_r.
Qed.

(** On screen, further partial texts of a speaker rewrite the pending entry. *)
Lemma deliver_partialEffects sp texts : forall clock b a l x,
  texts <> [] ->
  transcripts a = l ++ [x] -> pendingFor sp x = true ->
  transcripts (deliverAll clock (partialEffects sp b texts) a)
  = l ++ [rewritten x (fold_left String.append texts b) false].
Proof.
  induction texts as [|t texts IH]; intros clock b a l x Hne Ha Hp; [congruence|].
  cbn [partialEffects deliverAll fold_left].
  assert (H1 : transcripts (deliver (clock 0%nat) (OnTranscriptUpdate (b ++ t) false sp) a)
               = l ++ [rewritten x (b ++ t)%string false]).
  { cbn [deliver setTranscripts transcripts]. now rewrite Ha, onTranscriptUpdate_snoc, Hp. }
  destruct texts as [|t' texts]; [exact H1|].
  rewrite (IH _ _ _ l (rewritten x (b ++ t)%string false)); [reflexivity|discriminate|exact H1|].
  unfold pendingFor in *. cbn.
  apply Bool.andb_true_iff in Hp. destruct Hp as (-> & _). reflexivity.
Qed.

Lemma onTurnComplete_finals sp l :
  Forall (fun e => Entry.isFinal e = true) l -> onTurnComplete sp l = l.
Proof.
  induction 1 as [|x l Hx Hl IH]; [reflexivity|].
  unfold onTurnComplete in *. cbn [map]. rewrite IH, Hx, Bool.andb_false_r. reflexivity.
Qed.

Lemma onTurnComplete_snoc sp sp' l now t f :
  Forall (fun e => Entry.isFinal e = true) l ->
  onTurnComplete sp' (l ++ [newEntry now t f sp])
  = l ++ [newEntry now t (speaker_eqb sp sp' || f) sp].
Proof.
  intros Hl. unfold onTurnComplete. rewrite map_app.
  fold (onTurnComplete sp' l). rewrite (onTurnComplete_finals sp' Hl). cbn.
  destruct (speaker_eqb sp sp'), f; reflexivity.
Qed.

Lemma joined_truthy_nonempty texts : truthy (joined texts) = true -> texts <> [].
Proof. destruct texts; [discriminate|discriminate]. Qed.

Lemma speaker_eqb_refl sp : speaker_eqb sp sp = true.
Proof. now destruct sp. Qed.

(** X11. A turn of one speaker, from the wire to the screen.  With the
    speaker's buffer empty and every entry on screen final, partial
    transcripts of that speaker followed by a turn-complete message add
    exactly one entry: final, of that speaker, carrying the concatenation of
    the partial texts, with the time of the first update as identifier.  The
    report gets one more row. *)
Theorem spoken_turn_becomes_one_entry
    (sp : Speaker) (texts : list string) (s : Service) (a : App) (clock : nat -> Z) :
  buffer sp s = EmptyString ->
  truthy (joined texts) = true ->
  Forall (fun e => Entry.isFinal e = true) (transcripts a) ->
  let msgs := spoken sp texts ++ [(turnCompleteMessage, at_ 0 0)] in
  let shown := transcripts (deliverAll clock (snd (run (inbound msgs) s)) a) in
  shown = transcripts a ++ [newEntry (clock 0%nat) (joined texts) true sp] /\
  tableBody shown = tableBody (transcripts a) ++ [(sp, joined texts)].
Proof.
  intros Hb Ht Hfinal. cbv zeta.
  assert (Hshown :
    transcripts (deliverAll clock
      (snd (run (inbound (spoken sp texts ++ [(turnCompleteMessage, at_ 0 0)])) s)) a)
    = transcripts a ++ [newEntry (clock 0%nat) (joined texts) true sp]).
  2:{ rewrite Hshown. split; [reflexivity|]. unfold tableBody. now rewrite map_app. }
  rewrite inbound_app, run_app. cbn [snd].
  destruct (run_spoken sp texts s) as (He & Hbuf).
  rewrite He, Hb. rewrite Hb in Hbuf. cbn [String.append] in Hbuf.
  cbn [inbound map fst snd]. rewrite run_cons. cbn [snd handle run]. rewrite app_nil_r.
  rewrite handle_turnCompleteMessage, deliverAll_app.
  set (s' := fst (run (inbound (spoken sp texts)) s)) in *.
  (* the partial texts *)
  assert (Hpart : transcripts (deliverAll clock (partialEffects sp EmptyString texts) a)
                  = transcripts a ++ [newEntry (clock 0%nat) (joined texts) false sp]).
  { destruct texts as [|t texts]; [discriminate|].
    cbn [partialEffects deliverAll].
    assert (H1 : transcripts (deliver (clock 0%nat)
                   (OnTranscriptUpdate (EmptyString ++ t) false sp) a)
                 = transcripts a ++ [newEntry (clock 0%nat) t false sp]).
    { cbn [deliver setTranscripts transcripts String.append].
      destruct (list_snoc_cases (transcripts a)) as [->|(l & x & Hl)]; [reflexivity|].
      rewrite Hl in *. rewrite onTranscriptUpdate_snoc.
      apply Forall_app in Hfinal. destruct Hfinal as (_ & Hx).
      inversion Hx as [|? ? Hxf _]; subst.
      unfold pendingFor. rewrite Hxf, Bool.andb_false_r. now rewrite <- app_assoc. }
    destruct texts as [|t' texts].
    - cbn [partialEffects deliverAll joined fold_right]. rewrite append_empty_r.
      exact H1.
    - rewrite (@deliver_partialEffects sp (t' :: texts) _ _ _ (transcripts a)
                 (newEntry (clock 0%nat) t false sp)); [|discriminate|exact H1|].
      + rewrite fold_left_append. cbn [String.append joined fold_right]. reflexivity.
      + unfold pendingFor. cbn. now rewrite speaker_eqb_refl. }
  (* the turn-complete callbacks *)
  assert (Hsp : truthy (buffer sp s') = true) by (rewrite Hbuf; exact Ht).
  remember (deliverAll clock (partialEffects sp EmptyString texts) a) as a1 eqn:Ha1.
  clear He Ha1.
  destruct sp; cbn [buffer] in Hsp; rewrite Hsp;
    [destruct (truthy (currentOutputTranscription s'))
    |destruct (truthy (currentInputTranscription s'))];
    cbn [app deliverAll deliver setTranscripts transcripts];
    rewrite Hpart, ?onTurnComplete_snoc by exact Hfinal;
    try reflexivity;
    rewrite ?onTurnComplete_snoc by exact Hfinal; reflexivity.
Qed.

Lemma spoken_turn_becomes_one_entry_witness :
  let msgs := spoken Victime ["B"; "on"; "jour"] ++ [(turnCompleteMessage, at_ 0 0)] in
  let shown := transcripts (deliverAll (fun i => 100 + Z.of_nat i)
                              (snd (run (inbound msgs) newService)) initialApp) in
  shown = [newEntry 100 "Bonjour" true Victime] /\
  tableBody shown = [(Victime, "Bonjour")].
Proof.
  apply (@spoken_turn_becomes_one_entry Victime ["B"; "on"; "jour"] newService
           initialApp (fun i => 100 + Z.of_nat i)).
  - reflexivity.
  - reflexivity.
  - constructor.
Defined.

(** ** Starting from the component *)

Lemma deliver_not_callback now e a : kind e <> Callback -> deliver now e a = a.
Proof. destruct e; cbn; congruence. Qed.

Lemma deliverAll_no_callbacks es : forall clock a,
  ofKind Callback es = [] -> deliverAll clock es a = a.
Proof.
  induction es as [|e es IH]; intros clock a H; [reflexivity|].
  cbn [ofKind filter] in H. cbn [deliverAll].
  destruct (kind_eqb (kind e) Callback) eqn:Hk; [discriminate|].
  rewrite deliver_not_callback by (intros Heq; rewrite Heq in Hk; discriminate).
  now apply IH.
Qed.

Lemma deliverAll_onError es : forall clock a msg,
  ofKind Callback es = [OnError msg] ->
  deliverAll clock es a = setSessionState idle (setStatus ("Erreur: " ++ msg)%string a).
Proof.
  induction es as [|e es IH]; intros clock a msg H; [discriminate|].
  cbn [ofKind filter] in H. cbn [deliverAll].
  destruct (kind_eqb (kind e) Callback) eqn:Hk.
  - injection H as -> Hrest. cbn [deliver].
    now rewrite deliverAll_no_callbacks.
  - rewrite deliver_not_callback by (intros Heq; rewrite Heq in Hk; discriminate).
    now apply IH.
Qed.

(** X12. A click on the start button with a usable API key, from a component
    that is not active: the component clears the transcript and runs
    [startSession] on a new service.  If every step succeeds it ends active,
    showing the invitation to speak.  If a step fails it ends idle, showing
    the error of the first failing step, and never shows the invitation; the
    service it holds has released everything. *)
Theorem handleStart_outcome (req : StartRequest) (a : App) (key : string) :
  sessionState a <> active ->
  apiKey req = Some key -> truthy key = true ->
  let r := startSession (startEnv req) newService in
  let a' := fst (handleStart req a) in
  snd (handleStart req a) = effects r /\
  transcripts a' = [] /\
  caseIdRef a' = Some (caseId req) /\
  serviceRef a' = Some (after r) /\
  sessionState a'
    = match firstFailure (startEnv req) with Some _ => idle | None => active end /\
  status a'
    = match firstFailure (startEnv req) with
      | Some e => ("Erreur: " ++ startErrorMessage e)%string
      | None => listeningStatus
      end /\
  released (after r)
    = match firstFailure (startEnv req) with Some _ => true | None => false end.
Proof.
  intros Hna Hkey Htruthy. cbv zeta.
  destruct (startSession_callbacks_and_release (startEnv req) newService)
    as (Hcb & Hrel).
  rewrite Hrel. clear Hrel.
  unfold handleStart, newGeminiLiveService. rewrite Hkey, Htruthy.
  destruct (sessionState a) eqn:Hst; [|congruence|]; cbn [fst snd];
    (destruct (firstFailure (startEnv req)) as [e|];
     [rewrite (deliverAll_onError _ _ _ Hcb)|rewrite (deliverAll_no_callbacks _ _ _ Hcb)];
     cbn [fst snd sessionState status transcripts caseIdRef serviceRef setStatus
          setSessionState setTranscripts set_serviceRef set_caseIdRef];
     repeat split; reflexivity).
Qed.

Lemma handleStart_outcome_witness :
  let a' := fst (handleStart (startRequest deniedEnv) initialApp) in
  snd (handleStart (startRequest deniedEnv) initialApp)
    = effects (startSession deniedEnv newService) /\
  transcripts a' = [] /\
  caseIdRef a' = Some "CASE-1-ABCDEF" /\
  serviceRef a' = Some (after (startSession deniedEnv newService)) /\
  sessionState a' = idle /\
  status a' = "Erreur: Impossible de démarrer la session : Permission denied" /\
  released (after (startSession deniedEnv newService)) = true.
Proof.
  apply (@handleStart_outcome (startRequest deniedEnv) initialApp "secret").
  - discriminate.
  - reflexivity.
  - reflexivity.
Defined.

(** ** Errors of the connection, seen from the component *)

(** X13. When the connection of the service the component holds reports an
    error, the component becomes idle and shows the error, but the service is
    left exactly as it was, with whatever it holds (microphone stream,
    contexts, playing sources).  Only the start button is rendered then: a
    click on stop does nothing, and what a click on start does is the same as
    if the component held no service, so no call reaches the old one. *)
Theorem connection_error_keeps_resources
    (a : App) (service : Service) (message : string) (clock : nat -> Z)
    (req : StartRequest) :
  serviceRef a = Some service ->
  let a' := fst (serviceEvent (ConnError message) clock a) in
  snd (serviceEvent (ConnError message) clock a)
    = [OnError ("Erreur de connexion : " ++ message)%string] /\
  sessionState a' = idle /\
  status a' = ("Erreur: Erreur de connexion : " ++ message)%string /\
  serviceRef a' = Some service /\
  transcripts a' = transcripts a /\
  rendered (sessionState a') = [StartButton] /\
  click ClickStop a' = (a', []) /\
  snd (click (ClickStart req) a') = snd (click (ClickStart req) (set_serviceRef None a')).
Proof.
  intros Href. cbv zeta. unfold serviceEvent. rewrite Href.
  cbn. repeat split.
  unfold handleStart. cbn.
  destruct (newGeminiLiveService (apiKey req)); reflexivity.
Qed.

Lemma connection_error_keeps_resources_witness :
  let a := set_serviceRef (Some liveSession) (setSessionState active initialApp) in
  let a' := fst (serviceEvent (ConnError "network") (fun _ => 0) a) in
  snd (serviceEvent (ConnError "network") (fun _ => 0) a)
    = [OnError "Erreur de connexion : network"] /\
  sessionState a' = idle /\
  status a' = "Erreur: Erreur de connexion : network" /\
  serviceRef a' = Some liveSession /\
  transcripts a' = [] /\
  rendered (sessionState a') = [StartButton] /\
  click ClickStop a' = (a', []) /\
  snd (click (ClickStart (startRequest grantedEnv)) a')
    = snd (click (ClickStart (startRequest grantedEnv)) (set_serviceRef None a')).
Proof.
  apply (@connection_error_keeps_resources
           (set_serviceRef (Some liveSession) (setSessionState active initialApp))
           liveSession "network" (fun _ => 0) (startRequest grantedEnv)).
  reflexivity.
Defined.

(** ** A missing API key *)

Lemma click_stuck c a :
  sessionState a = active -> serviceRef a = None -> click c a = (a, []).
Proof.
  intros Hst Href. destruct c; unfold click; rewrite Hst; [reflexivity| |reflexivity].
  unfold handleStop. now rewrite Hst, Href.
Qed.

Lemma clicks_stuck cs a :
  sessionState a = active -> serviceRef a = None -> clicks cs a = (a, []).
Proof.
  intros Hst Href. induction cs as [|c cs IH]; [reflexivity|].
  cbn [clicks]. rewrite (click_stuck c a Hst Href), IH. reflexivity.
Qed.

(** X14. On a component that is idle and holds no service (as when the page
    is loaded), a click on start when [process.env.API_KEY] is missing or
    empty makes no call at all (the microphone is not even requested) and
    leaves the component active, showing the initialisation status, without a
    service.  From there no click changes anything and no service event can
    arrive: only the stop button is rendered, and it does nothing. *)
Theorem missing_api_key_blocks_the_component
    (req : StartRequest) (a : App) (cs : list Click) (ev : Event) (clock : nat -> Z) :
  sessionState a = idle ->
  serviceRef a = None ->
  match apiKey req with Some key => truthy key | None => false end = false ->
  let a' := fst (click (ClickStart req) a) in
  snd (click (ClickStart req) a) = [] /\
  sessionState a' = active /\
  status a' = startingStatus /\
  serviceRef a' = None /\
  rendered (sessionState a') = [StopButton] /\
  clicks cs a' = (a', []) /\
  serviceEvent ev clock a' = (a', []).
Proof.
  intros Hidle Href Hkey. cbv zeta.
  assert (Hnew : exists e, newGeminiLiveService (apiKey req) = Rejected e).
  { unfold newGeminiLiveService. destruct (apiKey req) as [key|]; [|eauto].
    rewrite Hkey. eauto. }
  destruct Hnew as (e & Hnew).
  unfold click, handleStart. rewrite Hidle, Hnew.
  cbn [fst snd sessionState status serviceRef setStatus setSessionState
       setTranscripts set_caseIdRef rendered].
  repeat split; try assumption.
  - apply clicks_stuck; [reflexivity|exact Href].
  - unfold serviceEvent. cbn. now rewrite Href.
Qed.

Lemma missing_api_key_blocks_the_component_witness :
  let req := {| apiKey := None; caseId := "CASE-1-ABCDEF"; startEnv := grantedEnv;
                startClock := fun _ => 0 |} in
  let a' := fst (click (ClickStart req) initialApp) in
  snd (click (ClickStart req) initialApp) = [] /\
  sessionState a' = active /\
  status a' = startingStatus /\
  serviceRef a' = None /\
  rendered (sessionState a') = [StopButton] /\
  clicks [ClickStop; ClickStart req; ClickNewSession; ClickStop] a' = (a', []) /\
  serviceEvent ConnClose (fun _ => 0) a' = (a', []).
Proof.
  apply (@missing_api_key_blocks_the_component
           {| apiKey := None; caseId := "CASE-1-ABCDEF"; startEnv := grantedEnv;
              startClock := fun _ => 0 |}
           initialApp
           [ClickStop;
            ClickStart {| apiKey := None; caseId := "CASE-1-ABCDEF";
                          startEnv := grantedEnv; startClock := fun _ => 0 |};
            ClickNewSession; ClickStop]
           ConnClose (fun _ => 0)); reflexivity.
Defined.

(** * Sources are started once and stopped at most once *)

Lemma LiveStep_started_below ev s s' es past :
  LiveStep ev s s' es ->
  Forall (fun x => (x < allocated s)%nat) (startedSources past) ->
  NoDup (startedSources past) ->
  Forall (fun x => (x < allocated s')%nat) (startedSources (past ++ es)) /\
  NoDup (startedSources (past ++ es)).
Proof.
  intros Hstep Hlt Hnd. rewrite startedSources_app.
  destruct Hstep as [Hos Hst Hsr Hal|Hos Hst Hsr Hal|y Hev Hos Hst Hsr Hal
                    |Hos Hst Hsr Hal|Hos Hst Hsr Hal];
    rewrite Hsr, ?app_nil_r.
  - split; [eapply Forall_lt_le; eauto|exact Hnd].
  - split; [eapply Forall_lt_le; eauto|exact Hnd].
  - rewrite Hal. now split.
  - rewrite Hal. split.
    + apply Forall_app. split; [eapply Forall_lt_le; [|eauto]; lia|repeat constructor].
    + apply NoDup_app; [exact Hnd|repeat constructor; intros []|].
      intros x Hx [<-|[]]. now apply (not_In_below Hlt).
  - rewrite Hal. split.
    + apply Forall_app. split; [eapply Forall_lt_le; [|eauto]; lia|repeat constructor].
    + apply NoDup_app; [exact Hnd|repeat constructor; intros []|].
      intros x Hx [<-|[]]. now apply (not_In_below Hlt).
Qed.

Lemma LiveStep_stops_once ev s s' es past :
  LiveStep ev s s' es ->
  liveInvariant s past ->
  NoDup (stops past) -> incl (stops past) (startedSources past) ->
  NoDup (stops (past ++ es)) /\ incl (stops (past ++ es)) (startedSources (past ++ es)).
Proof.
  intros Hstep (Hnd & Hlt & Hstops & Hlive) Hnds Hincl.
  rewrite stops_app, startedSources_app.
  assert (Hos_started : incl (outputSources s) (startedSources past)).
  { intros x Hx. rewrite Forall_forall in Hlive. now apply Hlive. }
  assert (Hdisj : forall x, In x (stops past) -> In x (outputSources s) -> False).
  { intros x Hx Hin. rewrite Forall_forall in Hlive. now apply (Hlive x Hin). }
  destruct Hstep as [Hos Hst Hsr Hal|Hos Hst Hsr Hal|y Hev Hos Hst Hsr Hal
                    |Hos Hst Hsr Hal|Hos Hst Hsr Hal];
    rewrite Hst, Hsr, ?app_nil_r; split; auto.
  - now apply NoDup_app.
  - apply incl_app; assumption.
  - now apply incl_appl.
  - now apply NoDup_app.
  - apply incl_app; apply incl_appl; assumption.
Qed.

Lemma run_sources_once evs : forall s past,
  liveInvariant s past ->
  Forall (fun x => (x < allocated s)%nat) (startedSources past) ->
  NoDup (startedSources past) ->
  NoDup (stops past) -> incl (stops past) (startedSources past) ->
  let s' := fst (run evs s) in
  let trace := past ++ snd (run evs s) in
  liveInvariant s' trace /\
  Forall (fun x => (x < allocated s')%nat) (startedSources trace) /\
  NoDup (startedSources trace) /\
  NoDup (stops trace) /\ incl (stops trace) (startedSources trace).
Proof.
  cbv zeta. induction evs as [|ev evs IH]; intros s past Hinv Hlt Hnd Hnds Hincl.
  - cbn. rewrite app_nil_r. auto.
  - rewrite run_cons. cbn [fst snd]. rewrite app_assoc.
    pose proof (handle_LiveStep ev s) as Hstep.
    destruct (@LiveStep_started_below _ _ _ _ past Hstep Hlt Hnd) as (Hlt' & Hnd').
    destruct (@LiveStep_stops_once _ _ _ _ past Hstep Hinv Hnds Hincl) as (Hnds' & Hincl').
    apply IH; auto. apply (LiveStep_invariant Hstep Hinv).
Qed.

(** X15. In any sequence of events from a new service, [start] is called at
    most once on a source, [stop] is called at most once on a source, and
    [stop] is called only on sources that were started. *)
Theorem sources_start_once_stop_once (evs : list Event) :
  let trace := snd (run evs newService) in
  NoDup (startedSources trace) /\
  NoDup (stops trace) /\
  incl (stops trace) (startedSources trace).
Proof.
  cbv zeta.
  assert (H0 : liveInvariant newService []) by (repeat split; constructor).
  destruct (@run_sources_once evs newService [] H0) as (_ & _ & H1 & H2 & H3);
    try constructor; auto.
  intros x [].
Qed.

Lemma LiveStep_gone ev s s' es x :
  LiveStep ev s s' es ->
  ~ In x (outputSources s) -> (x < allocated s)%nat ->
  ~ In x (outputSources s') /\ (x < allocated s')%nat /\ ~ In x (stops es).
Proof.
  intros [Hos Hst Hsr Hal|Hos Hst Hsr Hal|y Hev Hos Hst Hsr Hal|Hos Hst Hsr Hal
         |Hos Hst Hsr Hal] Hnin Hlt; rewrite Hos, Hst.
  - repeat split; auto. lia.
  - repeat split; auto. lia.
  - repeat split; auto; [|lia]. intros Hin. apply Set_delete_In in Hin. tauto.
  - repeat split; auto; [|lia]. intros Hin. apply Set_add_In in Hin.
    destruct Hin as [->|Hin]; [lia|tauto].
  - repeat split; auto; [|lia]. intros [Heq|[]]. lia.
Qed.

Lemma run_gone evs : forall s x,
  ~ In x (outputSources s) -> (x < allocated s)%nat ->
  ~ In x (stops (snd (run evs s))).
Proof.
  induction evs as [|ev evs IH]; intros s x Hnin Hlt; [intros []|].
  rewrite run_cons. cbn [snd]. rewrite stops_app.
  destruct (LiveStep_gone (handle_LiveStep ev s) Hnin Hlt) as (Hnin' & Hlt' & Hns).
  intros Hin. apply in_app_iff in Hin. destruct Hin as [Hin|Hin]; [tauto|].
  now apply (IH _ x Hnin' Hlt').
Qed.

(** X16. Once the end of a started source has been reported, [stop] is never
    called on it: neither a later interruption nor a later teardown touches
    it, whatever happens in between. *)
Theorem ended_sources_are_never_stopped
    (before later : list Event) (x : AudioBufferSourceNode) :
  In x (startedSources (snd (run before newService))) ->
  ~ In x (stops (snd (run (SourceEnded x :: later) (fst (run before newService))))).
Proof.
  intros Hstarted.
  assert (H0 : liveInvariant newService []) by (repeat split; constructor).
  destruct (@run_sources_once before newService [] H0) as (_ & Hlt & _);
    try constructor; auto.
  { intros y []. }
  cbv zeta in Hlt. cbn [app] in Hlt.
  rewrite Forall_forall in Hlt. specialize (Hlt x Hstarted).
  rewrite run_cons. cbn [snd handle]. rewrite stops_app. cbn [onEnded modify effects stops
    flat_map app after].
  apply run_gone.
  - cbn. intros Hin. apply Set_delete_In in Hin. tauto.
  - destruct (fst (run before newService)); exact Hlt.
Qed.

Lemma ended_sources_are_never_stopped_witness :
  ~ In 5%nat (stops (snd (run [ SourceEnded 5%nat;
                                  ConnMessage interruptedMessage (at_ 3 0);
                                  CallStopSession ]
                               (fst (run liveEvents newService))))).
Proof.
  apply (@ended_sources_are_never_stopped liveEvents
           [ConnMessage interruptedMessage (at_ 3 0); CallStopSession] 5%nat).
  vm_compute. auto.
Defined.

(** * Interleaved partial transcripts on screen *)

Lemma onTranscriptUpdate_after_final now t f sp prev :
  Forall (fun e => Entry.isFinal e = true) prev ->
  onTranscriptUpdate now t f sp prev = prev ++ [newEntry now t f sp].
Proof.
  intros Hfinal.
  destruct (list_snoc_cases prev) as [->|(l & x & ->)]; [reflexivity|].
  rewrite onTranscriptUpdate_snoc.
  apply Forall_app in Hfinal. destruct Hfinal as (_ & Hx).
  inversion Hx as [|? ? Hxf _]; subst.
  unfold pendingFor. rewrite Hxf, Bool.andb_false_r. now rewrite <- app_assoc.
Qed.

Lemma truthy_append a b : truthy a = true -> truthy (a ++ b) = true.
Proof. destruct a; [discriminate|reflexivity]. Qed.

Lemma handle_partial_other sp sp' t env s :
  speaker_eqb sp' sp = false ->
  buffer sp' (after (handleServerMessage (partialMessage sp t) env s)) = buffer sp' s.
Proof.
  intros Hne. rewrite handle_buffer. destruct sp, sp'; try discriminate; reflexivity.
Qed.

(** X17. When a partial transcript of the other speaker arrives in the middle
    of a speaker's turn, the next partial of the first speaker does not
    continue the entry on screen: it adds a new entry that carries the whole
    buffer, so the text received before the interleaving is shown, and
    reported, twice. *)
Theorem interleaved_partials_repeat_text
    (t1 t2 t3 : string) (s : Service) (a : App) (clock : nat -> Z) :
  currentInputTranscription s = EmptyString ->
  currentOutputTranscription s = EmptyString ->
  Forall (fun e => Entry.isFinal e = true) (transcripts a) ->
  truthy t1 = true -> truthy t2 = true ->
  let msgs := [ (inputMessage t1, at_ 0 0); (outputMessage t2, at_ 0 0);
                (inputMessage t3, at_ 0 0); (turnCompleteMessage, at_ 0 0) ] in
  let shown := transcripts (deliverAll clock (snd (run (inbound msgs) s)) a) in
  shown = transcripts a ++
          [ newEntry (clock 0%nat) t1 true Victime;
            newEntry (clock 1%nat) t2 true IA;
            newEntry (clock 2%nat) (t1 ++ t3)%string true Victime ] /\
  tableBody shown = tableBody (transcripts a) ++
                    [ (Victime, t1); (IA, t2); (Victime, (t1 ++ t3)%string) ].
Proof.
  intros Hin Hout Hfinal H1 H2. cbv zeta.
  assert (Hshown :
    transcripts (deliverAll clock
      (snd (run (inbound [ (inputMessage t1, at_ 0 0); (outputMessage t2, at_ 0 0);
                           (inputMessage t3, at_ 0 0); (turnCompleteMessage, at_ 0 0) ]) s))
      a)
    = transcripts a ++
      [ newEntry (clock 0%nat) t1 true Victime; newEntry (clock 1%nat) t2 true IA;
        newEntry (clock 2%nat) (t1 ++ t3)%string true Victime ]).
  2:{ rewrite Hshown. split; [reflexivity|]. unfold tableBody. now rewrite map_app. }
  cbn [inbound map fst snd]. rewrite !run_cons. cbn [fst snd handle run].
  set (m1 := handleServerMessage (inputMessage t1) (at_ 0 0) s).
  set (m2 := handleServerMessage (outputMessage t2) (at_ 0 0) (after m1)).
  set (m3 := handleServerMessage (inputMessage t3) (at_ 0 0) (after m2)).
  destruct (handle_partial Victime t1 (at_ 0 0) s) as (E1 & B1).
  destruct (handle_partial IA t2 (at_ 0 0) (after m1)) as (E2 & B2).
  destruct (handle_partial Victime t3 (at_ 0 0) (after m2)) as (E3 & B3).
  cbn [partialMessage buffer] in E1, B1, E2, B2, E3, B3. fold m1 in E1, B1, E2, B2.
  fold m2 in E2, B2, E3, B3. fold m3 in E3, B3.
  pose proof (@handle_partial_other Victime IA t1 (at_ 0 0) s eq_refl) as O1.
  pose proof (@handle_partial_other IA Victime t2 (at_ 0 0) (after m1) eq_refl) as I2.
  pose proof (@handle_partial_other Victime IA t3 (at_ 0 0) (after m2) eq_refl) as O3.
  cbn [partialMessage buffer] in O1, I2, O3. fold m1 in O1. fold m2 in I2. fold m3 in O3.
  rewrite Hout in O1. rewrite B1, Hin in I2. rewrite B2, O1 in O3.
  cbn [String.append] in I2, O3.
  rewrite handle_turnCompleteMessage, E1, E2, E3, B3, O3, I2, O1, Hin.
  rewrite (@truthy_append t1 t3 H1), H2.
  cbn [app String.append deliverAll deliver setTranscripts transcripts].
  rewrite (onTranscriptUpdate_after_final _ _ _ _ Hfinal).
  rewrite onTranscriptUpdate_snoc. cbn [pendingFor newEntry Entry.speaker Entry.isFinal
    speaker_eqb andb negb].
  replace (transcripts a ++ [newEntry (clock 0%nat) t1 false Victime;
                             newEntry (clock 1%nat) t2 false IA])
    with ((transcripts a ++ [newEntry (clock 0%nat) t1 false Victime])
          ++ [newEntry (clock 1%nat) t2 false IA]) by now rewrite <- app_assoc.
  rewrite onTranscriptUpdate_snoc. cbn [pendingFor newEntry Entry.speaker Entry.isFinal
    speaker_eqb andb negb].
  rewrite <- !app_assoc. cbn [app].
  unfold onTurnComplete. rewrite !map_app. cbn [map].
  fold (onTurnComplete Victime (transcripts a)).
  rewrite (onTurnComplete_finals Victime Hfinal).
  fold (onTurnComplete IA (transcripts a)).
  rewrite (onTurnComplete_finals IA Hfinal).
  reflexivity.
Qed.

Lemma interleaved_partials_repeat_text_witness :
  let msgs := [ (inputMessage "Il m'a", at_ 0 0); (outputMessage "Oui", at_ 0 0);
                (inputMessage " suivie", at_ 0 0); (turnCompleteMessage, at_ 0 0) ] in
  let shown := transcripts (deliverAll (fun i => Z.of_nat i)
                              (snd (run (inbound msgs) newService)) initialApp) in
  shown = [ newEntry 0 "Il m'a" true Victime; newEntry 1 "Oui" true IA;
            newEntry 2 "Il m'a suivie" true Victime ] /\
  tableBody shown = [ (Victime, "Il m'a"); (IA, "Oui"); (Victime, "Il m'a suivie") ].
Proof.
  apply (@interleaved_partials_repeat_text "Il m'a" "Oui" " suivie" newService
           initialApp (fun i => Z.of_nat i)); try reflexivity.
  constructor.
Defined.

(** * Stopping from the component *)

(** X8. A click on stop on an active component runs [stopSession] on its
    service and shows the stopping status; the component stays active.  When
    the connection's close signal then arrives, the service only calls
    [onClose] (its teardown has nothing left to release), and the component
    becomes finished with the transcript it had. *)
Theorem stop_then_close_finishes (a : App) (service : Service) (clock : nat -> Z) :
  sessionState a = active ->
  serviceRef a = Some service ->
  let stopped := click ClickStop a in
  let closed := serviceEvent ConnClose clock (fst stopped) in
  snd stopped = effects (stopSession service) /\
  sessionState (fst stopped) = active /\
  status (fst stopped) = stoppingStatus /\
  snd closed = [OnClose] /\
  sessionState (fst closed) = finished /\
  status (fst closed) = closedStatus /\
  transcripts (fst closed) = transcripts a /\
  serviceRef (fst closed) = Some (after (stopSession service)).
Proof.
  intros Hst Href. cbv zeta.
  unfold click, handleStop. rewrite Hst, Href. cbn [fst snd].
  unfold serviceEvent.
  cbn [serviceRef setStatus set_serviceRef handle fst snd].
  rewrite (stopSession_run service). cbn [after effects].
  rewrite (onclose_run (tornDown service)). cbn [after effects].
  rewrite (cleanupEffects_released (tornDown service) (released_tornDown service)).
  cbn. rewrite Hst. repeat split; reflexivity.
Qed.

Lemma stop_then_close_finishes_witness :
  let a := set_serviceRef (Some liveSession) (setSessionState active initialApp) in
  let stopped := click ClickStop a in
  let closed := serviceEvent ConnClose (fun _ => 0) (fst stopped) in
  snd stopped = effects (stopSession liveSession) /\
  sessionState (fst stopped) = active /\
  status (fst stopped) = stoppingStatus /\
  snd closed = [OnClose] /\
  sessionState (fst closed) = finished /\
  status (fst closed) = closedStatus /\
  transcripts (fst closed) = [] /\
  serviceRef (fst closed) = Some (after (stopSession liveSession)).
Proof.
  apply (@stop_then_close_finishes
           (set_serviceRef (Some liveSession) (setSessionState active initialApp))
           liveSession (fun _ => 0)); reflexivity.
Defined.
